(** * stk::CommBuffer and the parallel_data_exchange family
    (packages/stk/stk_util/stk_util/parallel/ParallelComm.hpp)

    A shallow embedding of the typed pack/unpack buffer and of the five
    point-to-point exchange protocols, with the properties the design
    document states about them.

    Conventions.
    - A pointer is an address in [Z]; [nullptr] is [0].  Pointer arithmetic is
      plain addition (overflowing a pointer is undefined in C++).
    - [size_t] and [unsigned] values are [Z] with the wrap-around written out
      ([wrap64], [wrap32]); [int] values are wrapped by [wrap_int].
    - Raw object representations are lists of bytes; integers are laid out
      little-endian (one fixed layout for all participants).
    - A memory access outside the allocated block is undefined behaviour and
      yields the outcome [Undef]. *)

From Stdlib Require Import ZArith List Lia Bool Sorted Permutation.
From coqutil Require Import Byte Word.LittleEndianList.
Import ListNotations.
Local Open Scope Z_scope.
Set Warnings "-register-all".

(** ** Machine integers *)

Definition wrap64 (z : Z) : Z := z mod 2 ^ 64.
Definition wrap32 (z : Z) : Z := z mod 2 ^ 32.

(** Conversion to a 32-bit two's-complement [int]. *)
Definition wrap_int (z : Z) : Z := (z + 2 ^ 31) mod 2 ^ 32 - 2 ^ 31.

(** [value.size()], [value.length()]: the element count as an integer. *)
Definition len {A : Type} (l : list A) : Z := Z.of_nat (length l).

(** ** CommBufferAlign<N>::align

    The general template pads to the next multiple of [N]; the
    specialisation for [N = 1] returns 0. *)
Definition CommBufferAlign (N : Z) (i : Z) : Z :=
  if N =? 1 then 0
  else let i := i mod N in if i =? 0 then 0 else N - i.

Module Buffer.

(** ** The buffer object and the memory it points into *)

Record CommBuffer : Type := mkCommBuffer {
  m_beg : Z;
  m_ptr : Z;
  m_end : Z
}.

(** [CommBuffer() : m_beg(nullptr), m_ptr(nullptr), m_end(nullptr)] *)
Definition CommBuffer_new : CommBuffer := mkCommBuffer 0 0 0.

(** The one allocated block the buffer can point into. *)
Record Heap : Type := mkHeap {
  blk_base : Z;
  blk_bytes : list byte
}.

Definition no_heap : Heap := mkHeap 0 [].

(** Every memory access the buffer performs is recorded, in program order. *)
Inductive access : Type :=
| MemLoad (addr size : Z)
| MemStore (addr size : Z).

Record State : Type := mkState {
  buf : CommBuffer;
  heap : Heap;
  log : list access
}.

Inductive exn : Type :=
| pack_overflow
| unpack_overflow.

Inductive Outcome (A : Type) : Type :=
| Ok (a : A) (s : State)
| Throw (e : exn) (s : State)
| Undef (s : State).
Arguments Ok {A} a s.
Arguments Throw {A} e s.
Arguments Undef {A} s.

Definition M (A : Type) : Type := State -> Outcome A.

Definition ret {A} (a : A) : M A := fun s => Ok a s.

Definition bind {A B} (m : M A) (k : A -> M B) : M B :=
  fun s => match m s with
           | Ok a s' => k a s'
           | Throw e s' => Throw e s'
           | Undef s' => Undef s'
           end.

Notation "x <- m ;; k" := (bind m (fun x => k))
  (at level 61, m at next level, right associativity).
Notation "m ;;; k" := (bind m (fun _ => k))
  (at level 61, right associativity).

(** Modelled from the spec: [pack_overflow()] and [unpack_overflow()] are
    declared in the header and defined elsewhere; a capacity violation is
    fatal to the operation in progress, so each raises. *)
Definition throw {A} (e : exn) : M A := fun s => Throw e s.

Definition get_buf : M CommBuffer := fun s => Ok (buf s) s.

Definition set_m_ptr (p : Z) : M unit := fun s =>
  Ok tt (mkState (mkCommBuffer (m_beg (buf s)) p (m_end (buf s))) (heap s) (log s)).

Definition in_block (h : Heap) (addr size : Z) : bool :=
  (blk_base h <=? addr) && (addr + size <=? blk_base h + len (blk_bytes h)).

(** [*p] read as [size] bytes.  A read outside the block is undefined
    behaviour: the run ends there as [Undef], with the access logged; what a
    machine does after such a read is not modelled. *)
Definition load (addr size : Z) : M (list byte) := fun s =>
  let s' := mkState (buf s) (heap s) (log s ++ [MemLoad addr size]) in
  if in_block (heap s) addr size
  then Ok (firstn (Z.to_nat size)
             (skipn (Z.to_nat (addr - blk_base (heap s))) (blk_bytes (heap s)))) s'
  else Undef s'.

Definition heap_store (h : Heap) (addr : Z) (bs : list byte) : Heap :=
  let off := Z.to_nat (addr - blk_base h) in
  mkHeap (blk_base h)
         (firstn off (blk_bytes h) ++ bs ++ skipn (off + length bs) (blk_bytes h)).

(** [*p = v] for an object whose representation is [bs], all of whose bytes
    the assignment writes (a type without padding bytes). *)
Definition store (addr : Z) (bs : list byte) : M unit := fun s =>
  let lg := log s ++ [MemStore addr (len bs)] in
  if in_block (heap s) addr (len bs)
  then Ok tt (mkState (buf s) (heap_store (heap s) addr bs) lg)
  else Undef (mkState (buf s) (heap s) lg).

(** ** Accessors *)

Definition reset : M unit := fun s =>
  Ok tt (mkState (mkCommBuffer (m_beg (buf s)) (m_beg (buf s)) (m_end (buf s)))
                 (heap s) (log s)).

Definition capacity (b : CommBuffer) : Z := wrap64 (m_end b - m_beg b).
Definition size (b : CommBuffer) : Z := wrap64 (m_ptr b - m_beg b).
(** The difference of the two pointers; it is the [ptrdiff_t] the code
    returns whenever it lies within [-2^63, 2^63). *)
Definition remaining (b : CommBuffer) : Z := m_end b - m_ptr b.
Definition buffer (b : CommBuffer) : Z := m_beg b.

(** [m_beg = nullptr; m_ptr = nullptr; m_ptr += newsize_bytes; m_end = nullptr] *)
Definition set_size (newsize_bytes : Z) (b : CommBuffer) : CommBuffer :=
  mkCommBuffer 0 (0 + newsize_bytes) 0.

(** Modelled from the spec: [set_buffer_ptrs] is declared in the header and
    defined elsewhere; it attaches the three pointers. *)
Definition set_buffer_ptrs (begin ptr end_ : Z) (b : CommBuffer) : CommBuffer :=
  mkCommBuffer begin ptr end_.

(** ** pack: one fixed-size value, and an array of them *)

(** [while ( nalign ) { --nalign ; *m_ptr = 0 ; ++m_ptr ; }] *)
Fixpoint zero_fill (nalign : nat) : M unit :=
  match nalign with
  | O => ret tt
  | S n =>
      b <- get_buf ;;
      store (m_ptr b) [Byte.x00] ;;;
      set_m_ptr (m_ptr b + 1) ;;;
      zero_fill n
  end.

(** [CommBuffer::pack( const T & value )] with [Size = sizeof(T)]; [value] is
    the object representation of the argument.  (The [std::string] test that
    opens the C++ body selects the string overload, which is [pack] on
    [VString] below.) *)
Definition pack_value (Size : Z) (value : list byte) : M unit :=
  b <- get_buf ;;
  let nalign := CommBufferAlign Size (wrap64 (m_ptr b - m_beg b)) in
  if negb (m_beg b =? 0) then
    (if m_end b <? m_ptr b + nalign + Size then throw pack_overflow else ret tt) ;;;
    zero_fill (Z.to_nat nalign) ;;;
    b <- get_buf ;;
    let tmp := m_ptr b in
    store tmp value ;;;
    set_m_ptr (tmp + Size)
  else
    set_m_ptr (m_ptr b + wrap64 (nalign + Size)).

(** [while ( number ) { --number ; *tmp = *value ; ++tmp ; ++value ; }] *)
Fixpoint copy_out (Size : Z) (tmp : Z) (value : list (list byte)) : M Z :=
  match value with
  | [] => ret tmp
  | v :: value' => store tmp v ;;; copy_out Size (tmp + Size) value'
  end.

(** [CommBuffer::pack( const T * value , size_t number )]; the source array
    holds exactly [number] elements. *)
Definition pack_array (Size : Z) (value : list (list byte)) : M unit :=
  let number := wrap64 (len value) in
  b <- get_buf ;;
  let nalign := CommBufferAlign Size (wrap64 (m_ptr b - m_beg b)) in
  if negb (m_beg b =? 0) then
    (if m_end b <? m_ptr b + nalign + wrap64 (number * Size)
     then throw pack_overflow else ret tt) ;;;
    zero_fill (Z.to_nat nalign) ;;;
    b <- get_buf ;;
    tmp <- copy_out Size (m_ptr b) value ;;
    set_m_ptr tmp
  else
    set_m_ptr (m_ptr b + wrap64 (nalign + wrap64 (number * Size))).

(** ** unpack: one fixed-size value, and an array of them *)

(** [CommBuffer::unpack( T & value )]: the read comes first, the bounds test
    after the cursor has moved. *)
Definition unpack_value (Size : Z) : M (list byte) :=
  b <- get_buf ;;
  let nalign := CommBufferAlign Size (wrap64 (m_ptr b - m_beg b)) in
  let tmp := m_ptr b + nalign in
  value <- load tmp Size ;;
  set_m_ptr (tmp + Size) ;;;
  b <- get_buf ;;
  (if m_end b <? m_ptr b then throw unpack_overflow else ret tt) ;;;
  ret value.

(** [while ( number ) { --number ; *value = *tmp ; ++tmp ; ++value ; }] *)
Fixpoint copy_in (Size : Z) (tmp : Z) (number : nat) : M (Z * list (list byte)) :=
  match number with
  | O => ret (tmp, [])
  | S n =>
      v <- load tmp Size ;;
      r <- copy_in Size (tmp + Size) n ;;
      ret (fst r, v :: snd r)
  end.

(** [CommBuffer::unpack( T * value , size_t number )] *)
Definition unpack_array (Size : Z) (number : Z) : M (list (list byte)) :=
  b <- get_buf ;;
  let nalign := CommBufferAlign Size (wrap64 (m_ptr b - m_beg b)) in
  r <- copy_in Size (m_ptr b + nalign) (Z.to_nat number) ;;
  set_m_ptr (fst r) ;;;
  b <- get_buf ;;
  (if m_end b <? m_ptr b then throw unpack_overflow else ret tt) ;;;
  ret (snd r).

(** ** Composite payloads

    The C++ overloads are selected by the static type of the argument: a
    fixed-size type of [Size] bytes, [std::string], [std::pair], [std::map]
    and [std::vector]. *)

Inductive ty : Type :=
| TFixed (Size : Z)
| TString
| TPair (first second : ty)
| TMap (K V : ty)
| TVector (K : ty).

Inductive value : Type :=
| VFixed (bytes : list byte)
| VString (chars : list byte)
| VPair (first second : value)
| VMap (entries : list (value * value))
| VVector (items : list value).

(** [pack(length)] with [size_t length], and [pack<unsigned>(value.size())]. *)
Definition pack_size_t (n : Z) : M unit := pack_value 8 (le_split 8 (wrap64 n)).
Definition pack_unsigned (n : Z) : M unit := pack_value 4 (le_split 4 (wrap32 n)).

Definition unpack_size_t : M Z := bs <- unpack_value 8 ;; ret (le_combine bs).
Definition unpack_unsigned : M Z := bs <- unpack_value 4 ;; ret (le_combine bs).

(** The [pack] overloads for values, strings, pairs, maps and vectors. *)
Fixpoint pack (v : value) : M unit :=
  match v with
  | VFixed bytes => pack_value (len bytes) bytes
  | VString chars =>
      pack_size_t (len chars) ;;;
      pack_array 1 (map (fun c => [c]) chars)
  | VPair first second =>
      pack first ;;;
      pack second
  | VMap entries =>
      pack_size_t (len entries) ;;;
      (fix each (es : list (value * value)) : M unit :=
         match es with
         | [] => ret tt
         | (k, x) :: es' => pack k ;;; pack x ;;; each es'
         end) entries
  | VVector items =>
      pack_unsigned (len items) ;;;
      (fix each (l : list value) : M unit :=
         match l with
         | [] => ret tt
         | x :: l' => pack x ;;; each l'
         end) items
  end.

Section Unpack.

(** The ordering [std::map<K,V>] compares its keys with. *)
Variable key_lt : value -> value -> bool.

(** [value[key] = val] on a map kept in key order. *)
Fixpoint map_assign (key val : value) (m : list (value * value)) : list (value * value) :=
  match m with
  | [] => [(key, val)]
  | (k, x) :: m' =>
      if key_lt key k then (key, val) :: (k, x) :: m'
      else if key_lt k key then (k, x) :: map_assign key val m'
      else (k, val) :: m'
  end.

(** The [unpack] overloads; each returns the value it leaves in its argument. *)
Fixpoint unpack (t : ty) : M value :=
  match t with
  | TFixed Size =>
      bs <- unpack_value Size ;;
      ret (VFixed bs)
  | TString =>
      length <- unpack_size_t ;;
      chars <- unpack_array 1 length ;;
      ret (VString (concat chars))
  | TPair first second =>
      a <- unpack first ;;
      b <- unpack second ;;
      ret (VPair a b)
  | TMap K V =>
      ns <- unpack_size_t ;;
      (fix loop (n : nat) (m : list (value * value)) : M value :=
         match n with
         | O => ret (VMap m)
         | S n' =>
             key <- unpack K ;;
             val <- unpack V ;;
             loop n' (map_assign key val m)
         end) (Z.to_nat ns) []
  | TVector K =>
      num_items <- unpack_unsigned ;;
      (fix loop (n : nat) (done : list value) : M value :=
         match n with
         | O => ret (VVector done)
         | S n' =>
             val <- unpack K ;;
             loop n' (done ++ [val])
         end) (Z.to_nat num_items) []
  end.

(** The loops of the map and vector overloads, named. *)
Fixpoint pack_entries (es : list (value * value)) : M unit :=
  match es with
  | [] => ret tt
  | (k, x) :: es' => pack k ;;; pack x ;;; pack_entries es'
  end.

Fixpoint pack_items (l : list value) : M unit :=
  match l with
  | [] => ret tt
  | x :: l' => pack x ;;; pack_items l'
  end.

Definition unpack_entries (K V : ty) : nat -> list (value * value) -> M value :=
  fix loop (n : nat) (m : list (value * value)) : M value :=
    match n with
    | O => ret (VMap m)
    | S n' =>
        key <- unpack K ;;
        val <- unpack V ;;
        loop n' (map_assign key val m)
    end.

Definition unpack_items (K : ty) : nat -> list value -> M value :=
  fix loop (n : nat) (done : list value) : M value :=
    match n with
    | O => ret (VVector done)
    | S n' =>
        val <- unpack K ;;
        loop n' (done ++ [val])
    end.

(** ** Supported payload values

    [payload max_items t v]: [v] is an object of type [t].  A fixed-size type
    has [sizeof >= 1]; a string is an object of at most [PTRDIFF_MAX]
    characters; a map size fits a [size_t]; a [std::map] holds its entries in
    strictly ascending key order; a vector holds fewer than [max_items]
    items. *)
Definition key_before (a b : value * value) : Prop := key_lt (fst a) (fst b) = true.

Fixpoint payload (max_items : Z) (t : ty) (v : value) : Prop :=
  match t, v with
  | TFixed Size, VFixed bytes => 1 <= Size < 2 ^ 32 /\ len bytes = Size
  | TString, VString chars => len chars < 2 ^ 63
  | TPair first second, VPair a b =>
      payload max_items first a /\ payload max_items second b
  | TMap K V, VMap entries =>
      len entries < 2 ^ 64 /\
      Forall (fun e => payload max_items K (fst e) /\ payload max_items V (snd e)) entries /\
      StronglySorted key_before entries
  | TVector K, VVector items =>
      len items < max_items /\ Forall (payload max_items K) items
  | _, _ => False
  end.

End Unpack.

(** An ordering for keys of an unsigned integer type. *)
Definition unsigned_lt (a b : value) : bool :=
  match a, b with
  | VFixed x, VFixed y => le_combine x <? le_combine y
  | _, _ => false
  end.

(** ** The serialised form

    [enc v o] is the byte string a transfer-mode [pack] of [v] leaves in the
    storage when the cursor stands at offset [o]. *)
Definition enc_value (Size o : Z) (bs : list byte) : list byte :=
  repeat Byte.x00 (Z.to_nat (CommBufferAlign Size o)) ++ bs.

Definition enc_array (Size o : Z) (elems : list (list byte)) : list byte :=
  repeat Byte.x00 (Z.to_nat (CommBufferAlign Size o)) ++ concat elems.

Fixpoint enc (v : value) (o : Z) : list byte :=
  match v with
  | VFixed bytes => enc_value (len bytes) o bytes
  | VString chars =>
      enc_value 8 o (le_split 8 (wrap64 (len chars))) ++ chars
  | VPair first second =>
      let e1 := enc first o in e1 ++ enc second (o + len e1)
  | VMap entries =>
      let h := enc_value 8 o (le_split 8 (wrap64 (len entries))) in
      h ++ (fix each (es : list (value * value)) (o : Z) : list byte :=
              match es with
              | [] => []
              | (k, x) :: es' =>
                  let ek := enc k o in
                  let ex := enc x (o + len ek) in
                  ek ++ ex ++ each es' (o + len ek + len ex)
              end) entries (o + len h)
  | VVector items =>
      let h := enc_value 4 o (le_split 4 (wrap32 (len items))) in
      h ++ (fix each (l : list value) (o : Z) : list byte :=
              match l with
              | [] => []
              | x :: l' => let ex := enc x o in ex ++ each l' (o + len ex)
              end) items (o + len h)
  end.

Fixpoint enc_entries (es : list (value * value)) (o : Z) : list byte :=
  match es with
  | [] => []
  | (k, x) :: es' =>
      let ek := enc k o in
      let ex := enc x (o + len ek) in
      ek ++ ex ++ enc_entries es' (o + len ek + len ex)
  end.

Fixpoint enc_items (l : list value) (o : Z) : list byte :=
  match l with
  | [] => []
  | x :: l' => let ex := enc x o in ex ++ enc_items l' (o + len ex)
  end.

(** ** Sequences of pack calls, and the two passes *)

Inductive pack_call : Type :=
| PackValue (t : ty) (v : value)
| PackArray (Size : Z) (elems : list (list byte)).

Definition run_call (c : pack_call) : M unit :=
  match c with
  | PackValue _ v => pack v
  | PackArray Size elems => pack_array Size elems
  end.

Fixpoint run_calls (cs : list pack_call) : M unit :=
  match cs with
  | [] => ret tt
  | c :: cs' => run_call c ;;; run_calls cs'
  end.

(** A call the type system admits: the value has the static type of the
    call; an array holds [Size]-byte elements and is an object of at most
    [PTRDIFF_MAX] bytes. *)
Definition call_ok (key_lt : value -> value -> bool) (c : pack_call) : Prop :=
  match c with
  | PackValue t v => payload key_lt (2 ^ 64) t v
  | PackArray Size elems =>
      1 <= Size < 2 ^ 32 /\ Forall (fun e => len e = Size) elems /\
      len elems * Size < 2 ^ 63
  end.

Definition enc_call (c : pack_call) (o : Z) : list byte :=
  match c with
  | PackValue _ v => enc v o
  | PackArray Size elems => enc_array Size o elems
  end.

Fixpoint enc_calls (cs : list pack_call) (o : Z) : list byte :=
  match cs with
  | [] => []
  | c :: cs' => let e := enc_call c o in e ++ enc_calls cs' (o + len e)
  end.

(** A freshly constructed buffer: no backing memory, nothing accessed. *)
Definition fresh : State := mkState CommBuffer_new no_heap [].

(** A buffer attached to [storage], allocated at [base], cursor at the
    beginning. *)
Definition attached (base : Z) (storage : list byte) : State :=
  mkState (set_buffer_ptrs base base (base + len storage) CommBuffer_new)
          (mkHeap base storage) [].

Definition sizing_run (cs : list pack_call) : Outcome unit := run_calls cs fresh.

Definition transfer_run (cs : list pack_call) (base : Z) (storage : list byte)
    : Outcome unit :=
  run_calls cs (attached base storage).

(** The cursor an outcome ends with ([-1] when the run did not return). *)
Definition final_cursor {A} (o : Outcome A) : Z :=
  match o with
  | Ok _ s => m_ptr (buf s)
  | _ => -1
  end.

(** The two-pass discipline followed by a read-back: a sizing pass on a
    fresh buffer; [alloc] hands out storage of exactly the size found, at
    address [base]; the transfer pass; [reset()]; [unpack]. *)
Definition round_trip (key_lt : value -> value -> bool) (t : ty) (v : value)
    (base : Z) (alloc : Z -> list byte) : Outcome value :=
  match pack v fresh with
  | Ok _ s1 =>
      (pack v ;;; reset ;;; unpack key_lt t)
        (attached base (alloc (size (buf s1))))
  | Throw e s1 => Throw e s1
  | Undef s1 => Undef s1
  end.

(** An allocator that returns zeroed storage. *)
Definition calloc (n : Z) : list byte := repeat Byte.x00 (Z.to_nat n).

(** A 4-byte buffer carved out of a 16-byte block, and a backed buffer in
    the middle of its pass. *)
Definition short_buffer : State :=
  mkState (mkCommBuffer 4096 4096 4100) (mkHeap 4096 (calloc 16)) [].

Definition in_use : CommBuffer := mkCommBuffer 4096 4100 4196.

(** A vector of [2^32] one-byte items. *)
Definition long_vector : value :=
  VVector (repeat (VFixed [Byte.x00]) (Z.to_nat (2 ^ 32))).

(** ** Shapes of states used in the statements *)

Definition with_ptr (s : State) (p : Z) : State :=
  mkState (mkCommBuffer (m_beg (buf s)) p (m_end (buf s))) (heap s) (log s).

(** A buffer attached to the whole of its block: [pre] is the part of the
    storage before the cursor and [rest] the part from the cursor on. *)
Definition frame (s : State) (pre rest : list byte) : Prop :=
  m_beg (buf s) <> 0 /\
  blk_base (heap s) = m_beg (buf s) /\
  blk_bytes (heap s) = pre ++ rest /\
  m_ptr (buf s) = m_beg (buf s) + len pre /\
  m_end (buf s) = m_beg (buf s) + len pre + len rest /\
  len pre + len rest < 2 ^ 64.

(** What a computation does when it is run in each mode, in terms of the
    byte string [e o] it is meant to produce at offset [o]. *)

(** Sizing mode: only the cursor moves, forwards; it ends [len (e o)] further
    unless the count wrapped around [2^64] (it did not when either end
    offset is below [2^64]). *)
Definition sizing_step (m : M unit) (e : Z -> list byte) : Prop :=
  forall s, m_beg (buf s) = 0 -> 0 <= m_ptr (buf s) ->
    exists p, m s = Ok tt (with_ptr s p) /\ m_ptr (buf s) <= p /\
      (p < 2 ^ 64 \/ m_ptr (buf s) + len (e (m_ptr (buf s))) < 2 ^ 64 ->
       p = m_ptr (buf s) + len (e (m_ptr (buf s)))).

(** Transfer mode with room for [e o]: the bytes are appended at the
    cursor. *)
Definition transfer_step (m : M unit) (e : Z -> list byte) : Prop :=
  forall s pre rest, frame s pre rest -> len (e (len pre)) <= len rest ->
    exists s' rest', m s = Ok tt s' /\ frame s' (pre ++ e (len pre)) rest' /\
      len rest = len (e (len pre)) + len rest' /\
      m_beg (buf s') = m_beg (buf s).

(** Reading back: on storage holding [e o] at the cursor the computation
    returns [a] and leaves the cursor behind those bytes. *)
Definition unpack_step {A} (m : M A) (e : Z -> list byte) (a : A) : Prop :=
  forall s pre post, frame s pre (e (len pre) ++ post) ->
    exists s', m s = Ok a s' /\ frame s' (pre ++ e (len pre)) post /\
      m_beg (buf s') = m_beg (buf s).

Definition both_steps (m : M unit) (e : Z -> list byte) : Prop :=
  sizing_step m e /\ transfer_step m e.

(** Two byte strings laid out one after the other. *)
Definition seq_enc (e1 e2 : Z -> list byte) (o : Z) : list byte :=
  e1 o ++ e2 (o + len (e1 o)).

(** ** peek and skip *)

(** [CommBuffer::peek( T & value )]: [unpack<T>(value)], then the cursor is
    put back.  When the unpack throws, the cursor stays where the unpack left
    it. *)
Definition peek_value (Size : Z) : M (list byte) :=
  b <- get_buf ;;
  let oldPtr := m_ptr b in
  value <- unpack_value Size ;;
  set_m_ptr oldPtr ;;;
  ret value.

(** [CommBuffer::peek( T * value , size_t number )]: as the array unpack,
    with the cursor left alone and the bounds test on [tmp]. *)
Definition peek_array (Size : Z) (number : Z) : M (list (list byte)) :=
  b <- get_buf ;;
  let nalign := CommBufferAlign Size (wrap64 (m_ptr b - m_beg b)) in
  r <- copy_in Size (m_ptr b + nalign) (Z.to_nat number) ;;
  b <- get_buf ;;
  (if m_end b <? fst r then throw unpack_overflow else ret tt) ;;;
  ret (snd r).

(** [CommBuffer::peek( std::string& value )]: the length is peeked as a
    [size_t]; then [offset + length] chars are peeked from the cursor, and the
    string is taken from behind the first [offset = sizeof(size_t)] of them. *)
Definition peek_string : M value :=
  lb <- peek_value 8 ;;
  let length := le_combine lb in
  let offset := 8 in
  chars <- peek_array 1 (wrap64 (offset + length)) ;;
  ret (VString (firstn (Z.to_nat length) (skipn (Z.to_nat offset) (concat chars)))).

(** [CommBuffer::skip<T>( size_t number )] for a type that is not a pair.
    The byte count is a [size_t]; the pointer it is added to is an address
    in [Z], so the model follows the code as long as the advanced pointer
    stays below [2^64]. *)
Definition skip_value (Size : Z) (number : Z) : M unit :=
  b <- get_buf ;;
  set_m_ptr (m_ptr b + wrap64 (CommBufferAlign Size (wrap64 (m_ptr b - m_beg b))
                               + wrap64 (Size * number))) ;;;
  b <- get_buf ;;
  if negb (m_beg b =? 0) && (m_end b <? m_ptr b) then throw unpack_overflow else ret tt.

(** The types [skip] is written for: fixed-size types and pairs of them. *)
Inductive flat_ty : Type :=
| FFixed (Size : Z)
| FPair (first second : flat_ty).

(** [CommBuffer::skip<T>( size_t number )], with the overload for pairs:
    [skip<first_type>(number); skip<second_type>(number)]. *)
Fixpoint skip (t : flat_ty) (number : Z) : M unit :=
  match t with
  | FFixed Size => skip_value Size number
  | FPair first second => skip first number ;;; skip second number
  end.

Fixpoint ty_of (t : flat_ty) : ty :=
  match t with
  | FFixed Size => TFixed Size
  | FPair first second => TPair (ty_of first) (ty_of second)
  end.

(** ** Several values in a row *)

(** What a read returns: a value, or the elements of an array. *)
Inductive item : Type :=
| ItemValue (v : value)
| ItemArray (elems : list (list byte)).

(** The read that mirrors a pack call: [buf.unpack<T>(v)] for
    [buf.pack<T>(v)], and [buf.unpack<T>(p, n)] for [buf.pack<T>(p, n)]. *)
Definition run_unpack (key_lt : value -> value -> bool) (c : pack_call) : M item :=
  match c with
  | PackValue t _ => v <- unpack key_lt t ;; ret (ItemValue v)
  | PackArray Size elems => es <- unpack_array Size (len elems) ;; ret (ItemArray es)
  end.

Fixpoint run_unpacks (key_lt : value -> value -> bool) (cs : list pack_call)
    : M (list item) :=
  match cs with
  | [] => ret []
  | c :: cs' =>
      i <- run_unpack key_lt c ;;
      rest <- run_unpacks key_lt cs' ;;
      ret (i :: rest)
  end.

Definition packed (c : pack_call) : item :=
  match c with
  | PackValue _ v => ItemValue v
  | PackArray _ elems => ItemArray elems
  end.

(** A call whose vectors hold fewer than [2^32] items. *)
Definition readable (key_lt : value -> value -> bool) (c : pack_call) : Prop :=
  match c with
  | PackValue t v => payload key_lt (2 ^ 32) t v
  | PackArray Size elems =>
      1 <= Size < 2 ^ 32 /\ Forall (fun e => len e = Size) elems /\
      len elems * Size < 2 ^ 63
  end.

(** The two-pass discipline for a sequence of pack calls, read back by the
    mirroring unpack calls in the same order. *)
Definition round_trip_calls (key_lt : value -> value -> bool) (cs : list pack_call)
    (base : Z) (alloc : Z -> list byte) : Outcome (list item) :=
  match sizing_run cs with
  | Ok _ s1 =>
      (run_calls cs ;;; reset ;;; run_unpacks key_lt cs)
        (attached base (alloc (size (buf s1))))
  | Throw e s1 => Throw e s1
  | Undef s1 => Undef s1
  end.

(** A computation that moves the cursor over the bytes [e o] and does
    nothing else. *)
Definition skip_step (m : M unit) (e : Z -> list byte) : Prop :=
  forall s pre post, frame s pre (e (len pre) ++ post) ->
    m s = Ok tt (with_ptr s (m_ptr (buf s) + len (e (len pre)))).

(** The calls that write one aligned run of [Size]-byte objects:
    [pack<T>(v)] and [pack<T>(p, n)] for a fixed-size [T]. *)
Definition scalar_call (Size : Z) (c : pack_call) : Prop :=
  match c with
  | PackValue (TFixed Size') (VFixed _) => Size' = Size
  | PackArray Size' _ => Size' = Size
  | _ => False
  end.

(** Transfer mode without room for [e o]: the overflow is signalled. *)
Definition overflow_step (m : M unit) (e : Z -> list byte) : Prop :=
  forall s pre rest, frame s pre rest -> len rest < len (e (len pre)) ->
    exists s', m s = Throw pack_overflow s'.

(** A pair of a 1-byte and a 4-byte value. *)
Definition char_int : flat_ty := FPair (FFixed 1) (FFixed 4).

End Buffer.

(** * The exchange protocols

    Each protocol is run against a transport whose calls are recorded in
    program order.  What the transport delivers is supplied from outside:
    [num_procs] (the group size), [net_data] (the elements each source
    sends), [net_sizes] (the content of each size message). *)

Module Exchange.

Inductive datatype : Type := MPI_CHAR | MPI_INT.

Inductive failure : Type :=
| RequireFailed   (* ThrowRequire *)
| OutOfRange      (* operator[] or pointer indexing outside the object *)
| LengthError.    (* std::vector::resize beyond max_size() *)

Section Protocols.

(** The element type, its value-initialised object and [sizeof(T)]. *)
Variable T : Type.
Variable T_zero : T.
Variable sizeof_T : Z.

Inductive event : Type :=
| MPI_Comm_size
| MPI_Comm_rank
| ComputeReceiveList (sendSizeArray : list Z)
| MPI_Irecv (count : Z) (dt : datatype) (source tag : Z) (request : nat)
| MPI_Isend (count : Z) (dt : datatype) (dest tag : Z) (request : nat)
| MPI_Send (count : Z) (dt : datatype) (dest tag : Z)
| MPI_Barrier
| MPI_Wait (request : nat)
| MPI_Waitany (count : Z) (index : Z)
| MPI_Waitall (count : Z)
| pack_msg_call (iproc : Z)
| unpack_msg_call (iproc : Z) (data : list T).

Inductive Result (D A : Type) : Type :=
| Returned (a : A) (trace : list event) (d : D)
| Aborted (f : failure) (trace : list event) (d : D).
Arguments Returned {D A} a trace d.
Arguments Aborted {D A} f trace d.

(** A computation over the transport trace and the containers [D] it updates. *)
Definition X (D A : Type) : Type := list event -> D -> Result D A.

Definition xret {D A} (a : A) : X D A := fun tr d => Returned a tr d.

Definition xbind {D A B} (m : X D A) (k : A -> X D B) : X D B :=
  fun tr d => match m tr d with
              | Returned a tr' d' => k a tr' d'
              | Aborted f tr' d' => Aborted f tr' d'
              end.

Notation "x <-- m ;; k" := (xbind m (fun x => k))
  (at level 61, m at next level, right associativity).
Notation "m ;;;; k" := (xbind m (fun _ => k))
  (at level 61, right associativity).

Definition emit {D} (e : event) : X D unit := fun tr d => Returned tt (tr ++ [e]) d.
Definition abort {D A} (f : failure) : X D A := fun tr d => Aborted f tr d.
Definition get {D} : X D D := fun tr d => Returned d tr d.
Definition put {D} (d : D) : X D unit := fun tr _ => Returned tt tr d.

(** [v[i]]: indexing outside the container is undefined behaviour. *)
Definition at_ {D A} (v : list A) (i : nat) : X D A :=
  match nth_error v i with
  | Some a => xret a
  | None => abort OutOfRange
  end.

Definition at_Z {D A} (v : list A) (i : Z) : X D A :=
  if i <? 0 then abort OutOfRange else at_ v (Z.to_nat i).

Fixpoint set_nth {A} (v : list A) (i : nat) (a : A) : list A :=
  match v, i with
  | [], _ => []
  | _ :: v', O => a :: v'
  | x :: v', S i' => x :: set_nth v' i' a
  end.

(** [v.resize(n)] for a count given as a (signed) integer: a negative count
    converts to a [size_t] beyond [max_size()]. *)
Definition vresize (v : list T) (n : nat) : list T :=
  firstn n v ++ repeat T_zero (n - length v).

Definition resize {D} (v : list T) (n : Z) : X D (list T) :=
  if n <? 0 then abort LengthError else xret (vresize v (Z.to_nat n)).

(** A completed receive into a buffer holding [v]: the message overwrites
    the front of the buffer. *)
Definition deliver (msg v : list T) : list T :=
  firstn (length v) msg ++ skipn (length msg) v.

(** [for(int i = 0; i < n; ++i) body] *)
Fixpoint for_from {D} (i : nat) (count : nat) (body : nat -> X D unit) : X D unit :=
  match count with
  | O => xret tt
  | S c => body i ;;;; for_from (S i) c body
  end.

Definition for_range {D} (n : Z) (body : nat -> X D unit) : X D unit :=
  for_from 0 (Z.to_nat n) body.

(** What the transport supplies. *)
Variable num_procs : Z.
Variable net_data : nat -> list T.
Variable net_sizes : nat -> Z.

Definition class_size : Z := wrap_int sizeof_T.

(** The three loops shared verbatim by the vector-based variants, over the
    receive lists held in the store. *)

(** [if(recv_lists[iproc].size() > 0) MPI_Irecv(recv_buffer, recv_size, MPI_CHAR, ...)] *)
Definition post_recv (msg_tag : Z) (iproc : nat) : X (list (list T)) unit :=
  recv_lists <-- get ;;
  r <-- at_ recv_lists iproc ;;
  if 0 <? len r then
    let recv_size := wrap_int (len r * class_size) in
    emit (MPI_Irecv recv_size MPI_CHAR (Z.of_nat iproc) msg_tag iproc)
  else xret tt.

(** [if(send_lists[iproc].size() > 0) MPI_Send(send_buffer, send_size, MPI_CHAR, ...)] *)
Definition send_data_loop {D} (send_lists : list (list T)) (msg_tag : Z) : X D unit :=
  for_range num_procs (fun iproc =>
    s <-- at_ send_lists iproc ;;
    if 0 <? len s then
      let send_size := wrap_int (len s * class_size) in
      emit (MPI_Send send_size MPI_CHAR (Z.of_nat iproc) msg_tag)
    else xret tt).

(** [if(recv_lists[iproc].size() > 0) MPI_Wait( &recv_handles[iproc], &status )] *)
Definition wait_data_loop : X (list (list T)) unit :=
  for_range num_procs (fun iproc =>
    recv_lists <-- get ;;
    r <-- at_ recv_lists iproc ;;
    if 0 <? len r then
      emit (MPI_Wait iproc) ;;;;
      put (set_nth recv_lists iproc (deliver (net_data iproc) r))
    else xret tt).

(** [parallel_data_exchange_t].  [ComputeReceiveList] is declared in the
    header and defined elsewhere: the call is recorded with its argument, and
    the vector it returns is the parameter [numToRecvFrom]. *)
Definition parallel_data_exchange_t (send_lists : list (list T))
    (numToRecvFrom : list Z) : X (list (list T)) unit :=
  let msg_tag := 10242 in
  emit MPI_Comm_size ;;;;
  emit MPI_Comm_rank ;;;;
  recv_lists <-- get ;;
  (if (wrap32 num_procs =? len send_lists) && (wrap32 num_procs =? len recv_lists)
   then xret tt else abort RequireFailed) ;;;;
  let global_number_to_send :=
    map (fun iproc => wrap_int (len (nth iproc send_lists [])))
        (seq 0 (Z.to_nat num_procs)) in
  emit (ComputeReceiveList global_number_to_send) ;;;;
  for_range num_procs (fun iproc =>
    recv_lists <-- get ;;
    r <-- at_ recv_lists iproc ;;
    n <-- at_ numToRecvFrom iproc ;;
    r' <-- resize r n ;;
    put (set_nth recv_lists iproc r') ;;;;
    post_recv msg_tag iproc) ;;;;
  emit MPI_Barrier ;;;;
  send_data_loop send_lists msg_tag ;;;;
  wait_data_loop.

(** [parallel_data_exchange_sym_t] *)
Definition parallel_data_exchange_sym_t (send_lists : list (list T))
    : X (list (list T)) unit :=
  let msg_tag := 10242 in
  for_range num_procs (fun iproc =>
    recv_lists <-- get ;;
    r <-- at_ recv_lists iproc ;;
    s <-- at_ send_lists iproc ;;
    put (set_nth recv_lists iproc (vresize r (length s))) ;;;;
    post_recv msg_tag iproc) ;;;;
  emit MPI_Barrier ;;;;
  send_data_loop send_lists msg_tag ;;;;
  wait_data_loop.

(** [parallel_data_exchange_nonsym_known_sizes_t]: the offsets and the data
    are raw arrays; the store is [recvData]. *)
Definition slice_size {D} (offsets : list Z) (iproc : nat) : X D Z :=
  hi <-- at_ offsets (S iproc) ;;
  lo <-- at_ offsets iproc ;;
  xret (wrap_int (hi - lo)).

Definition parallel_data_exchange_nonsym_known_sizes_t
    (sendOffsets : list Z) (sendData : list T) (recvOffsets : list Z)
    : X (list T) unit :=
  let msg_tag := 10243 in
  let bytesPerScalar := wrap_int sizeof_T in
  for_range num_procs (fun iproc =>
    recvSize <-- slice_size recvOffsets iproc ;;
    if 0 <? recvSize then
      lo <-- at_ recvOffsets iproc ;;
      recvData <-- get ;;
      (* &recvData[recvOffsets[iproc]] *)
      (if (0 <=? lo) && (lo <? len recvData) then xret tt else abort OutOfRange) ;;;;
      let recvSizeBytes := wrap_int (recvSize * bytesPerScalar) in
      emit (MPI_Irecv recvSizeBytes MPI_CHAR (Z.of_nat iproc) msg_tag iproc)
    else xret tt) ;;;;
  emit MPI_Barrier ;;;;
  for_range num_procs (fun iproc =>
    sendSize <-- slice_size sendOffsets iproc ;;
    if 0 <? sendSize then
      lo <-- at_ sendOffsets iproc ;;
      (if (0 <=? lo) && (lo <? len sendData) then xret tt else abort OutOfRange) ;;;;
      let sendSizeBytes := wrap_int (sendSize * bytesPerScalar) in
      emit (MPI_Send sendSizeBytes MPI_CHAR (Z.of_nat iproc) msg_tag)
    else xret tt) ;;;;
  for_range num_procs (fun iproc =>
    recvSize <-- slice_size recvOffsets iproc ;;
    if 0 <? recvSize then
      emit (MPI_Wait iproc) ;;;;
      lo <-- at_ recvOffsets iproc ;;
      recvData <-- get ;;
      let k := Z.to_nat lo in
      put (firstn k recvData
           ++ deliver (net_data iproc) (firstn (Z.to_nat recvSize) (skipn k recvData))
           ++ skipn (k + Z.to_nat recvSize) recvData)
    else xret tt).

(** [parallel_data_exchange_sym_unknown_size_t]: a round of size messages,
    then the data round. *)
Definition parallel_data_exchange_sym_unknown_size_t (send_lists : list (list T))
    : X (list (list T)) unit :=
  let msg_tag := 10242 in
  for_range num_procs (fun iproc =>
    _ <-- at_ send_lists iproc ;; xret tt) ;;;;
  for_range num_procs (fun iproc =>
    recv_lists <-- get ;;
    r <-- at_ recv_lists iproc ;;
    if 0 <? len r then emit (MPI_Irecv 1 MPI_INT (Z.of_nat iproc) msg_tag iproc)
    else xret tt) ;;;;
  emit MPI_Barrier ;;;;
  for_range num_procs (fun iproc =>
    s <-- at_ send_lists iproc ;;
    if 0 <? len s then emit (MPI_Send 1 MPI_INT (Z.of_nat iproc) msg_tag)
    else xret tt) ;;;;
  for_range num_procs (fun iproc =>
    recv_lists <-- get ;;
    r <-- at_ recv_lists iproc ;;
    if 0 <? len r then
      emit (MPI_Wait iproc) ;;;;
      r' <-- resize r (net_sizes iproc) ;;
      put (set_nth recv_lists iproc r')
    else xret tt) ;;;;
  for_range num_procs (post_recv msg_tag) ;;;;
  emit MPI_Barrier ;;;;
  send_data_loop send_lists msg_tag ;;;;
  wait_data_loop.

(** [parallel_data_exchange_sym_pack_unpack]: the store is
    [(send_data, recv_data)]; [arrival k] is the index the [k]-th
    [MPI_Waitany] reports. *)
Variable pack_msg : Z -> list T -> list T.
Variable arrival : nat -> Z.

Definition parallel_data_exchange_sym_pack_unpack (comm_procs : list Z)
    (deterministic : bool) : X (list (list T) * list (list T)) unit :=
  let msg_tag := 10242 in
  let num_comm_procs := wrap_int (len comm_procs) in
  (* std::vector<std::vector<T> > send_data(num_comm_procs), recv_data(num_comm_procs) *)
  (if num_comm_procs <? 0 then abort LengthError else xret tt) ;;;;
  put (repeat [] (Z.to_nat num_comm_procs), repeat [] (Z.to_nat num_comm_procs)) ;;;;
  for_range num_comm_procs (fun i =>
    iproc <-- at_ comm_procs i ;;
    d <-- get ;;
    s <-- at_ (fst d) i ;;
    emit (pack_msg_call iproc) ;;;;
    let s' := pack_msg iproc s in
    r <-- at_ (snd d) i ;;
    let r' := vresize r (length s') in
    put (set_nth (fst d) i s', set_nth (snd d) i r') ;;;;
    let buf_size := wrap_int (len r' * class_size) in
    emit (MPI_Irecv buf_size MPI_CHAR iproc msg_tag i) ;;;;
    emit (MPI_Isend buf_size MPI_CHAR iproc msg_tag i)) ;;;;
  for_range num_comm_procs (fun i =>
    idx <-- (if deterministic
             then emit (MPI_Wait i) ;;;; xret (Z.of_nat i)
             else emit (MPI_Waitany num_comm_procs (arrival i)) ;;;; xret (arrival i)) ;;
    iproc <-- at_Z comm_procs idx ;;
    d <-- get ;;
    r <-- at_Z (snd d) idx ;;
    let r' := deliver (net_data (Z.to_nat idx)) r in
    put (fst d, set_nth (snd d) (Z.to_nat idx) r') ;;;;
    emit (unpack_msg_call iproc r')) ;;;;
  emit (MPI_Waitall num_comm_procs).

(** ** The five variants, run from an empty trace *)

Inductive variant : Type :=
| SizeUnknown (send_lists recv_lists : list (list T)) (numToRecvFrom : list Z)
| SymKnown (send_lists recv_lists : list (list T))
| OffsetKnown (sendOffsets : list Z) (sendData : list T)
              (recvOffsets : list Z) (recvData : list T)
| SymUnknown (send_lists recv_lists : list (list T))
| Functor (comm_procs : list Z) (deterministic : bool).

Inductive ending : Type :=
| Returns
| Aborts (f : failure).

Definition finish {D A} (r : Result D A) : ending * list event :=
  match r with
  | Returned _ tr _ => (Returns, tr)
  | Aborted f tr _ => (Aborts f, tr)
  end.

Definition run (v : variant) : ending * list event :=
  match v with
  | SizeUnknown send_lists recv_lists numToRecvFrom =>
      finish (parallel_data_exchange_t send_lists numToRecvFrom [] recv_lists)
  | SymKnown send_lists recv_lists =>
      finish (parallel_data_exchange_sym_t send_lists [] recv_lists)
  | OffsetKnown sendOffsets sendData recvOffsets recvData =>
      finish (parallel_data_exchange_nonsym_known_sizes_t
                sendOffsets sendData recvOffsets [] recvData)
  | SymUnknown send_lists recv_lists =>
      finish (parallel_data_exchange_sym_unknown_size_t send_lists [] recv_lists)
  | Functor comm_procs deterministic =>
      finish (parallel_data_exchange_sym_pack_unpack comm_procs deterministic [] ([], []))
  end.

Definition barrier_based (v : variant) : bool :=
  match v with
  | Functor _ _ => false
  | _ => true
  end.

(** ** Calls that meet the preconditions *)

Definition slices_ok (offsets : list Z) (data : list T) : Prop :=
  len offsets = num_procs + 1 /\
  forall i, (i < Z.to_nat num_procs)%nat ->
    0 < wrap_int (nth (S i) offsets 0 - nth i offsets 0) ->
    0 <= nth i offsets 0 < len data.

Definition valid (v : variant) : Prop :=
  match v with
  | SizeUnknown send_lists recv_lists numToRecvFrom =>
      0 <= num_procs < 2 ^ 31 /\
      len send_lists = num_procs /\ len recv_lists = num_procs /\
      len numToRecvFrom = num_procs /\ Forall (fun n => 0 <= n) numToRecvFrom
  | SymKnown send_lists recv_lists =>
      0 <= num_procs /\ len send_lists = num_procs /\ len recv_lists = num_procs
  | OffsetKnown sendOffsets sendData recvOffsets recvData =>
      0 <= num_procs /\ slices_ok sendOffsets sendData /\ slices_ok recvOffsets recvData
  | SymUnknown send_lists recv_lists =>
      0 <= num_procs /\ len send_lists = num_procs /\ len recv_lists = num_procs /\
      forall i, 0 < len (nth i recv_lists []) -> 0 <= net_sizes i
  | Functor comm_procs deterministic =>
      len comm_procs < 2 ^ 31 /\
      (deterministic = false ->
       forall i, (i < length comm_procs)%nat -> 0 <= arrival i < len comm_procs)
  end.

(** ** Shapes of traces *)

Definition is_irecv (e : event) : Prop :=
  match e with MPI_Irecv _ _ _ _ _ => True | _ => False end.
Definition is_send (e : event) : Prop :=
  match e with MPI_Send _ _ _ _ => True | _ => False end.
Definition is_wait (e : event) : Prop :=
  match e with MPI_Wait _ => True | _ => False end.
Definition is_query (e : event) : Prop :=
  match e with
  | MPI_Comm_size | MPI_Comm_rank | ComputeReceiveList _ => True
  | _ => False
  end.

(** The request a receive is posted on, or a wait waits for. *)
Definition request (e : event) : option nat :=
  match e with
  | MPI_Irecv _ _ _ _ r => Some r
  | MPI_Wait r => Some r
  | _ => None
  end.

(** Receives posted, a barrier, blocking sends, and a wait on each request
    a receive was posted on. *)
Definition trio (tr : list event) : Prop :=
  exists recvs sends waits,
    tr = recvs ++ [MPI_Barrier] ++ sends ++ waits /\
    Forall is_irecv recvs /\ Forall is_send sends /\ Forall is_wait waits /\
    map request recvs = map request waits.

(** Group queries and size resolution, then one or more trios. *)
Definition barrier_separated (tr : list event) : Prop :=
  exists queries rounds,
    tr = queries ++ concat rounds /\ Forall is_query queries /\
    rounds <> [] /\ Forall trio rounds.

(** A non-blocking receive of datatype [dt] was posted on request [i]. *)
Definition posted (dt : datatype) (i : nat) (tr : list event) : Prop :=
  exists count source tag, In (MPI_Irecv count dt source tag i) tr.

(** The partners the unpack callback was invoked for, in order. *)
Fixpoint unpacked (tr : list event) : list Z :=
  match tr with
  | [] => []
  | unpack_msg_call iproc _ :: tr' => iproc :: unpacked tr'
  | _ :: tr' => unpacked tr'
  end.

(** ** The traces of the barrier-based variants, written out *)

Definition irecv_if (msg_tag count : Z) (i : nat) : list event :=
  if 0 <? count
  then [MPI_Irecv (wrap_int (count * class_size)) MPI_CHAR (Z.of_nat i) msg_tag i]
  else [].

Definition send_if (msg_tag count : Z) (i : nat) : list event :=
  if 0 <? count
  then [MPI_Send (wrap_int (count * class_size)) MPI_CHAR (Z.of_nat i) msg_tag]
  else [].

Definition wait_if (count : Z) (i : nat) : list event :=
  if 0 <? count then [MPI_Wait i] else [].

Definition ranks : list nat := seq 0 (Z.to_nat num_procs).

Definition data_round (msg_tag : Z) (rcount scount : nat -> Z) : list event :=
  flat_map (fun i => irecv_if msg_tag (rcount i) i) ranks
  ++ [MPI_Barrier]
  ++ flat_map (fun i => send_if msg_tag (scount i) i) ranks
  ++ flat_map (fun i => wait_if (rcount i) i) ranks.

Definition size_round (rcount scount : nat -> Z) : list event :=
  flat_map (fun i => if 0 <? rcount i
                     then [MPI_Irecv 1 MPI_INT (Z.of_nat i) 10242 i] else []) ranks
  ++ [MPI_Barrier]
  ++ flat_map (fun i => if 0 <? scount i
                        then [MPI_Send 1 MPI_INT (Z.of_nat i) 10242] else []) ranks
  ++ flat_map (fun i => wait_if (rcount i) i) ranks.

Definition count_of (lists : list (list T)) (i : nat) : Z := len (nth i lists []).

Definition slice_of (offsets : list Z) (i : nat) : Z :=
  wrap_int (nth (S i) offsets 0 - nth i offsets 0).

(** The number of elements to receive from rank [i], as it is known when
    the data receives are posted. *)
Definition recv_count (v : variant) (i : nat) : Z :=
  match v with
  | SizeUnknown _ _ numToRecvFrom => nth i numToRecvFrom 0
  | SymKnown send_lists _ => count_of send_lists i
  | OffsetKnown _ _ recvOffsets _ => slice_of recvOffsets i
  | SymUnknown _ recv_lists =>
      if 0 <? count_of recv_lists i then net_sizes i else 0
  | Functor _ _ => 0
  end.

Definition send_count (v : variant) (i : nat) : Z :=
  match v with
  | SizeUnknown send_lists _ _ => count_of send_lists i
  | SymKnown send_lists _ => count_of send_lists i
  | OffsetKnown sendOffsets _ _ _ => slice_of sendOffsets i
  | SymUnknown send_lists _ => count_of send_lists i
  | Functor _ _ => 0
  end.

Definition expected_trace (v : variant) : list event :=
  match v with
  | SizeUnknown send_lists _ _ =>
      [MPI_Comm_size; MPI_Comm_rank;
       ComputeReceiveList (map (fun i => wrap_int (count_of send_lists i)) ranks)]
      ++ data_round 10242 (recv_count v) (send_count v)
  | SymKnown _ _ => data_round 10242 (recv_count v) (send_count v)
  | OffsetKnown _ _ _ _ => data_round 10243 (recv_count v) (send_count v)
  | SymUnknown send_lists recv_lists =>
      size_round (count_of recv_lists) (count_of send_lists)
      ++ data_round 10242 (recv_count v) (send_count v)
  | Functor _ _ => []
  end.

(** ** Messages and stores *)

Definition msg_tag_of (v : variant) : Z :=
  match v with
  | OffsetKnown _ _ _ _ => 10243
  | _ => 10242
  end.

Definition vector_based (v : variant) : bool :=
  match v with
  | SizeUnknown _ _ _ | SymKnown _ _ | SymUnknown _ _ => true
  | _ => false
  end.

Definition stored {D A} (r : Result D A) : option D :=
  match r with
  | Returned _ _ d => Some d
  | Aborted _ _ _ => None
  end.

(** The receive lists a vector-based call leaves behind when it returns. *)
Definition received (v : variant) : option (list (list T)) :=
  match v with
  | SizeUnknown send_lists recv_lists numToRecvFrom =>
      stored (parallel_data_exchange_t send_lists numToRecvFrom [] recv_lists)
  | SymKnown send_lists recv_lists =>
      stored (parallel_data_exchange_sym_t send_lists [] recv_lists)
  | SymUnknown send_lists recv_lists =>
      stored (parallel_data_exchange_sym_unknown_size_t send_lists [] recv_lists)
  | _ => None
  end.

(** The receive array an offset-based call leaves behind when it returns. *)
Definition received_data (sendOffsets : list Z) (sendData : list T)
    (recvOffsets : list Z) (recvData : list T) : option (list T) :=
  stored (parallel_data_exchange_nonsym_known_sizes_t
            sendOffsets sendData recvOffsets [] recvData).

(** The part of a raw array between two consecutive offsets. *)
Definition slice (offsets : list Z) (data : list T) (i : nat) : list T :=
  firstn (Z.to_nat (nth (S i) offsets 0 - nth i offsets 0))
         (skipn (Z.to_nat (nth i offsets 0)) data).

(** Offsets that cut a raw array into consecutive slices, one per rank. *)
Definition contiguous (offsets : list Z) (data : list T) : Prop :=
  (forall j, (j < Z.to_nat num_procs)%nat ->
     0 <= nth j offsets 0 <= nth (S j) offsets 0) /\
  nth (Z.to_nat num_procs) offsets 0 <= len data /\
  nth (Z.to_nat num_procs) offsets 0 < 2 ^ 31.

(** ** The trace of the callback-based variant, written out *)

Definition packed_size (iproc : Z) : nat := length (pack_msg iproc []).

Definition functor_posts (comm_procs : list Z) : list event :=
  flat_map (fun i =>
      let iproc := nth i comm_procs 0 in
      let buf_size := wrap_int (Z.of_nat (packed_size iproc) * class_size) in
      [pack_msg_call iproc;
       MPI_Irecv buf_size MPI_CHAR iproc 10242 i;
       MPI_Isend buf_size MPI_CHAR iproc 10242 i])
    (seq 0 (length comm_procs)).

(** The index of the request that completes [k]-th. *)
Definition completion (deterministic : bool) (k : nat) : nat :=
  if deterministic then k else Z.to_nat (arrival k).

(** What the receive buffer of request [idx] holds once its message is in. *)
Definition handed (comm_procs : list Z) (idx : nat) : list T :=
  deliver (net_data idx) (repeat T_zero (packed_size (nth idx comm_procs 0))).

Definition functor_completions (comm_procs : list Z) (deterministic : bool)
    : list event :=
  flat_map (fun k =>
      let idx := completion deterministic k in
      [if deterministic then MPI_Wait k
       else MPI_Waitany (len comm_procs) (arrival k);
       unpack_msg_call (nth idx comm_procs 0) (handed comm_procs idx)])
    (seq 0 (length comm_procs)).

Definition is_post (e : event) : Prop :=
  match e with
  | MPI_Irecv _ _ _ _ _ | MPI_Isend _ _ _ _ _ | MPI_Send _ _ _ _ => True
  | _ => False
  end.

End Protocols.

Arguments MPI_Comm_size {T}.
Arguments MPI_Comm_rank {T}.
Arguments ComputeReceiveList {T} sendSizeArray.
Arguments MPI_Irecv {T} count dt source tag request.
Arguments MPI_Isend {T} count dt dest tag request.
Arguments MPI_Send {T} count dt dest tag.
Arguments MPI_Barrier {T}.
Arguments MPI_Wait {T} request.
Arguments MPI_Waitany {T} count index.
Arguments MPI_Waitall {T} count.
Arguments pack_msg_call {T} iproc.
Arguments unpack_msg_call {T} iproc data.
Arguments Returned {T D A} a trace d.
Arguments Aborted {T D A} f trace d.
Arguments xret {T D A} a _ _.
Arguments xbind {T D A B} m k _ _.
Arguments emit {T D} e _ _.
Arguments abort {T D A} f _ _.
Arguments get {T D} _ _.
Arguments put {T D} d _ _.
Arguments at_ {T D A} v i _ _.
Arguments at_Z {T D A} v i _ _.
Arguments for_from {T D} i count body _ _.
Arguments for_range {T D} n body _ _.
Arguments finish {T D A} r.
Arguments SizeUnknown {T}.
Arguments SymKnown {T}.
Arguments OffsetKnown {T}.
Arguments SymUnknown {T}.
Arguments Functor {T}.
Arguments is_irecv {T} e.
Arguments is_send {T} e.
Arguments is_wait {T} e.
Arguments is_query {T} e.
Arguments trio {T} tr.
Arguments request {T} e.
Arguments barrier_separated {T} tr.
Arguments posted {T} dt i tr.
Arguments unpacked {T} tr.
Arguments barrier_based {T} v.
Arguments count_of {T} lists i.
Arguments set_nth {A} v i a.
Arguments deliver {T} msg v.
Arguments vresize {T}.
Arguments resize {T} T_zero {D}.
Arguments send_data_loop {T} sizeof_T num_procs {D}.
Arguments wait_data_loop {T}.
Arguments parallel_data_exchange_t {T}.
Arguments parallel_data_exchange_sym_t {T}.
Arguments parallel_data_exchange_nonsym_known_sizes_t {T}.
Arguments parallel_data_exchange_sym_unknown_size_t {T}.
Arguments parallel_data_exchange_sym_pack_unpack {T}.
Arguments run {T}.
Arguments valid {T}.
Arguments slices_ok {T}.
Arguments expected_trace {T}.
Arguments recv_count {T}.
Arguments send_count {T}.
Arguments is_post {T} e.
Arguments msg_tag_of {T} v.
Arguments vector_based {T} v.
Arguments stored {T D A} r.
Arguments slice {T} offsets data i.
Arguments contiguous {T} num_procs offsets data.

(** ** A concrete transport for the examples

    A group of two participants exchanging 8-byte elements. *)
Definition demo_data (i : nat) : list Z := [100 + Z.of_nat i; 200; 300].
Definition demo_sizes (i : nat) : Z := 2.
Definition demo_pack (iproc : Z) (v : list Z) : list Z := [iproc; iproc].
Definition empty_pack (iproc : Z) (v : list Z) : list Z := [].
Definition demo_arrival (k : nat) : Z := 1 - Z.of_nat k.

Definition demo_run : variant Z -> ending * list (event Z) :=
  run 0 8 2 demo_data demo_sizes demo_pack demo_arrival.

End Exchange.

(** * Properties of the buffer *)

Module BufferFacts.
Import Buffer.

(** ** Lengths and alignment arithmetic *)

Lemma len_nil {A} : len (@nil A) = 0.
Proof. reflexivity. Qed.

Lemma len_cons {A} (a : A) l : len (a :: l) = 1 + len l.
Proof. unfold len. cbn [length]. lia. Qed.

Lemma len_app {A} (l1 l2 : list A) : len (l1 ++ l2) = len l1 + len l2.
Proof. unfold len. rewrite length_app. lia. Qed.

Lemma len_repeat {A} (a : A) n : len (repeat a n) = Z.of_nat n.
Proof. unfold len. now rewrite repeat_length. Qed.

Lemma len_le_split n z : len (le_split n z) = Z.of_nat n.
Proof. unfold len. now rewrite length_le_split. Qed.

Lemma len_nonneg {A} (l : list A) : 0 <= len l.
Proof. unfold len. lia. Qed.

Lemma len_zero_nil {A} (l : list A) : len l = 0 -> l = [].
Proof. destruct l; [reflexivity|]. rewrite len_cons. pose proof (len_nonneg l). lia. Qed.

Create Rewrite HintDb len.
#[local] Hint Rewrite @len_nil @len_cons @len_app @len_repeat len_le_split : len.

Ltac lens := autorewrite with len in *.

Lemma wrap64_small z : 0 <= z < 2 ^ 64 -> wrap64 z = z.
Proof. intros H. unfold wrap64. now apply Z.mod_small. Qed.

Lemma wrap64_bounds z : 0 <= wrap64 z < 2 ^ 64.
Proof. unfold wrap64. apply Z.mod_pos_bound. lia. Qed.

Lemma align_range N i : 1 <= N -> 0 <= CommBufferAlign N i < N.
Proof.
  intros HN. unfold CommBufferAlign.
  destruct (N =? 1) eqn:E1; [lia|].
  apply Z.eqb_neq in E1.
  pose proof (Z.mod_pos_bound i N ltac:(lia)) as Hm.
  destruct (i mod N =? 0) eqn:E0; [lia|].
  apply Z.eqb_neq in E0. lia.
Qed.

Lemma align_multiple N i : 1 <= N -> (i + CommBufferAlign N i) mod N = 0.
Proof.
  intros HN. unfold CommBufferAlign.
  destruct (N =? 1) eqn:E1.
  - apply Z.eqb_eq in E1. subst N. rewrite Z.add_0_r. apply Z.mod_1_r.
  - destruct (i mod N =? 0) eqn:E0.
    + apply Z.eqb_eq in E0. now rewrite Z.add_0_r.
    + replace (i + (N - i mod N)) with (N * (1 + i / N)).
      * rewrite Z.mul_comm. apply Z.mod_mul. lia.
      * pose proof (Z.div_mod i N ltac:(lia)). lia.
Qed.

Lemma align_one i : CommBufferAlign 1 i = 0.
Proof. reflexivity. Qed.

(** ** Memory primitives *)

Lemma bind_ok {A B} (m : M A) (k : A -> M B) s a s' :
  m s = Ok a s' -> bind m k s = k a s'.
Proof. intros H. unfold bind. now rewrite H. Qed.

Lemma firstn_len_app {A} (l1 l2 : list A) n :
  n = length l1 -> firstn n (l1 ++ l2) = l1.
Proof.
  intros ->. rewrite firstn_app, Nat.sub_diag, firstn_all. cbn. apply app_nil_r.
Qed.

Lemma skipn_len_app {A} (l1 l2 : list A) n :
  n = length l1 -> skipn n (l1 ++ l2) = l2.
Proof.
  intros ->. rewrite skipn_app, Nat.sub_diag, skipn_all. reflexivity.
Qed.

Lemma split_at {A} (l : list A) n :
  0 <= n <= len l -> exists a b, l = a ++ b /\ len a = n.
Proof.
  intros H. exists (firstn (Z.to_nat n) l), (skipn (Z.to_nat n) l). split.
  - symmetry. apply firstn_skipn.
  - unfold len in *. rewrite length_firstn. lia.
Qed.

Lemma store_at s pre old rest addr bs :
  blk_bytes (heap s) = pre ++ old ++ rest ->
  addr = blk_base (heap s) + len pre ->
  len old = len bs ->
  store addr bs s =
    Ok tt (mkState (buf s) (mkHeap (blk_base (heap s)) (pre ++ bs ++ rest))
                   (log s ++ [MemStore addr (len bs)])).
Proof.
  intros Hb -> Hl. unfold store, in_block. rewrite Hb. lens.
  pose proof (len_nonneg pre). pose proof (len_nonneg rest). pose proof (len_nonneg bs).
  replace (_ && _) with true by (symmetry; apply andb_true_iff; lia).
  unfold heap_store. rewrite Hb.
  replace (Z.to_nat (blk_base (heap s) + len pre - blk_base (heap s))) with (length pre)
    by (unfold len; lia).
  rewrite firstn_len_app by reflexivity.
  rewrite (app_assoc pre old rest), skipn_len_app; [reflexivity|].
  rewrite length_app. unfold len in Hl. lia.
Qed.

Lemma load_at s pre bs post addr sz :
  blk_bytes (heap s) = pre ++ bs ++ post ->
  addr = blk_base (heap s) + len pre ->
  sz = len bs ->
  load addr sz s = Ok bs (mkState (buf s) (heap s) (log s ++ [MemLoad addr sz])).
Proof.
  intros Hb -> ->. unfold load, in_block. rewrite Hb. lens.
  pose proof (len_nonneg pre). pose proof (len_nonneg post). pose proof (len_nonneg bs).
  replace (_ && _) with true by (symmetry; apply andb_true_iff; lia).
  replace (Z.to_nat (blk_base (heap s) + len pre - blk_base (heap s))) with (length pre)
    by (unfold len; lia).
  rewrite skipn_len_app by reflexivity.
  rewrite firstn_len_app; [reflexivity|]. unfold len. lia.
Qed.

Lemma zero_fill_at n : forall s pre old rest,
  frame s pre (old ++ rest) -> length old = n ->
  exists s', zero_fill n s = Ok tt s' /\
    frame s' (pre ++ repeat Byte.x00 n) rest /\
    m_beg (buf s') = m_beg (buf s).
Proof.
  induction n as [|n IH]; intros s pre old rest Hf Hl.
  - destruct old; [|discriminate]. exists s. cbn [zero_fill repeat].
    rewrite app_nil_r. now split.
  - destruct old as [|b old]; [discriminate|]. injection Hl as Hl.
    destruct Hf as (Hb & Hbase & Hbytes & Hptr & Hend & Hlt).
    cbn [zero_fill]. unfold bind at 1. cbn [get_buf].
    erewrite bind_ok; cycle 1.
    { apply (store_at s pre [b] (old ++ rest)); [exact Hbytes| lia | reflexivity]. }
    unfold bind at 1, set_m_ptr at 1. cbn [buf heap log].
    match goal with |- context [zero_fill n ?st] =>
      destruct (IH st (pre ++ [Byte.x00]) old rest) as (s' & Hz & Hf' & Hm) end.
    + unfold frame. cbn [buf heap log m_beg m_ptr m_end blk_base blk_bytes].
      lens. rewrite <- !app_assoc. cbn [app].
      repeat split; try assumption; lia.
    + exact Hl.
    + exists s'. split; [exact Hz|]. split; [|exact Hm].
      replace (pre ++ repeat Byte.x00 (S n)) with ((pre ++ [Byte.x00]) ++ repeat Byte.x00 n)
        by (rewrite <- app_assoc; reflexivity).
      exact Hf'.
Qed.

(** ** Composition of steps *)

Lemma with_ptr_twice s p q : with_ptr (with_ptr s p) q = with_ptr s q.
Proof. reflexivity. Qed.

Lemma sizing_step_seq m1 m2 e1 e2 :
  sizing_step m1 e1 -> sizing_step m2 e2 ->
  sizing_step (m1 ;;; m2) (seq_enc e1 e2).
Proof.
  intros H1 H2 s Hb Hp.
  destruct (H1 s Hb Hp) as (p1 & E1 & Hle1 & Hx1).
  destruct (H2 (with_ptr s p1) Hb ltac:(cbn; lia)) as (p2 & E2 & Hle2 & Hx2).
  cbn [with_ptr buf m_ptr] in Hle2, Hx2. rewrite with_ptr_twice in E2.
  exists p2. split; [|split].
  - now rewrite (bind_ok _ _ _ _ _ E1).
  - lia.
  - intros Hlt. unfold seq_enc in *. lens.
    pose proof (len_nonneg (e1 (m_ptr (buf s)))).
    pose proof (len_nonneg (e2 (m_ptr (buf s) + len (e1 (m_ptr (buf s)))))).
    assert (p1 = m_ptr (buf s) + len (e1 (m_ptr (buf s)))) as -> by (apply Hx1; lia).
    rewrite Z.add_assoc. apply Hx2. lia.
Qed.

Lemma sizing_step_ret : sizing_step (ret tt) (fun _ => []).
Proof.
  intros s Hb Hp. exists (m_ptr (buf s)). split; [|split].
  - destruct s as [[b p e] h l]. reflexivity.
  - lia.
  - intros _. lens. lia.
Qed.

Lemma transfer_step_seq m1 m2 e1 e2 :
  transfer_step m1 e1 -> transfer_step m2 e2 ->
  transfer_step (m1 ;;; m2) (seq_enc e1 e2).
Proof.
  intros H1 H2 s pre rest Hf Hroom. unfold seq_enc in *. lens.
  pose proof (len_nonneg (e2 (len pre + len (e1 (len pre))))) as Hn2.
  destruct (H1 s pre rest Hf ltac:(lia)) as (s1 & rest1 & E1 & Hf1 & Hl1 & Hb1).
  destruct (H2 s1 (pre ++ e1 (len pre)) rest1 Hf1) as (s2 & rest2 & E2 & Hf2 & Hl2 & Hb2).
  { lens. lia. }
  lens. exists s2, rest2. split; [|split; [|split]].
  - now rewrite (bind_ok _ _ _ _ _ E1).
  - now rewrite app_assoc.
  - lia.
  - congruence.
Qed.

Lemma transfer_step_ret : transfer_step (ret tt) (fun _ => []).
Proof.
  intros s pre rest Hf _. exists s, rest. rewrite app_nil_r. lens.
  split; [reflexivity|]. split; [exact Hf|]. split; [lia|reflexivity].
Qed.

Lemma unpack_step_bind {A B} (m : M A) (k : A -> M B) e1 e2 a b :
  unpack_step m e1 a -> unpack_step (k a) e2 b ->
  unpack_step (bind m k) (seq_enc e1 e2) b.
Proof.
  intros H1 H2 s pre post Hf. unfold seq_enc in *.
  rewrite <- app_assoc in Hf.
  destruct (H1 s pre _ Hf) as (s1 & E1 & Hf1 & Hb1).
  destruct (H2 s1 (pre ++ e1 (len pre)) post) as (s2 & E2 & Hf2 & Hb2).
  { lens. exact Hf1. }
  lens. exists s2. split; [|split].
  - now rewrite (bind_ok _ _ _ _ _ E1).
  - now rewrite app_assoc.
  - congruence.
Qed.

Lemma unpack_step_ret {A} (a : A) : unpack_step (ret a) (fun _ => []) a.
Proof.
  intros s pre post Hf. exists s. cbn [app] in Hf. rewrite app_nil_r.
  split; [reflexivity|]. split; [exact Hf|reflexivity].
Qed.

(** Steps only depend on the bytes, not on how they are written down. *)
Lemma sizing_step_ext m e e' :
  (forall o, e o = e' o) -> sizing_step m e -> sizing_step m e'.
Proof.
  intros He H s Hb Hp. destruct (H s Hb Hp) as (p & E & Hle & Hx).
  exists p. rewrite <- He. auto.
Qed.

Lemma transfer_step_ext m e e' :
  (forall o, e o = e' o) -> transfer_step m e -> transfer_step m e'.
Proof.
  intros He H s pre rest Hf Hroom. rewrite <- He in *. now apply H.
Qed.

Lemma unpack_step_ext {A} (m : M A) e e' a :
  (forall o, e o = e' o) -> unpack_step m e a -> unpack_step m e' a.
Proof.
  intros He H s pre post Hf. rewrite <- He in *. now apply H.
Qed.

(** ** One fixed-size value *)

Lemma len_enc_value Size o bs :
  1 <= Size -> len (enc_value Size o bs) = CommBufferAlign Size o + len bs.
Proof.
  intros HS. unfold enc_value. lens.
  pose proof (align_range Size o HS). lia.
Qed.

Lemma no_overflow_check {A} c (e : exn) (k : M A) s :
  c = false -> ((if c then throw e else ret tt) ;;; k) s = k s.
Proof. intros ->. reflexivity. Qed.

Lemma pack_value_sizing Size value :
  1 <= Size < 2 ^ 32 -> len value = Size ->
  sizing_step (pack_value Size value) (fun o => enc_value Size o value).
Proof.
  intros HS Hl s Hb Hp. unfold pack_value, bind at 1, get_buf.
  rewrite Hb. cbn [Z.eqb negb]. rewrite Z.sub_0_r.
  eexists. split; [reflexivity|].
  pose proof (wrap64_bounds (CommBufferAlign Size (wrap64 (m_ptr (buf s))) + Size)).
  split; [lia|]. intros Hlt.
  pose proof (len_nonneg (enc_value Size (m_ptr (buf s)) value)).
  rewrite (wrap64_small (m_ptr (buf s))) in * by lia.
  pose proof (align_range Size (m_ptr (buf s)) ltac:(lia)).
  rewrite wrap64_small in * by lia.
  rewrite len_enc_value by lia. lia.
Qed.

Lemma pack_value_transfer Size value :
  1 <= Size < 2 ^ 32 -> len value = Size ->
  transfer_step (pack_value Size value) (fun o => enc_value Size o value).
Proof.
  intros HS Hl s pre rest Hf Hroom.
  pose proof Hf as (Hb & Hbase & Hbytes & Hptr & Hend & Hlt).
  pose proof (len_nonneg pre) as Hpre.
  pose proof (align_range Size (len pre) ltac:(lia)) as Ha.
  rewrite len_enc_value in Hroom by lia.
  unfold pack_value, bind at 1, get_buf.
  apply Z.eqb_neq in Hb. rewrite Hb. cbn [negb]. apply Z.eqb_neq in Hb.
  replace (m_ptr (buf s) - m_beg (buf s)) with (len pre) by lia.
  rewrite wrap64_small by lia.
  rewrite no_overflow_check by (apply Z.ltb_ge; lia).
  destruct (split_at rest (CommBufferAlign Size (len pre)) ltac:(lia))
    as (pad & rest1 & -> & Hpad).
  destruct (zero_fill_at (Z.to_nat (CommBufferAlign Size (len pre))) s pre pad rest1 Hf)
    as (s1 & E1 & Hf1 & Hb1).
  { unfold len in *. lia. }
  rewrite (bind_ok _ _ _ _ _ E1).
  lens.
  destruct (split_at rest1 Size ltac:(lia)) as (old & rest2 & -> & Hold).
  destruct Hf1 as (Hb' & Hbase' & Hbytes' & Hptr' & Hend' & Hlt').
  unfold bind at 1, get_buf.
  erewrite bind_ok; cycle 1.
  { apply (store_at s1 _ old rest2 _ value Hbytes'); lia. }
  unfold set_m_ptr. eexists; exists rest2.
  split; [reflexivity|]. unfold frame, enc_value.
  cbn [buf heap log m_beg m_ptr m_end blk_base blk_bytes]. lens.
  rewrite <- !app_assoc.
  repeat split; try assumption; try lia.
Qed.

Lemma unpack_value_step Size bs :
  1 <= Size -> len bs = Size ->
  unpack_step (unpack_value Size) (fun o => enc_value Size o bs) bs.
Proof.
  intros HS Hl s pre post Hf.
  pose proof Hf as (Hb & Hbase & Hbytes & Hptr & Hend & Hlt).
  pose proof (len_nonneg pre) as Hpre. pose proof (len_nonneg post) as Hpost.
  pose proof (align_range Size (len pre) ltac:(lia)) as Ha.
  unfold unpack_value, bind at 1, get_buf.
  replace (m_ptr (buf s) - m_beg (buf s)) with (len pre) by lia.
  unfold enc_value in *. lens.
  rewrite wrap64_small by lia.
  rewrite <- !app_assoc, app_assoc in Hbytes.
  erewrite bind_ok; cycle 1.
  { eapply (load_at s _ bs post); [exact Hbytes| lens; lia | lia]. }
  unfold bind at 1, set_m_ptr. unfold bind at 1, get_buf.
  cbn [buf heap log m_beg m_ptr m_end].
  rewrite no_overflow_check by (apply Z.ltb_ge; lia).
  eexists. split; [reflexivity|]. unfold frame.
  cbn [buf heap log m_beg m_ptr m_end blk_base blk_bytes]. lens.
  rewrite Hbytes, <- !app_assoc.
  repeat split; try assumption; try lia.
Qed.

(** ** Arrays of fixed-size values *)

Lemma len_concat Size (elems : list (list byte)) :
  Forall (fun e => len e = Size) elems -> len (concat elems) = len elems * Size.
Proof.
  induction 1 as [|e es He _ IH]; [reflexivity|].
  cbn [concat]. lens. lia.
Qed.

Lemma len_enc_array Size o elems :
  1 <= Size -> Forall (fun e => len e = Size) elems ->
  len (enc_array Size o elems) = CommBufferAlign Size o + len elems * Size.
Proof.
  intros HS Hall. unfold enc_array. lens. rewrite (len_concat Size) by assumption.
  pose proof (align_range Size o HS). lia.
Qed.

Lemma copy_out_at Size elems : forall s pre old rest tmp,
  Forall (fun e => len e = Size) elems ->
  blk_bytes (heap s) = pre ++ old ++ rest ->
  tmp = blk_base (heap s) + len pre ->
  len old = len (concat elems) ->
  exists s', copy_out Size tmp elems s = Ok (tmp + len (concat elems)) s' /\
    buf s' = buf s /\ blk_base (heap s') = blk_base (heap s) /\
    blk_bytes (heap s') = pre ++ concat elems ++ rest.
Proof.
  induction elems as [|e es IH]; intros s pre old rest tmp Hall Hbytes Htmp Hold.
  - cbn [concat] in *. lens. apply len_zero_nil in Hold. subst old.
    exists s. cbn [copy_out ret app] in *. rewrite Z.add_0_r. auto.
  - inversion Hall as [|? ? He Hes]; subst.
    cbn [concat] in *. lens.
    pose proof (len_nonneg e). pose proof (len_nonneg (concat es)).
    destruct (split_at old (len e) ltac:(lia)) as (o1 & o2 & -> & Ho1).
    lens. rewrite <- app_assoc in Hbytes.
    cbn [copy_out].
    erewrite bind_ok; cycle 1.
    { apply (store_at s pre o1 (o2 ++ rest) _ e Hbytes); lia. }
    match goal with |- context [copy_out _ _ es ?st] =>
      destruct (IH st (pre ++ e) o2 rest (blk_base (heap s) + len pre + len e))
        as (s' & E & Hbuf & Hbase & Hbytes') end.
    + exact Hes.
    + cbn [heap blk_bytes]. now rewrite <- app_assoc.
    + cbn [heap blk_base]. lens. lia.
    + lia.
    + exists s'. rewrite E. split; [f_equal; lia|].
      cbn [buf heap blk_base] in *. rewrite <- !app_assoc in Hbytes'.
      rewrite <- app_assoc. auto.
Qed.

Lemma copy_in_at Size elems : forall s pre post tmp,
  Forall (fun e => len e = Size) elems ->
  blk_bytes (heap s) = pre ++ concat elems ++ post ->
  tmp = blk_base (heap s) + len pre ->
  exists s', copy_in Size tmp (length elems) s = Ok (tmp + len (concat elems), elems) s' /\
    buf s' = buf s /\ heap s' = heap s.
Proof.
  induction elems as [|e es IH]; intros s pre post tmp Hall Hbytes Htmp.
  - exists s. cbn [copy_in length concat ret]. lens. rewrite Z.add_0_r. auto.
  - inversion Hall as [|? ? He Hes]; subst.
    cbn [concat length copy_in] in *. rewrite <- app_assoc in Hbytes.
    erewrite bind_ok; cycle 1.
    { apply (load_at s pre e (concat es ++ post)); [exact Hbytes|reflexivity|congruence]. }
    destruct (IH (mkState (buf s) (heap s)
                    (log s ++ [MemLoad (blk_base (heap s) + len pre) (len e)]))
                 (pre ++ e) post (blk_base (heap s) + len pre + len e))
        as (s' & E & Hbuf & Hheap).
    + exact Hes.
    + cbn [heap blk_bytes]. now rewrite <- app_assoc.
    + cbn [heap blk_base]. lens. lia.
    + exists s'. rewrite (bind_ok _ _ _ _ _ E). cbn [fst snd ret].
      split; [|auto]. unfold ret. lens. do 2 f_equal. lia.
Qed.

Lemma pack_array_sizing Size elems :
  1 <= Size < 2 ^ 32 -> Forall (fun e => len e = Size) elems ->
  len elems * Size < 2 ^ 63 ->
  sizing_step (pack_array Size elems) (fun o => enc_array Size o elems).
Proof.
  intros HS Hall Hfit s Hb Hp. unfold pack_array, bind at 1, get_buf.
  rewrite Hb. cbn [Z.eqb negb]. rewrite Z.sub_0_r.
  eexists. split; [reflexivity|].
  pose proof (len_nonneg elems) as Hn.
  assert (len elems < 2 ^ 64) by nia.
  rewrite (wrap64_small (len elems)) by lia.
  rewrite (wrap64_small (len elems * Size)) by nia.
  match goal with |- context [wrap64 (?a + _)] =>
    pose proof (wrap64_bounds (a + len elems * Size)) end.
  split; [lia|]. intros Hlt.
  pose proof (len_nonneg (enc_array Size (m_ptr (buf s)) elems)).
  rewrite (wrap64_small (m_ptr (buf s))) in * by lia.
  pose proof (align_range Size (m_ptr (buf s)) ltac:(lia)).
  rewrite wrap64_small in * by nia.
  rewrite len_enc_array by (assumption || lia). lia.
Qed.

Lemma pack_array_transfer Size elems :
  1 <= Size < 2 ^ 32 -> Forall (fun e => len e = Size) elems ->
  len elems * Size < 2 ^ 63 ->
  transfer_step (pack_array Size elems) (fun o => enc_array Size o elems).
Proof.
  intros HS Hall Hfit s pre rest Hf Hroom.
  pose proof Hf as (Hb & Hbase & Hbytes & Hptr & Hend & Hlt).
  pose proof (len_nonneg pre) as Hpre. pose proof (len_nonneg elems) as Hn.
  pose proof (align_range Size (len pre) ltac:(lia)) as Ha.
  rewrite len_enc_array in Hroom by (assumption || lia).
  unfold pack_array, bind at 1, get_buf.
  apply Z.eqb_neq in Hb. rewrite Hb. cbn [negb]. apply Z.eqb_neq in Hb.
  replace (m_ptr (buf s) - m_beg (buf s)) with (len pre) by lia.
  assert (len elems < 2 ^ 64) by nia.
  rewrite (wrap64_small (len pre)) by lia.
  rewrite (wrap64_small (len elems)) by lia.
  rewrite (wrap64_small (len elems * Size)) by nia.
  rewrite no_overflow_check by (apply Z.ltb_ge; lia).
  destruct (split_at rest (CommBufferAlign Size (len pre)) ltac:(lia))
    as (pad & rest1 & -> & Hpad).
  destruct (zero_fill_at (Z.to_nat (CommBufferAlign Size (len pre))) s pre pad rest1 Hf)
    as (s1 & E1 & Hf1 & Hb1).
  { unfold len in *. lia. }
  rewrite (bind_ok _ _ _ _ _ E1).
  lens.
  destruct (split_at rest1 (len elems * Size) ltac:(lia)) as (old & rest2 & -> & Hold).
  destruct Hf1 as (Hb' & Hbase' & Hbytes' & Hptr' & Hend' & Hlt').
  unfold bind at 1, get_buf.
  destruct (copy_out_at Size elems s1 _ old rest2 (m_ptr (buf s1)) Hall Hbytes')
    as (s2 & E2 & Hbuf2 & Hbase2 & Hbytes2).
  { lia. }
  { rewrite (len_concat Size) by assumption. lia. }
  rewrite (bind_ok _ _ _ _ _ E2).
  unfold set_m_ptr. eexists; exists rest2.
  split; [reflexivity|]. unfold frame, enc_array.
  cbn [buf heap log m_beg m_ptr m_end blk_base blk_bytes]. rewrite Hbuf2. lens.
  rewrite (len_concat Size) by assumption.
  rewrite Hbytes2, <- !app_assoc.
  repeat split; try assumption; try lia.
Qed.

Lemma unpack_array_step Size elems :
  1 <= Size -> Forall (fun e => len e = Size) elems -> len elems < 2 ^ 64 ->
  unpack_step (unpack_array Size (len elems)) (fun o => enc_array Size o elems) elems.
Proof.
  intros HS Hall Hfit s pre post Hf.
  pose proof Hf as (Hb & Hbase & Hbytes & Hptr & Hend & Hlt).
  pose proof (len_nonneg pre) as Hpre. pose proof (len_nonneg post) as Hpost.
  pose proof (len_nonneg (concat elems)) as Hc.
  pose proof (align_range Size (len pre) ltac:(lia)) as Ha.
  unfold unpack_array, bind at 1, get_buf.
  replace (m_ptr (buf s) - m_beg (buf s)) with (len pre) by lia.
  unfold enc_array in *. lens.
  rewrite wrap64_small by lia.
  rewrite <- !app_assoc, app_assoc in Hbytes.
  replace (Z.to_nat (len elems)) with (length elems) by (unfold len; lia).
  destruct (copy_in_at Size elems s _ post
              (m_ptr (buf s) + CommBufferAlign Size (len pre)) Hall Hbytes)
    as (s1 & E1 & Hbuf1 & Hheap1).
  { lens. lia. }
  rewrite (bind_ok _ _ _ _ _ E1). cbn [fst snd].
  unfold bind at 1, set_m_ptr. unfold bind at 1, get_buf.
  cbn [buf heap log m_beg m_ptr m_end]. rewrite Hbuf1.
  rewrite no_overflow_check by (apply Z.ltb_ge; lia).
  eexists. split; [reflexivity|]. unfold frame.
  cbn [buf heap log m_beg m_ptr m_end blk_base blk_bytes]. rewrite Hheap1. lens.
  rewrite Hbytes, <- !app_assoc.
  repeat split; try assumption; try lia.
Qed.

(** ** Composite values: the two pack passes *)

Lemma pack_VMap es : pack (VMap es) = (pack_size_t (len es) ;;; pack_entries es).
Proof. reflexivity. Qed.

Lemma pack_VVector l : pack (VVector l) = (pack_unsigned (len l) ;;; pack_items l).
Proof. reflexivity. Qed.

Lemma enc_VMap es o :
  enc (VMap es) o =
  seq_enc (fun o => enc_value 8 o (le_split 8 (wrap64 (len es)))) (enc_entries es) o.
Proof. reflexivity. Qed.

Lemma enc_VVector l o :
  enc (VVector l) o =
  seq_enc (fun o => enc_value 4 o (le_split 4 (wrap32 (len l)))) (enc_items l) o.
Proof. reflexivity. Qed.

Lemma concat_singletons {A} (l : list A) : concat (map (fun c => [c]) l) = l.
Proof. induction l as [|a l IH]; [reflexivity|]. cbn. now rewrite IH. Qed.

Lemma singletons_sized {A} (l : list A) : Forall (fun e => len e = 1) (map (fun c => [c]) l).
Proof. induction l; constructor; auto. Qed.

Lemma len_map {A B} (f : A -> B) l : len (map f l) = len l.
Proof. unfold len. now rewrite length_map. Qed.

Lemma enc_VString cs o :
  enc (VString cs) o =
  seq_enc (fun o => enc_value 8 o (le_split 8 (wrap64 (len cs))))
          (fun o => enc_array 1 o (map (fun c => [c]) cs)) o.
Proof.
  unfold seq_enc, enc_array. cbn [enc]. rewrite align_one. cbn [Z.to_nat repeat app].
  now rewrite concat_singletons.
Qed.

Lemma both_steps_seq m1 m2 e1 e2 :
  both_steps m1 e1 -> both_steps m2 e2 -> both_steps (m1 ;;; m2) (seq_enc e1 e2).
Proof.
  intros [S1 T1] [S2 T2]. split;
    [now apply sizing_step_seq | now apply transfer_step_seq].
Qed.

Lemma both_steps_ext m e e' :
  (forall o, e o = e' o) -> both_steps m e -> both_steps m e'.
Proof.
  intros He [S T]. split;
    [now apply (sizing_step_ext m e) | now apply (transfer_step_ext m e)].
Qed.

Lemma pack_value_both Size value :
  1 <= Size < 2 ^ 32 -> len value = Size ->
  both_steps (pack_value Size value) (fun o => enc_value Size o value).
Proof.
  intros. split; [now apply pack_value_sizing | now apply pack_value_transfer].
Qed.

Lemma pack_array_both Size elems :
  1 <= Size < 2 ^ 32 -> Forall (fun e => len e = Size) elems ->
  len elems * Size < 2 ^ 63 ->
  both_steps (pack_array Size elems) (fun o => enc_array Size o elems).
Proof.
  intros. split; [now apply pack_array_sizing | now apply pack_array_transfer].
Qed.

Section Pack.

Variable key_lt : value -> value -> bool.
Variable max_items : Z.

Lemma pack_items_both K l :
  (forall v, payload key_lt max_items K v -> both_steps (pack v) (enc v)) ->
  Forall (payload key_lt max_items K) l ->
  both_steps (pack_items l) (enc_items l).
Proof.
  intros IH. induction 1 as [|x l Hx _ IHl].
  - split; [apply sizing_step_ret | apply transfer_step_ret].
  - cbn [pack_items]. apply (both_steps_seq _ _ _ _ (IH x Hx) IHl).
Qed.

Lemma pack_entries_both K V es :
  (forall v, payload key_lt max_items K v -> both_steps (pack v) (enc v)) ->
  (forall v, payload key_lt max_items V v -> both_steps (pack v) (enc v)) ->
  Forall (fun e => payload key_lt max_items K (fst e) /\
                   payload key_lt max_items V (snd e)) es ->
  both_steps (pack_entries es) (enc_entries es).
Proof.
  intros IHK IHV. induction 1 as [|[k x] es [Hk Hx] _ IHes].
  - split; [apply sizing_step_ret | apply transfer_step_ret].
  - cbn [pack_entries fst snd] in *.
    eapply both_steps_ext;
      [|exact (both_steps_seq _ _ _ _ (IHK k Hk)
                 (both_steps_seq _ _ _ _ (IHV x Hx) IHes))].
    intros o. reflexivity.
Qed.

(** In either mode a pack of a supported value behaves as [enc] says. *)
Lemma pack_both t : forall v,
  payload key_lt max_items t v -> both_steps (pack v) (enc v).
Proof.
  induction t as [Size| |a IHa b IHb|K IHK V IHV|K IHK]; intros [bs|cs|x y|es|l] Hv;
    cbn [payload] in Hv; try contradiction.
  - destruct Hv as [HS Hl]. cbn [pack enc]. rewrite Hl. now apply pack_value_both.
  - cbn [pack]. eapply both_steps_ext; [intros o; symmetry; apply enc_VString|].
    apply both_steps_seq.
    + apply pack_value_both; [lia|apply len_le_split].
    + apply pack_array_both; [lia|apply singletons_sized|rewrite len_map; lia].
  - destruct Hv as [Hx Hy]. cbn [pack].
    exact (both_steps_seq _ _ _ _ (IHa x Hx) (IHb y Hy)).
  - destruct Hv as (Hn & Hall & _). rewrite pack_VMap.
    eapply both_steps_ext; [intros o; symmetry; apply enc_VMap|].
    apply both_steps_seq.
    + apply pack_value_both; [lia|apply len_le_split].
    + now apply (pack_entries_both K V).
  - destruct Hv as (Hn & Hall). rewrite pack_VVector.
    eapply both_steps_ext; [intros o; symmetry; apply enc_VVector|].
    apply both_steps_seq.
    + apply pack_value_both; [lia|apply len_le_split].
    + now apply (pack_items_both K).
Qed.

End Pack.

(** ** Composite values: unpack *)

Lemma seq_enc_nil_r e o : seq_enc e (fun _ => []) o = e o.
Proof. unfold seq_enc. apply app_nil_r. Qed.

Lemma unpack_step_map {A B} (m : M A) (f : A -> B) e a :
  unpack_step m e a -> unpack_step (x <- m ;; ret (f x)) e (f a).
Proof.
  intros H. eapply unpack_step_ext; [apply seq_enc_nil_r|].
  eapply unpack_step_bind; [exact H|apply unpack_step_ret].
Qed.

Lemma unpack_size_t_step n :
  0 <= n < 2 ^ 64 ->
  unpack_step unpack_size_t (fun o => enc_value 8 o (le_split 8 (wrap64 n))) n.
Proof.
  intros Hn. unfold unpack_size_t.
  pose proof (unpack_step_map (unpack_value 8) le_combine _ _
                (unpack_value_step 8 (le_split 8 (wrap64 n)) ltac:(lia)
                   (len_le_split _ _))) as H.
  rewrite le_combine_split, wrap64_small in H by lia.
  rewrite Z.mod_small in H by lia. rewrite wrap64_small by lia. exact H.
Qed.

Lemma unpack_unsigned_step n :
  0 <= n < 2 ^ 32 ->
  unpack_step unpack_unsigned (fun o => enc_value 4 o (le_split 4 (wrap32 n))) n.
Proof.
  intros Hn. unfold unpack_unsigned.
  pose proof (unpack_step_map (unpack_value 4) le_combine _ _
                (unpack_value_step 4 (le_split 4 (wrap32 n)) ltac:(lia)
                   (len_le_split _ _))) as H.
  unfold wrap32 in H. rewrite le_combine_split in H.
  rewrite !Z.mod_small in H by lia. unfold wrap32. rewrite Z.mod_small by lia.
  exact H.
Qed.

Section Unpacking.

Variable key_lt : value -> value -> bool.
Hypothesis key_lt_asym : forall a b, key_lt a b = true -> key_lt b a = false.

Lemma map_assign_last k x m :
  Forall (fun e => key_before key_lt e (k, x)) m ->
  map_assign key_lt k x m = m ++ [(k, x)].
Proof.
  induction 1 as [|[k' x'] m Hk _ IH]; [reflexivity|].
  unfold key_before in Hk. cbn [fst] in Hk. cbn [map_assign app].
  now rewrite (key_lt_asym _ _ Hk), Hk, IH.
Qed.

Lemma sorted_prefix_before (R : value * value -> value * value -> Prop) m e es :
  StronglySorted R (m ++ e :: es) -> Forall (fun a => R a e) m.
Proof.
  induction m as [|a m IH]; intros H; [constructor|].
  cbn [app] in H. inversion H as [|? ? Hs Hall]; subst. constructor.
  - rewrite Forall_app in Hall. destruct Hall as [_ Hall].
    now inversion Hall.
  - now apply IH.
Qed.

(** Re-inserting the entries of a map in key order rebuilds the map. *)
Lemma map_rebuild es : forall m,
  StronglySorted (key_before key_lt) (m ++ es) ->
  fold_left (fun m e => map_assign key_lt (fst e) (snd e) m) es m = m ++ es.
Proof.
  induction es as [|[k x] es IH]; intros m Hs.
  - cbn. now rewrite app_nil_r.
  - cbn [fold_left fst snd].
    rewrite map_assign_last by (eapply sorted_prefix_before; exact Hs).
    rewrite IH; rewrite <- app_assoc; [reflexivity|exact Hs].
Qed.

Variable max_items : Z.

Lemma unpack_items_step K l : forall done,
  (forall v, payload key_lt max_items K v -> unpack_step (unpack key_lt K) (enc v) v) ->
  Forall (payload key_lt max_items K) l ->
  unpack_step (unpack_items key_lt K (length l) done) (enc_items l) (VVector (done ++ l)).
Proof.
  intros done IH Hall. revert done.
  induction Hall as [|x l Hx _ IHl]; intros done.
  - cbn [length enc_items]. rewrite app_nil_r. apply unpack_step_ret.
  - cbn [length]. change (unpack_items key_lt K (S (length l)) done)
      with (val <- unpack key_lt K ;; unpack_items key_lt K (length l) (done ++ [val])).
    replace (done ++ x :: l) with ((done ++ [x]) ++ l) by now rewrite <- app_assoc.
    exact (unpack_step_bind _ _ _ _ _ _ (IH x Hx) (IHl (done ++ [x]))).
Qed.

Lemma unpack_entries_step K V es : forall m,
  (forall v, payload key_lt max_items K v -> unpack_step (unpack key_lt K) (enc v) v) ->
  (forall v, payload key_lt max_items V v -> unpack_step (unpack key_lt V) (enc v) v) ->
  Forall (fun e => payload key_lt max_items K (fst e) /\
                   payload key_lt max_items V (snd e)) es ->
  unpack_step (unpack_entries key_lt K V (length es) m) (enc_entries es)
    (VMap (fold_left (fun m e => map_assign key_lt (fst e) (snd e) m) es m)).
Proof.
  intros m IHK IHV Hall. revert m.
  induction Hall as [|[k x] es [Hk Hx] _ IHes]; intros m.
  - cbn [length enc_entries fold_left]. apply unpack_step_ret.
  - cbn [length fold_left fst snd] in *.
    change (unpack_entries key_lt K V (S (length es)) m)
      with (key <- unpack key_lt K ;; val <- unpack key_lt V ;;
            unpack_entries key_lt K V (length es) (map_assign key_lt key val m)).
    eapply unpack_step_ext;
      [|exact (unpack_step_bind _ _ _ _ _ _ (IHK k Hk)
                 (unpack_step_bind _ _ _ _ _ _ (IHV x Hx)
                    (IHes (map_assign key_lt k x m))))].
    intros o. reflexivity.
Qed.

Lemma unpack_TMap K V :
  unpack key_lt (TMap K V) =
  (ns <- unpack_size_t ;; unpack_entries key_lt K V (Z.to_nat ns) []).
Proof. reflexivity. Qed.

Lemma unpack_TVector K :
  unpack key_lt (TVector K) =
  (num_items <- unpack_unsigned ;; unpack_items key_lt K (Z.to_nat num_items) []).
Proof. reflexivity. Qed.

End Unpacking.

(** Unpacking the serialised form of a supported value whose vectors hold
    fewer than [2^32] items returns the value. *)
Lemma unpack_enc key_lt :
  (forall a b, key_lt a b = true -> key_lt b a = false) ->
  forall t v, payload key_lt (2 ^ 32) t v -> unpack_step (unpack key_lt t) (enc v) v.
Proof.
  intros Hasym.
  induction t as [Size| |a IHa b IHb|K IHK V IHV|K IHK]; intros [bs|cs|x y|es|l] Hv;
    cbn [payload] in Hv; try contradiction.
  - destruct Hv as [HS Hl]. cbn [unpack enc]. rewrite Hl.
    apply (unpack_step_map _ VFixed), unpack_value_step; lia.
  - cbn [unpack]. pose proof (len_nonneg cs).
    eapply unpack_step_ext; [intros o; symmetry; apply enc_VString|].
    eapply unpack_step_bind; [apply unpack_size_t_step; lia|].
    pose proof (unpack_step_map _ (fun chars => VString (concat chars)) _ _
                  (unpack_array_step 1 (map (fun c => [c]) cs) ltac:(lia)
                     (singletons_sized cs) ltac:(rewrite len_map; lia))) as H1.
    rewrite len_map, concat_singletons in H1. exact H1.
  - destruct Hv as [Hx Hy]. cbn [unpack].
    eapply unpack_step_ext; [|exact (unpack_step_bind _ _ _ _ _ _ (IHa x Hx)
                    (unpack_step_map _ (fun y => VPair x y) _ _ (IHb y Hy)))].
    intros o. reflexivity.
  - destruct Hv as (Hn & Hall & Hs). rewrite unpack_TMap. pose proof (len_nonneg es).
    eapply unpack_step_ext; [intros o; symmetry; apply enc_VMap|].
    eapply unpack_step_bind; [apply unpack_size_t_step; lia|].
    replace (Z.to_nat (len es)) with (length es) by (unfold len; lia).
    pose proof (unpack_entries_step key_lt (2 ^ 32) K V es [] IHK IHV Hall) as H1.
    rewrite (map_rebuild key_lt Hasym es [] Hs) in H1. exact H1.
  - destruct Hv as (Hn & Hall). rewrite unpack_TVector. pose proof (len_nonneg l).
    eapply unpack_step_ext; [intros o; symmetry; apply enc_VVector|].
    eapply unpack_step_bind; [apply unpack_unsigned_step; lia|].
    replace (Z.to_nat (len l)) with (length l) by (unfold len; lia).
    now apply (unpack_items_step key_lt (2 ^ 32) K l []).
Qed.

(** ** The claims about the buffer *)

Lemma frame_attached base storage :
  0 < base -> len storage < 2 ^ 64 -> frame (attached base storage) [] storage.
Proof.
  intros Hb Hl. unfold frame, attached, set_buffer_ptrs.
  cbn [buf heap m_beg m_ptr m_end blk_base blk_bytes app]. lens.
  repeat split; lia.
Qed.

Lemma size_framed s pre rest : frame s pre rest -> size (buf s) = len pre.
Proof.
  intros (Hb & Hbase & Hbytes & Hptr & Hend & Hlt). unfold size.
  pose proof (len_nonneg pre). pose proof (len_nonneg rest).
  rewrite Hptr. replace (m_beg (buf s) + len pre - m_beg (buf s)) with (len pre) by lia.
  apply wrap64_small. lia.
Qed.

Lemma reset_frame s pre rest :
  frame s pre rest ->
  exists s', reset s = Ok tt s' /\ frame s' [] (pre ++ rest) /\
    m_beg (buf s') = m_beg (buf s).
Proof.
  intros (Hb & Hbase & Hbytes & Hptr & Hend & Hlt). eexists. split; [reflexivity|].
  unfold frame. cbn [buf heap m_beg m_ptr m_end app]. lens.
  repeat split; try assumption; lia.
Qed.

Lemma sizing_fresh m e :
  sizing_step m e ->
  exists p, m fresh = Ok tt (with_ptr fresh p) /\ 0 <= p /\
    (p < 2 ^ 64 \/ len (e 0) < 2 ^ 64 -> p = len (e 0)).
Proof.
  intros H. destruct (H fresh eq_refl ltac:(cbn; lia)) as (p & E & Hle & Hx).
  exists p. cbn [fresh buf m_ptr CommBuffer_new] in *. repeat split; auto.
Qed.

(** A sizing pass followed by a transfer pass into storage of the size
    found fills the storage with the serialised form. *)
Lemma two_pass key_lt max_items t v base alloc :
  payload key_lt max_items t v ->
  0 < base ->
  (forall n, 0 <= n -> len (alloc n) = n) ->
  len (enc v 0) < 2 ^ 64 ->
  exists s1 s2,
    pack v fresh = Ok tt s1 /\ size (buf s1) = len (enc v 0) /\
    pack v (attached base (alloc (size (buf s1)))) = Ok tt s2 /\
    frame s2 (enc v 0) [].
Proof.
  intros Hv Hbase Halloc Hfit.
  destruct (pack_both key_lt _ t v Hv) as [HS HT].
  destruct (sizing_fresh _ _ HS) as (p & E1 & Hp & Hx).
  rewrite Hx in * by lia. clear Hx.
  pose proof (len_nonneg (enc v 0)) as Hn.
  assert (Hsz : size (buf (with_ptr fresh (len (enc v 0)))) = len (enc v 0)).
  { unfold size. cbn. rewrite Z.sub_0_r. now apply wrap64_small. }
  exists (with_ptr fresh (len (enc v 0))). rewrite Hsz.
  destruct (HT (attached base (alloc (len (enc v 0)))) [] (alloc (len (enc v 0))))
    as (s2 & rest & E2 & Hf2 & Hl2 & Hb2).
  { apply frame_attached; [lia|]. rewrite Halloc; lia. }
  { lens. rewrite Halloc; lia. }
  lens. cbn [app] in Hf2. rewrite Halloc in Hl2 by lia.
  assert (rest = []) as -> by (apply len_zero_nil; lia).
  exists s2. auto.
Qed.

Lemma final_cursor_fits key_lt max_items t v :
  payload key_lt max_items t v ->
  final_cursor (pack v fresh) < 2 ^ 64 -> len (enc v 0) < 2 ^ 64.
Proof.
  intros Hv Hfit. destruct (pack_both key_lt _ t v Hv) as [HS _].
  destruct (sizing_fresh _ _ HS) as (p & E1 & Hp & Hx).
  rewrite E1 in Hfit. cbn in Hfit. rewrite <- Hx; lia.
Qed.

(** C1, as amended: for every supported payload value whose vectors hold
    fewer than 2^32 items (the width of the count [pack] writes for a
    vector), a sizing pass, a transfer pass into storage allocated to
    exactly the size found, [reset()] and [unpack] return the value. *)
Theorem round_trip_law key_lt t v base alloc :
  (forall a b, key_lt a b = true -> key_lt b a = false) ->
  payload key_lt (2 ^ 32) t v ->
  0 < base ->
  (forall n, 0 <= n -> len (alloc n) = n) ->
  final_cursor (pack v fresh) < 2 ^ 64 ->
  exists s', round_trip key_lt t v base alloc = Ok v s'.
Proof.
  intros Hasym Hv Hbase Halloc Hfit.
  pose proof (final_cursor_fits _ _ _ _ Hv Hfit) as Hfit'.
  destruct (two_pass _ _ _ _ _ _ Hv Hbase Halloc Hfit')
    as (s1 & s2 & E1 & Hsz & E2 & Hf2).
  unfold round_trip. rewrite E1, (bind_ok _ _ _ _ _ E2).
  destruct (reset_frame _ _ _ Hf2) as (s3 & E3 & Hf3 & _).
  rewrite (bind_ok _ _ _ _ _ E3).
  destruct (unpack_enc key_lt Hasym t v Hv s3 [] []) as (s4 & E4 & _); [exact Hf3|].
  now exists s4.
Qed.

Lemma unsigned_lt_asym a b : unsigned_lt a b = true -> unsigned_lt b a = false.
Proof.
  destruct a, b; cbn; try discriminate. intros H.
  apply Z.ltb_lt in H. apply Z.ltb_ge. lia.
Qed.

Lemma len_calloc n : 0 <= n -> len (calloc n) = n.
Proof. intros H. unfold calloc. rewrite len_repeat. lia. Qed.

(** A pair of a string and a map from 32-bit keys to vectors of bytes. *)
Lemma round_trip_law_witness :
  exists s',
    round_trip unsigned_lt
      (TPair TString (TMap (TFixed 4) (TVector (TFixed 1))))
      (VPair (VString [Byte.x68; Byte.x69])
             (VMap [(VFixed (le_split 4 1), VVector [VFixed [Byte.x07]]);
                    (VFixed (le_split 4 2), VVector [])]))
      4096 calloc
    = Ok (VPair (VString [Byte.x68; Byte.x69])
                (VMap [(VFixed (le_split 4 1), VVector [VFixed [Byte.x07]]);
                       (VFixed (le_split 4 2), VVector [])])) s'.
Proof.
  apply round_trip_law.
  - exact unsigned_lt_asym.
  - cbn. repeat (split || constructor); try lia; reflexivity.
  - lia.
  - exact len_calloc.
  - vm_compute. reflexivity.
Defined.

(** *** A vector whose size does not fit the 32-bit count *)

Lemma enc_items_bytes x n : forall o, enc_items (repeat (VFixed [x]) n) o = repeat x n.
Proof.
  induction n as [|n IH]; intros o; [reflexivity|].
  cbn [repeat enc_items enc]. unfold enc_value.
  change (len [x]) with 1. rewrite align_one. cbn [Z.to_nat repeat app].
  now rewrite IH.
Qed.

Lemma unpack_empty_vector key_lt K :
  unpack_step (unpack key_lt (TVector K))
    (fun o => enc_value 4 o (le_split 4 (wrap32 0))) (VVector []).
Proof.
  rewrite unpack_TVector.
  eapply unpack_step_ext; [apply seq_enc_nil_r|].
  eapply unpack_step_bind; [apply unpack_unsigned_step; lia|].
  apply unpack_step_ret.
Qed.

(** With a multiple of [2^32] items the count written is 0, and the read-back
    is the empty vector. *)
Lemma count_wraps n base alloc :
  Z.of_nat n = 2 ^ 32 ->
  0 < base ->
  (forall n, 0 <= n -> len (alloc n) = n) ->
  payload unsigned_lt (2 ^ 64) (TVector (TFixed 1)) (VVector (repeat (VFixed [Byte.x00]) n)) /\
  exists s',
    round_trip unsigned_lt (TVector (TFixed 1)) (VVector (repeat (VFixed [Byte.x00]) n))
      base alloc = Ok (VVector []) s'.
Proof.
  intros Hn Hbase Halloc.
  assert (Hv : payload unsigned_lt (2 ^ 64) (TVector (TFixed 1))
                 (VVector (repeat (VFixed [Byte.x00]) n))).
  { cbn [payload]. rewrite len_repeat, Hn. split; [lia|].
    apply Forall_forall. intros x Hx. apply repeat_spec in Hx. subst x.
    cbn [payload]. split; [lia|reflexivity]. }
  split; [exact Hv|].
  assert (Henc : enc (VVector (repeat (VFixed [Byte.x00]) n)) 0 =
                 enc_value 4 0 (le_split 4 (wrap32 0)) ++ repeat Byte.x00 n).
  { rewrite enc_VVector. unfold seq_enc. rewrite enc_items_bytes, len_repeat, Hn.
    reflexivity. }
  destruct (two_pass _ _ _ _ base alloc Hv Hbase Halloc) as (s1 & s2 & E1 & Hsz & E2 & Hf2).
  { rewrite Henc. lens. rewrite len_enc_value by lia. lens.
    change (CommBufferAlign 4 0) with 0. lia. }
  unfold round_trip. rewrite E1, (bind_ok _ _ _ _ _ E2).
  destruct (reset_frame _ _ _ Hf2) as (s3 & E3 & Hf3 & _).
  rewrite (bind_ok _ _ _ _ _ E3).
  rewrite Henc, <- app_assoc in Hf3.
  destruct (unpack_empty_vector unsigned_lt (TFixed 1) s3 [] _ Hf3) as (s4 & E4 & _).
  now exists s4.
Qed.

(** C1, refuted as stated: a vector of 2^32 one-byte items is a supported
    payload value, and its round trip returns the empty vector. *)
Lemma long_vector_round_trip :
  payload unsigned_lt (2 ^ 64) (TVector (TFixed 1)) long_vector /\
  (exists s',
     round_trip unsigned_lt (TVector (TFixed 1)) long_vector 4096 calloc
     = Ok (VVector []) s') /\
  VVector [] <> long_vector.
Proof.
  assert (Hn : Z.of_nat (Z.to_nat (2 ^ 32)) = 2 ^ 32) by (apply Z2Nat.id; lia).
  destruct (count_wraps (Z.to_nat (2 ^ 32)) 4096 calloc Hn ltac:(lia) len_calloc)
    as [Hv Hrt].
  split; [exact Hv|]. split; [exact Hrt|].
  unfold long_vector. intros H.
  apply (f_equal (fun v => match v with VVector l => len l | _ => 0 end)) in H.
  rewrite len_repeat, Hn in H. discriminate H.
Qed.

(** *** Sizing and transfer passes over a sequence of calls *)

Lemma run_calls_both key_lt cs :
  Forall (call_ok key_lt) cs -> both_steps (run_calls cs) (enc_calls cs).
Proof.
  induction 1 as [|c cs Hc _ IH].
  - split; [apply sizing_step_ret | apply transfer_step_ret].
  - cbn [run_calls]. eapply both_steps_ext; [|eapply both_steps_seq; [|exact IH]].
    + intros o. reflexivity.
    + destruct c as [t v|Size elems]; cbn [call_ok run_call enc_call] in *.
      * eapply pack_both; exact Hc.
      * destruct Hc as (HS & Hall & Hfit). now apply pack_array_both.
Qed.

(** C2: for every sequence of pack calls, the sizing run on a fresh buffer
    returns having accessed no memory, the transfer run on a buffer backed by
    storage at least as large as the sizing run found returns as well, and
    both end with the same [size()]. *)
Theorem sizing_transfer_equivalence key_lt cs base storage :
  Forall (call_ok key_lt) cs ->
  0 < base ->
  len storage < 2 ^ 64 ->
  final_cursor (sizing_run cs) <= len storage ->
  exists s1 s2,
    sizing_run cs = Ok tt s1 /\ log s1 = [] /\ heap s1 = no_heap /\
    transfer_run cs base storage = Ok tt s2 /\
    size (buf s1) = size (buf s2).
Proof.
  intros Hok Hbase Hlen Hcap.
  destruct (run_calls_both key_lt cs Hok) as [HS HT].
  destruct (sizing_fresh _ _ HS) as (p & E1 & Hp & Hx).
  unfold sizing_run, transfer_run in *. rewrite E1 in *.
  cbn [final_cursor with_ptr buf m_ptr] in Hcap.
  rewrite Hx in * by lia. clear Hx.
  destruct (HT (attached base storage) [] storage (frame_attached _ _ Hbase Hlen))
    as (s2 & rest & E2 & Hf2 & Hl2 & Hb2).
  { lens. lia. }
  exists (with_ptr fresh (len (enc_calls cs 0))), s2.
  repeat split; try reflexivity; try assumption.
  rewrite (size_framed _ _ _ Hf2). lens. unfold size. cbn. rewrite Z.sub_0_r.
  apply wrap64_small. lia.
Qed.

(** A [pack<int>], a [pack] of a string and a [pack] of an array of three
    2-byte items, into 64 bytes of storage. *)
Lemma sizing_transfer_equivalence_witness :
  exists s1 s2,
    sizing_run [PackValue (TFixed 4) (VFixed (le_split 4 7));
                PackValue TString (VString [Byte.x61]);
                PackArray 2 [le_split 2 1; le_split 2 2; le_split 2 3]]
      = Ok tt s1 /\ log s1 = [] /\ heap s1 = no_heap /\
    transfer_run [PackValue (TFixed 4) (VFixed (le_split 4 7));
                  PackValue TString (VString [Byte.x61]);
                  PackArray 2 [le_split 2 1; le_split 2 2; le_split 2 3]]
      4096 (calloc 64) = Ok tt s2 /\
    size (buf s1) = size (buf s2).
Proof.
  apply (sizing_transfer_equivalence unsigned_lt).
  - repeat constructor; cbn; lia.
  - lia.
  - vm_compute. reflexivity.
  - vm_compute. discriminate.
Defined.

(** *** Alignment *)

(** C7, as amended: a pack of a fixed-size value of any size [Size >= 1] --
    a power of two or not -- advances the cursor by the pad and [Size]
    bytes, where the pad is below [Size] and puts the value at an offset that
    is a multiple of [Size]; for [Size = 1] there is no pad.  This holds on an
    unbacked buffer whose count stays below [2^64], and on a backed buffer
    with room for pad and value, an exact fit included. *)
Theorem pack_value_aligned Size value s :
  1 <= Size < 2 ^ 32 ->
  len value = Size ->
  (m_beg (buf s) = 0 /\ 0 <= m_ptr (buf s) /\
   m_ptr (buf s) + CommBufferAlign Size (m_ptr (buf s)) + Size < 2 ^ 64) \/
  (exists pre rest, frame s pre rest /\
     CommBufferAlign Size (len pre) + Size <= len rest) ->
  exists s',
    pack_value Size value s = Ok tt s' /\
    size (buf s) <= size (buf s') - Size < size (buf s) + Size /\
    (size (buf s') - Size) mod Size = 0 /\
    (Size = 1 -> size (buf s') - Size = size (buf s)).
Proof.
  intros HS Hl Hmode.
  destruct (pack_value_both Size value HS Hl) as [Hsz Htr].
  assert (Hgoal : forall o n, 0 <= o -> n = o + len (enc_value Size o value) ->
            o <= n - Size < o + Size /\ (n - Size) mod Size = 0 /\
            (Size = 1 -> n - Size = o)).
  { intros o n Ho ->. rewrite len_enc_value by lia.
    pose proof (align_range Size o ltac:(lia)).
    pose proof (align_multiple Size o ltac:(lia)).
    replace (o + (CommBufferAlign Size o + len value) - Size) with (o + CommBufferAlign Size o) by lia.
    repeat split; lia. }
  destruct Hmode as [(Hb & Hp & Hfit)|(pre & rest & Hf & Hroom)].
  - destruct (Hsz s Hb Hp) as (p & E & Hle & Hx).
    pose proof (align_range Size (m_ptr (buf s)) ltac:(lia)).
    rewrite len_enc_value in Hx by lia.
    exists (with_ptr s p). split; [exact E|].
    unfold size. cbn [with_ptr buf m_ptr m_beg]. rewrite Hb, !Z.sub_0_r.
    rewrite !wrap64_small by lia.
    apply Hgoal; [lia|]. rewrite len_enc_value by lia. apply Hx. lia.
  - pose proof (align_range Size (len pre) ltac:(lia)).
    pose proof (len_nonneg pre).
    destruct (Htr s pre rest Hf) as (s' & rest' & E & Hf' & Hl' & Hb').
    { rewrite len_enc_value by lia. lia. }
    exists s'. split; [exact E|].
    rewrite (size_framed _ _ _ Hf), (size_framed _ _ _ Hf'). lens.
    now apply Hgoal.
Qed.

(** A 3-byte value packed at offset 1 of 6 bytes of storage: the two pad
    bytes and the value fill the storage exactly. *)
Lemma pack_value_aligned_witness :
  exists s',
    pack_value 3 [Byte.x01; Byte.x02; Byte.x03]
      (with_ptr (attached 4096 (calloc 6)) 4097) = Ok tt s' /\
    size (buf (with_ptr (attached 4096 (calloc 6)) 4097)) <= size (buf s') - 3
      < size (buf (with_ptr (attached 4096 (calloc 6)) 4097)) + 3 /\
    (size (buf s') - 3) mod 3 = 0 /\
    (3 = 1 -> size (buf s') - 3 = size (buf (with_ptr (attached 4096 (calloc 6)) 4097))).
Proof.
  apply pack_value_aligned.
  - lia.
  - reflexivity.
  - right. exists (calloc 1), (calloc 5). split.
    + unfold frame. vm_compute. repeat split; discriminate.
    + vm_compute. discriminate.
Defined.

(** C7, refuted as stated: after a 1-byte value, a pack of a 3-byte value
    moves the cursor from 1 to 6 -- two pad bytes and the value -- not by
    3. *)
Lemma three_byte_value_is_padded :
  exists s1 s2,
    pack_value 1 [Byte.x2a] fresh = Ok tt s1 /\
    pack_value 3 [Byte.x01; Byte.x02; Byte.x03] s1 = Ok tt s2 /\
    size (buf s1) = 1 /\ size (buf s2) = 6 /\
    size (buf s2) - size (buf s1) <> 3.
Proof.
  exists (with_ptr fresh 1), (with_ptr fresh 6).
  repeat split; try (vm_compute; reflexivity). vm_compute. discriminate.
Qed.

(** The same in transfer mode: the two pad bytes are written as zeros. *)
Lemma three_byte_value_is_padded_in_storage :
  exists s,
    (pack_value 1 [Byte.x2a] ;;; pack_value 3 [Byte.x01; Byte.x02; Byte.x03])
      (attached 4096 (calloc 8)) = Ok tt s /\
    firstn 6 (blk_bytes (heap s)) =
      [Byte.x2a; Byte.x00; Byte.x00; Byte.x01; Byte.x02; Byte.x03].
Proof.
  destruct ((pack_value 1 [Byte.x2a] ;;; pack_value 3 [Byte.x01; Byte.x02; Byte.x03])
              (attached 4096 (calloc 8))) as [[] s|e s|s] eqn:E;
    vm_compute in E; try discriminate E.
  exists s. split; [reflexivity|]. injection E as <-. reflexivity.
Qed.

(** *** Writes and the bounds test *)

(** On a backed buffer without room for pad and value, [pack] signals the
    overflow and leaves buffer, memory and access log as they were. *)
Theorem pack_overflow_before_write Size value s :
  m_beg (buf s) <> 0 ->
  m_end (buf s) < m_ptr (buf s) + CommBufferAlign Size (size (buf s)) + Size ->
  pack_value Size value s = Throw pack_overflow s.
Proof.
  intros Hb Hroom. unfold pack_value, bind at 1, get_buf.
  apply Z.eqb_neq in Hb. rewrite Hb. cbn [negb].
  unfold size in Hroom. apply Z.ltb_lt in Hroom. unfold bind at 1. now rewrite Hroom.
Qed.

Lemma pack_overflow_before_write_witness :
  pack_value 8 (le_split 8 0) short_buffer = Throw pack_overflow short_buffer.
Proof. apply pack_overflow_before_write; vm_compute; [discriminate|reflexivity]. Defined.

(** *** Reads and the bounds test *)

(** Whatever the bounds, [unpack] of a fixed-size value first loads the
    value from memory. *)
Lemma unpack_value_loads_first Size s :
  exists s',
    (unpack_value Size s = Undef s' \/
     unpack_value Size s = Throw unpack_overflow s' \/
     exists bs, unpack_value Size s = Ok bs s') /\
    log s' = log s ++ [MemLoad (m_ptr (buf s)
                                + CommBufferAlign Size (wrap64 (m_ptr (buf s) - m_beg (buf s))))
                               Size].
Proof.
  unfold unpack_value, bind, get_buf, load, set_m_ptr, throw, ret.
  destruct (in_block _ _ _); [|eexists; split; [left; reflexivity|reflexivity]].
  cbn [buf heap log m_end m_ptr].
  destruct (_ <? _); eexists; (split; [eauto|reflexivity]).
Qed.

(** C3: on a 4-byte buffer, [unpack] of an 8-byte value has loaded the 8
    bytes at the cursor -- 4 of them past [end] -- when it signals the
    overflow; when the block ends with the buffer the load itself is out of
    bounds; [unpack] of an array reads every element first; [pack] in the same
    situation signals the overflow with no access made. *)
Lemma unpack_reads_before_bounds_check :
  unpack_value 8 short_buffer
  = Throw unpack_overflow
      (mkState (mkCommBuffer 4096 4104 4100) (mkHeap 4096 (calloc 16))
               [MemLoad 4096 8]) /\
  unpack_value 8 (attached 4096 (calloc 4))
  = Undef (mkState (mkCommBuffer 4096 4096 4100) (mkHeap 4096 (calloc 4))
                   [MemLoad 4096 8]) /\
  unpack_array 4 2 short_buffer
  = Throw unpack_overflow
      (mkState (mkCommBuffer 4096 4104 4100) (mkHeap 4096 (calloc 16))
               [MemLoad 4096 4; MemLoad 4100 4]) /\
  pack_value 8 (le_split 8 0) short_buffer = Throw pack_overflow short_buffer.
Proof. repeat split; vm_compute; reflexivity. Qed.

(** *** set_size *)

(** C10: after [set_size(n)] the buffer is unbacked: [buffer()] is null,
    [capacity()] is 0 and [size()] is [n], whatever was attached before. *)
Theorem set_size_unbacked n b :
  0 <= n < 2 ^ 64 ->
  buffer (set_size n b) = 0 /\ capacity (set_size n b) = 0 /\ size (set_size n b) = n.
Proof.
  intros Hn. unfold buffer, capacity, size, set_size. cbn [m_beg m_ptr m_end].
  split; [reflexivity|]. split; [reflexivity|].
  rewrite Z.add_0_l, Z.sub_0_r. now apply wrap64_small.
Qed.

Lemma set_size_unbacked_witness :
  buffer (set_size 24 in_use) = 0 /\ capacity (set_size 24 in_use) = 0 /\
  size (set_size 24 in_use) = 24.
Proof. apply set_size_unbacked. lia. Defined.

(** ** Supplements: storage that is too small, or exactly right *)

Lemma overflow_check {A} c (e : exn) (k : M A) s :
  c = true -> ((if c then throw e else ret tt) ;;; k) s = Throw e s.
Proof. intros ->. reflexivity. Qed.

Lemma pack_value_overflows Size value :
  1 <= Size < 2 ^ 32 -> len value = Size ->
  overflow_step (pack_value Size value) (fun o => enc_value Size o value).
Proof.
  intros HS Hl s pre rest (Hb & Hbase & Hbytes & Hptr & Hend & Hlt) Hroom.
  pose proof (len_nonneg pre) as Hpre.
  rewrite len_enc_value in Hroom by lia.
  unfold pack_value, bind at 1, get_buf.
  apply Z.eqb_neq in Hb. rewrite Hb. cbn [negb].
  replace (m_ptr (buf s) - m_beg (buf s)) with (len pre) by lia.
  pose proof (len_nonneg rest).
  rewrite wrap64_small by lia.
  rewrite overflow_check by (apply Z.ltb_lt; lia). now exists s.
Qed.

Lemma pack_array_overflows Size elems :
  1 <= Size < 2 ^ 32 -> Forall (fun e => len e = Size) elems ->
  len elems * Size < 2 ^ 63 ->
  overflow_step (pack_array Size elems) (fun o => enc_array Size o elems).
Proof.
  intros HS Hall Hfit s pre rest (Hb & Hbase & Hbytes & Hptr & Hend & Hlt) Hroom.
  pose proof (len_nonneg pre) as Hpre. pose proof (len_nonneg elems) as Hn.
  pose proof (len_nonneg rest).
  rewrite len_enc_array in Hroom by (assumption || lia).
  unfold pack_array, bind at 1, get_buf.
  apply Z.eqb_neq in Hb. rewrite Hb. cbn [negb].
  replace (m_ptr (buf s) - m_beg (buf s)) with (len pre) by lia.
  assert (len elems < 2 ^ 64) by nia.
  rewrite (wrap64_small (len pre)) by lia.
  rewrite (wrap64_small (len elems)) by lia.
  rewrite (wrap64_small (len elems * Size)) by nia.
  rewrite overflow_check by (apply Z.ltb_lt; lia). now exists s.
Qed.

Lemma overflow_step_seq m1 m2 e1 e2 :
  transfer_step m1 e1 -> overflow_step m1 e1 -> overflow_step m2 e2 ->
  overflow_step (m1 ;;; m2) (seq_enc e1 e2).
Proof.
  intros T1 O1 O2 s pre rest Hf Hroom. unfold seq_enc in Hroom. lens.
  destruct (Z_le_gt_dec (len (e1 (len pre))) (len rest)) as [Hfits|Hshort].
  - destruct (T1 s pre rest Hf Hfits) as (s1 & rest1 & E1 & Hf1 & Hl1 & _).
    destruct (O2 s1 (pre ++ e1 (len pre)) rest1 Hf1) as (s2 & E2).
    { lens. lia. }
    exists s2. now rewrite (bind_ok _ _ _ _ _ E1).
  - destruct (O1 s pre rest Hf ltac:(lia)) as (s1 & E1).
    exists s1. unfold bind. now rewrite E1.
Qed.

Lemma overflow_step_ret : overflow_step (ret tt) (fun _ => []).
Proof. intros s pre rest _ Hroom. lens. pose proof (len_nonneg rest). lia. Qed.

Lemma overflow_step_ext m e e' :
  (forall o, e o = e' o) -> overflow_step m e -> overflow_step m e'.
Proof. intros He H s pre rest Hf Hroom. rewrite <- He in Hroom. exact (H s pre rest Hf Hroom). Qed.

Section Overflow.

Variable key_lt : value -> value -> bool.
Variable max_items : Z.

Lemma pack_items_overflows K l :
  (forall v, payload key_lt max_items K v -> overflow_step (pack v) (enc v)) ->
  Forall (payload key_lt max_items K) l ->
  overflow_step (pack_items l) (enc_items l).
Proof.
  intros IH. induction 1 as [|x l Hx _ IHl]; [apply overflow_step_ret|].
  cbn [pack_items].
  exact (overflow_step_seq _ _ _ _ (proj2 (pack_both key_lt max_items K x Hx)) (IH x Hx) IHl).
Qed.

Lemma pack_entries_overflows K V es :
  (forall v, payload key_lt max_items K v -> overflow_step (pack v) (enc v)) ->
  (forall v, payload key_lt max_items V v -> overflow_step (pack v) (enc v)) ->
  Forall (fun e => payload key_lt max_items K (fst e) /\
                   payload key_lt max_items V (snd e)) es ->
  overflow_step (pack_entries es) (enc_entries es).
Proof.
  intros IHK IHV. induction 1 as [|[k x] es [Hk Hx] _ IHes]; [apply overflow_step_ret|].
  cbn [pack_entries fst snd] in *.
  eapply overflow_step_ext;
    [|exact (overflow_step_seq _ _ _ _ (proj2 (pack_both key_lt max_items K k Hk)) (IHK k Hk)
               (overflow_step_seq _ _ _ _ (proj2 (pack_both key_lt max_items V x Hx))
                  (IHV x Hx) IHes))].
  intros o. reflexivity.
Qed.

Lemma pack_overflows t : forall v,
  payload key_lt max_items t v -> overflow_step (pack v) (enc v).
Proof.
  induction t as [Size| |a IHa b IHb|K IHK V IHV|K IHK]; intros [bs|cs|x y|es|l] Hv;
    cbn [payload] in Hv; try contradiction.
  - destruct Hv as [HS Hl]. cbn [pack enc]. rewrite Hl. now apply pack_value_overflows.
  - cbn [pack]. eapply overflow_step_ext; [intros o; symmetry; apply enc_VString|].
    apply overflow_step_seq.
    + apply pack_value_transfer; [lia|apply len_le_split].
    + apply pack_value_overflows; [lia|apply len_le_split].
    + apply pack_array_overflows; [lia|apply singletons_sized|rewrite len_map; lia].
  - destruct Hv as [Hx Hy]. cbn [pack].
    exact (overflow_step_seq _ _ _ _ (proj2 (pack_both key_lt max_items a x Hx))
             (IHa x Hx) (IHb y Hy)).
  - destruct Hv as (Hn & Hall & _). rewrite pack_VMap.
    eapply overflow_step_ext; [intros o; symmetry; apply enc_VMap|].
    apply overflow_step_seq.
    + apply pack_value_transfer; [lia|apply len_le_split].
    + apply pack_value_overflows; [lia|apply len_le_split].
    + now apply (pack_entries_overflows K V).
  - destruct Hv as (Hn & Hall). rewrite pack_VVector.
    eapply overflow_step_ext; [intros o; symmetry; apply enc_VVector|].
    apply overflow_step_seq.
    + apply pack_value_transfer; [lia|apply len_le_split].
    + apply pack_value_overflows; [lia|apply len_le_split].
    + now apply (pack_items_overflows K).
Qed.

End Overflow.

Lemma run_calls_overflows key_lt cs :
  Forall (call_ok key_lt) cs -> overflow_step (run_calls cs) (enc_calls cs).
Proof.
  induction 1 as [|c cs Hc _ IH]; [apply overflow_step_ret|].
  cbn [run_calls]. eapply overflow_step_ext; [|eapply overflow_step_seq; [| |exact IH]].
  - intros o. reflexivity.
  - destruct c as [t v|Size elems]; cbn [call_ok run_call enc_call] in *.
    + eapply pack_both; exact Hc.
    + destruct Hc as (HS & Hall & Hfit). now apply pack_array_transfer.
  - destruct c as [t v|Size elems]; cbn [call_ok run_call enc_call] in *.
    + eapply pack_overflows; exact Hc.
    + destruct Hc as (HS & Hall & Hfit). now apply pack_array_overflows.
Qed.

Lemma sizing_run_cursor key_lt cs :
  Forall (call_ok key_lt) cs -> final_cursor (sizing_run cs) < 2 ^ 64 ->
  sizing_run cs = Ok tt (with_ptr fresh (len (enc_calls cs 0))) /\
  final_cursor (sizing_run cs) = len (enc_calls cs 0).
Proof.
  intros Hok Hfit. destruct (run_calls_both key_lt cs Hok) as [HS _].
  destruct (sizing_fresh _ _ HS) as (p & E1 & Hp & Hx).
  unfold sizing_run in *. rewrite E1 in *. cbn [final_cursor with_ptr buf m_ptr] in *.
  rewrite Hx by lia. auto.
Qed.

(** When the storage is smaller than the sizing run found, the transfer run
    of the same calls signals [pack_overflow]: it neither returns nor writes
    outside the storage. *)
Theorem short_storage_overflows key_lt cs base storage :
  Forall (call_ok key_lt) cs ->
  0 < base ->
  len storage < final_cursor (sizing_run cs) < 2 ^ 64 ->
  exists s', transfer_run cs base storage = Throw pack_overflow s'.
Proof.
  intros Hok Hbase [Hshort Hfit].
  destruct (sizing_run_cursor key_lt cs Hok Hfit) as [_ Hcur]. rewrite Hcur in *.
  apply (run_calls_overflows key_lt cs Hok (attached base storage) [] storage).
  - apply frame_attached; lia.
  - exact Hshort.
Qed.

Lemma short_storage_overflows_witness :
  exists s',
    transfer_run [PackValue (TFixed 4) (VFixed (le_split 4 7));
                  PackValue TString (VString [Byte.x61])]
      4096 (calloc 16) = Throw pack_overflow s'.
Proof.
  apply (short_storage_overflows unsigned_lt).
  - repeat constructor; cbn; lia.
  - lia.
  - vm_compute. split; reflexivity.
Defined.

Lemma exact_transfer key_lt cs base storage :
  Forall (call_ok key_lt) cs ->
  0 < base ->
  len storage = final_cursor (sizing_run cs) ->
  len storage < 2 ^ 64 ->
  exists s, transfer_run cs base storage = Ok tt s /\
            frame s (enc_calls cs 0) [] /\ m_beg (buf s) = base.
Proof.
  intros Hok Hbase Hlen Hfit.
  destruct (sizing_run_cursor key_lt cs Hok ltac:(lia)) as [_ Hcur]. rewrite Hcur in *.
  destruct (run_calls_both key_lt cs Hok) as [_ HT].
  destruct (HT (attached base storage) [] storage (frame_attached _ _ Hbase Hfit))
    as (s2 & rest & E2 & Hf2 & Hl2 & Hb2).
  { lens. lia. }
  lens. cbn [app] in Hf2.
  assert (rest = []) as -> by (apply len_zero_nil; lia).
  exists s2. auto.
Qed.

(** The alignment gap is zeroed: a pack of a fixed-size value, or of an array
    of them, into storage with room writes zeros into the gap between the
    cursor and the aligned position, whatever the storage held there, and
    leaves the bytes before the cursor as they were.  (Nothing is said of the
    bytes of the value itself, which are what the assignment through [T*]
    writes.) *)
Theorem alignment_gap_is_zeroed key_lt Size c s pre rest :
  call_ok key_lt c ->
  scalar_call Size c ->
  frame s pre rest ->
  len (enc_call c (len pre)) <= len rest ->
  exists s',
    run_call c s = Ok tt s' /\
    firstn (length pre) (blk_bytes (heap s')) = pre /\
    firstn (Z.to_nat (CommBufferAlign Size (len pre)))
           (skipn (length pre) (blk_bytes (heap s')))
    = repeat Byte.x00 (Z.to_nat (CommBufferAlign Size (len pre))).
Proof.
  intros Hok Hsc Hf Hroom.
  assert (HT : transfer_step (run_call c) (enc_call c)).
  { destruct c as [t v|Sz elems]; cbn [call_ok run_call enc_call] in *.
    - eapply pack_both; exact Hok.
    - destruct Hok as (HS & Hall & Hfit). now apply pack_array_transfer. }
  destruct (HT s pre rest Hf Hroom) as (s' & rest' & E & (_ & _ & Hbytes & _) & _).
  exists s'. split; [exact E|]. rewrite Hbytes, <- app_assoc.
  split; [now apply firstn_len_app|].
  rewrite skipn_len_app by reflexivity.
  assert (Hgap : exists payload,
            enc_call c (len pre)
            = repeat Byte.x00 (Z.to_nat (CommBufferAlign Size (len pre))) ++ payload).
  { destruct c as [[Sz| | | |] [bs| | | |]|Sz elems]; cbn [scalar_call] in Hsc;
      try contradiction; subst Sz; cbn [enc_call enc call_ok payload] in *.
    - destruct Hok as [_ Hl]. rewrite Hl. now exists bs.
    - now exists (concat elems). }
  destruct Hgap as (payload & ->). rewrite <- app_assoc.
  apply firstn_len_app. now rewrite repeat_length.
Qed.

(** A 4-byte value packed at offset 1 of storage full of [0xff]. *)
Lemma alignment_gap_is_zeroed_witness :
  exists s',
    run_call (PackValue (TFixed 4) (VFixed (le_split 4 7)))
      (with_ptr (attached 4096 (repeat Byte.xff 8)) 4097) = Ok tt s' /\
    firstn (length [Byte.xff]) (blk_bytes (heap s')) = [Byte.xff] /\
    firstn (Z.to_nat (CommBufferAlign 4 (len [Byte.xff])))
           (skipn (length [Byte.xff]) (blk_bytes (heap s')))
    = repeat Byte.x00 (Z.to_nat (CommBufferAlign 4 (len [Byte.xff]))).
Proof.
  apply (alignment_gap_is_zeroed unsigned_lt 4 _ _ [Byte.xff] (repeat Byte.xff 7)).
  - split; [lia|vm_compute; reflexivity].
  - reflexivity.
  - unfold frame. vm_compute. repeat split; discriminate.
  - vm_compute. discriminate.
Defined.

(** Storage of exactly the size the sizing run found is exactly filled by
    the transfer run: on return [size()] equals [capacity()] and [remaining()]
    is 0. *)
Theorem sized_storage_is_filled key_lt cs base storage :
  Forall (call_ok key_lt) cs ->
  0 < base ->
  len storage = final_cursor (sizing_run cs) ->
  len storage < 2 ^ 64 ->
  exists s, transfer_run cs base storage = Ok tt s /\
            size (buf s) = capacity (buf s) /\ remaining (buf s) = 0.
Proof.
  intros Hok Hbase Hlen Hfit.
  destruct (exact_transfer key_lt cs base storage Hok Hbase Hlen Hfit)
    as (s & E & Hf & _).
  exists s. split; [exact E|].
  rewrite (size_framed _ _ _ Hf).
  destruct Hf as (_ & _ & _ & Hptr & Hend & Hlt). lens.
  pose proof (len_nonneg (enc_calls cs 0)).
  unfold capacity, remaining. rewrite Hend, Hptr. split; [|lia].
  replace (m_beg (buf s) + len (enc_calls cs 0) + 0 - m_beg (buf s))
    with (len (enc_calls cs 0)) by lia.
  symmetry. apply wrap64_small. lia.
Qed.

Lemma sized_storage_is_filled_witness :
  exists s,
    transfer_run [PackValue (TFixed 1) (VFixed [Byte.x2a]);
                  PackValue (TFixed 4) (VFixed (le_split 4 7))]
      4096 (calloc 8) = Ok tt s /\
    size (buf s) = capacity (buf s) /\ remaining (buf s) = 0.
Proof.
  apply (sized_storage_is_filled unsigned_lt).
  - repeat constructor; cbn; lia.
  - lia.
  - vm_compute. reflexivity.
  - vm_compute. reflexivity.
Defined.

(** ** Supplements: sequences of calls read back *)

Lemma run_calls_readable key_lt cs :
  Forall (readable key_lt) cs -> both_steps (run_calls cs) (enc_calls cs).
Proof.
  induction 1 as [|c cs Hc _ IH].
  - split; [apply sizing_step_ret | apply transfer_step_ret].
  - cbn [run_calls]. eapply both_steps_ext; [|eapply both_steps_seq; [|exact IH]].
    + intros o. reflexivity.
    + destruct c as [t v|Size elems]; cbn [readable run_call enc_call] in *.
      * eapply pack_both; exact Hc.
      * destruct Hc as (HS & Hall & Hfit). now apply pack_array_both.
Qed.

Lemma run_unpack_step key_lt c :
  (forall a b, key_lt a b = true -> key_lt b a = false) ->
  readable key_lt c ->
  unpack_step (run_unpack key_lt c) (enc_call c) (packed c).
Proof.
  intros Hasym Hc. destruct c as [t v|Size elems]; cbn [readable run_unpack enc_call packed] in *.
  - apply (unpack_step_map _ ItemValue). now apply unpack_enc.
  - destruct Hc as (HS & Hall & Hfit). pose proof (len_nonneg elems).
    apply (unpack_step_map _ ItemArray). apply unpack_array_step; [lia|exact Hall|nia].
Qed.

Lemma run_unpacks_step key_lt cs :
  (forall a b, key_lt a b = true -> key_lt b a = false) ->
  Forall (readable key_lt) cs ->
  unpack_step (run_unpacks key_lt cs) (enc_calls cs) (map packed cs).
Proof.
  intros Hasym. induction 1 as [|c cs Hc _ IH]; [apply unpack_step_ret|].
  cbn [run_unpacks map].
  eapply unpack_step_ext;
    [|exact (unpack_step_bind _ _ _ _ _ _ (run_unpack_step key_lt c Hasym Hc)
               (unpack_step_map _ (fun rest => packed c :: rest) _ _ IH))].
  intros o. reflexivity.
Qed.

(** A sequence of pack calls (values and arrays, in any order), run through
    the two passes and read back by the mirroring unpack calls in the same
    order, returns what was packed, call by call. *)
Theorem calls_round_trip key_lt cs base alloc :
  (forall a b, key_lt a b = true -> key_lt b a = false) ->
  Forall (readable key_lt) cs ->
  0 < base ->
  (forall n, 0 <= n -> len (alloc n) = n) ->
  final_cursor (sizing_run cs) < 2 ^ 64 ->
  exists s', round_trip_calls key_lt cs base alloc = Ok (map packed cs) s'.
Proof.
  intros Hasym Hok Hbase Halloc Hfit.
  destruct (run_calls_readable key_lt cs Hok) as [HS HT].
  destruct (sizing_fresh _ _ HS) as (p & E1 & Hp & Hx).
  unfold round_trip_calls, sizing_run in *. rewrite E1 in *.
  cbn [final_cursor with_ptr buf m_ptr] in Hfit. rewrite Hx in * by lia. clear Hx.
  pose proof (len_nonneg (enc_calls cs 0)) as Hn.
  assert (Hsz : size (buf (with_ptr fresh (len (enc_calls cs 0)))) = len (enc_calls cs 0)).
  { unfold size. cbn. rewrite Z.sub_0_r. now apply wrap64_small. }
  rewrite Hsz.
  destruct (HT (attached base (alloc (len (enc_calls cs 0)))) []
              (alloc (len (enc_calls cs 0))))
    as (s2 & rest & E2 & Hf2 & Hl2 & Hb2).
  { apply frame_attached; [lia|]. rewrite Halloc; lia. }
  { lens. rewrite Halloc; lia. }
  lens. cbn [app] in Hf2. rewrite Halloc in Hl2 by lia.
  assert (rest = []) as -> by (apply len_zero_nil; lia).
  rewrite (bind_ok _ _ _ _ _ E2).
  destruct (reset_frame _ _ _ Hf2) as (s3 & E3 & Hf3 & _).
  rewrite (bind_ok _ _ _ _ _ E3).
  destruct (run_unpacks_step key_lt cs Hasym Hok s3 [] []) as (s4 & E4 & _); [exact Hf3|].
  now exists s4.
Qed.

Lemma calls_round_trip_witness :
  exists s',
    round_trip_calls unsigned_lt
      [PackValue (TFixed 1) (VFixed [Byte.x2a]);
       PackArray 4 [le_split 4 1; le_split 4 2];
       PackValue TString (VString [Byte.x68; Byte.x69])]
      4096 calloc
    = Ok [ItemValue (VFixed [Byte.x2a]);
          ItemArray [le_split 4 1; le_split 4 2];
          ItemValue (VString [Byte.x68; Byte.x69])] s'.
Proof.
  apply (calls_round_trip unsigned_lt).
  - exact unsigned_lt_asym.
  - repeat constructor; cbn; lia.
  - lia.
  - exact len_calloc.
  - vm_compute. reflexivity.
Defined.

(** ** Supplements: peek *)

Lemma unpack_value_at Size bs s pre post :
  1 <= Size -> len bs = Size ->
  frame s pre (enc_value Size (len pre) bs ++ post) ->
  unpack_value Size s =
  Ok bs (mkState (mkCommBuffer (m_beg (buf s))
                    (m_ptr (buf s) + CommBufferAlign Size (len pre) + Size)
                    (m_end (buf s)))
           (heap s)
           (log s ++ [MemLoad (m_ptr (buf s) + CommBufferAlign Size (len pre)) Size])).
Proof.
  intros HS Hl Hf.
  pose proof Hf as (Hb & Hbase & Hbytes & Hptr & Hend & Hlt).
  pose proof (len_nonneg pre) as Hpre. pose proof (len_nonneg post) as Hpost.
  pose proof (align_range Size (len pre) ltac:(lia)) as Ha.
  unfold unpack_value, bind at 1, get_buf.
  replace (m_ptr (buf s) - m_beg (buf s)) with (len pre) by lia.
  unfold enc_value in *. lens.
  rewrite wrap64_small by lia.
  rewrite <- !app_assoc, app_assoc in Hbytes.
  erewrite bind_ok; cycle 1.
  { eapply (load_at s _ bs post); [exact Hbytes| lens; lia | lia]. }
  unfold bind at 1, set_m_ptr. unfold bind at 1, get_buf.
  cbn [buf heap log m_beg m_ptr m_end].
  rewrite no_overflow_check by (apply Z.ltb_ge; lia).
  reflexivity.
Qed.

Lemma peek_value_at Size bs s pre post :
  1 <= Size -> len bs = Size ->
  frame s pre (enc_value Size (len pre) bs ++ post) ->
  peek_value Size s =
  Ok bs (mkState (buf s) (heap s)
           (log s ++ [MemLoad (m_ptr (buf s) + CommBufferAlign Size (len pre)) Size])).
Proof.
  intros HS Hl Hf. unfold peek_value, bind at 1, get_buf.
  rewrite (bind_ok _ _ _ _ _ (unpack_value_at Size bs s pre post HS Hl Hf)).
  destruct s as [[mb mp me] h l]. reflexivity.
Qed.

Lemma frame_same_buffer s s' pre rest :
  frame s pre rest -> buf s' = buf s -> heap s' = heap s -> frame s' pre rest.
Proof. unfold frame. intros H -> ->. exact H. Qed.

(** [peek] of a fixed-size value returns what [unpack] would return and
    leaves the buffer as it was: the cursor, the bounds and the storage are
    unchanged, so that the [unpack] that follows returns the same value. *)
Theorem peek_then_unpack Size bs s pre post :
  1 <= Size -> len bs = Size ->
  frame s pre (enc_value Size (len pre) bs ++ post) ->
  exists s1 s2,
    peek_value Size s = Ok bs s1 /\ buf s1 = buf s /\ heap s1 = heap s /\
    unpack_value Size s1 = Ok bs s2.
Proof.
  intros HS Hl Hf. eexists. eexists.
  split; [exact (peek_value_at Size bs s pre post HS Hl Hf)|].
  split; [reflexivity|]. split; [reflexivity|].
  apply (unpack_value_at Size bs _ pre post HS Hl).
  exact (frame_same_buffer _ _ _ _ Hf eq_refl eq_refl).
Qed.

Lemma peek_then_unpack_witness :
  exists s1 s2,
    peek_value 4 (attached 4096 (le_split 4 7 ++ [Byte.xff])) = Ok (le_split 4 7) s1 /\
    buf s1 = buf (attached 4096 (le_split 4 7 ++ [Byte.xff])) /\
    heap s1 = heap (attached 4096 (le_split 4 7 ++ [Byte.xff])) /\
    unpack_value 4 s1 = Ok (le_split 4 7) s2.
Proof.
  apply (peek_then_unpack 4 (le_split 4 7) _ [] [Byte.xff]).
  - lia.
  - reflexivity.
  - apply (frame_attached 4096 (le_split 4 7 ++ [Byte.xff])); [lia|vm_compute; reflexivity].
Defined.

Lemma peek_array_at Size elems s pre post :
  1 <= Size -> Forall (fun e => len e = Size) elems -> len elems < 2 ^ 64 ->
  frame s pre (enc_array Size (len pre) elems ++ post) ->
  exists s1, peek_array Size (len elems) s = Ok elems s1 /\
             buf s1 = buf s /\ heap s1 = heap s.
Proof.
  intros HS Hall Hfit Hf.
  pose proof Hf as (Hb & Hbase & Hbytes & Hptr & Hend & Hlt).
  pose proof (len_nonneg pre) as Hpre. pose proof (len_nonneg post) as Hpost.
  pose proof (len_nonneg (concat elems)) as Hc.
  pose proof (align_range Size (len pre) ltac:(lia)) as Ha.
  unfold peek_array, bind at 1, get_buf.
  replace (m_ptr (buf s) - m_beg (buf s)) with (len pre) by lia.
  unfold enc_array in *. lens.
  rewrite wrap64_small by lia.
  rewrite <- !app_assoc, app_assoc in Hbytes.
  replace (Z.to_nat (len elems)) with (length elems) by (unfold len; lia).
  destruct (copy_in_at Size elems s _ post
              (m_ptr (buf s) + CommBufferAlign Size (len pre)) Hall Hbytes)
    as (s1 & E1 & Hbuf1 & Hheap1).
  { lens. lia. }
  rewrite (bind_ok _ _ _ _ _ E1). cbn [fst snd].
  unfold bind at 1, get_buf. rewrite Hbuf1.
  rewrite no_overflow_check by (apply Z.ltb_ge; lia).
  exists s1. auto.
Qed.

(** [peek] of an array returns the elements the array [unpack] would return
    and leaves the cursor, the bounds and the storage as they were. *)
Theorem peek_array_returns_elements Size elems s pre post :
  1 <= Size -> Forall (fun e => len e = Size) elems -> len elems < 2 ^ 64 ->
  frame s pre (enc_array Size (len pre) elems ++ post) ->
  exists s1 s2,
    peek_array Size (len elems) s = Ok elems s1 /\
    buf s1 = buf s /\ heap s1 = heap s /\
    unpack_array Size (len elems) s = Ok elems s2.
Proof.
  intros HS Hall Hfit Hf.
  destruct (peek_array_at Size elems s pre post HS Hall Hfit Hf) as (s1 & E1 & Hb1 & Hh1).
  destruct (unpack_array_step Size elems HS Hall Hfit s pre post Hf) as (s2 & E2 & _).
  exists s1, s2. auto.
Qed.

Lemma peek_array_returns_elements_witness :
  exists s1 s2,
    peek_array 2 (len [[Byte.x01; Byte.x02]; [Byte.x03; Byte.x04]])
      (attached 4096 [Byte.x01; Byte.x02; Byte.x03; Byte.x04])
    = Ok [[Byte.x01; Byte.x02]; [Byte.x03; Byte.x04]] s1 /\
    buf s1 = buf (attached 4096 [Byte.x01; Byte.x02; Byte.x03; Byte.x04]) /\
    heap s1 = heap (attached 4096 [Byte.x01; Byte.x02; Byte.x03; Byte.x04]) /\
    unpack_array 2 (len [[Byte.x01; Byte.x02]; [Byte.x03; Byte.x04]])
      (attached 4096 [Byte.x01; Byte.x02; Byte.x03; Byte.x04])
    = Ok [[Byte.x01; Byte.x02]; [Byte.x03; Byte.x04]] s2.
Proof.
  apply (peek_array_returns_elements 2 _ _ [] []).
  - lia.
  - repeat constructor.
  - vm_compute. reflexivity.
  - apply (frame_attached 4096 [Byte.x01; Byte.x02; Byte.x03; Byte.x04]);
      [lia|vm_compute; reflexivity].
Defined.

Lemma align_zero N i : i mod N = 0 -> CommBufferAlign N i = 0.
Proof.
  intros H. unfold CommBufferAlign. destruct (N =? 1); [reflexivity|].
  cbv zeta. now rewrite H.
Qed.

(** What [peek] of a string returns in general: the stored length is read
    at the aligned position, but the characters are taken 8 bytes after the
    cursor itself. *)
Lemma peek_string_at cs s pre post :
  len cs < 2 ^ 63 ->
  frame s pre (enc (VString cs) (len pre) ++ post) ->
  exists s1,
    peek_string s
    = Ok (VString (firstn (length cs)
                     (skipn 8 (enc (VString cs) (len pre) ++ post)))) s1 /\
    buf s1 = buf s /\ heap s1 = heap s.
Proof.
  intros Hcs Hf. pose proof (len_nonneg cs) as Hn.
  set (L := le_split 8 (wrap64 (len cs))) in *.
  assert (HL : len L = 8) by apply len_le_split.
  cbn [enc] in *. fold L in Hf |- *.
  unfold peek_string.
  rewrite <- app_assoc in Hf.
  rewrite (bind_ok _ _ _ _ _ (peek_value_at 8 L s pre (cs ++ post) ltac:(lia) HL Hf)).
  assert (Hlen : le_combine L = len cs).
  { unfold L. rewrite le_combine_split, wrap64_small by lia. apply Z.mod_small. lia. }
  rewrite Hlen. rewrite wrap64_small by lia.
  set (s1 := mkState (buf s) (heap s) _).
  set (bytes := enc_value 8 (len pre) L ++ cs ++ post) in *.
  pose proof (len_nonneg post) as Hpost.
  assert (Hbytes : len bytes = CommBufferAlign 8 (len pre) + 8 + len cs + len post).
  { unfold bytes. lens. rewrite len_enc_value by lia. lia. }
  pose proof (align_range 8 (len pre) ltac:(lia)) as Ha.
  set (taken := firstn (Z.to_nat (8 + len cs)) bytes).
  set (left := skipn (Z.to_nat (8 + len cs)) bytes).
  assert (Hsplit : bytes = taken ++ left) by (symmetry; apply firstn_skipn).
  assert (Htaken : len taken = 8 + len cs).
  { unfold taken. unfold len in *. rewrite length_firstn. lia. }
  destruct (peek_array_at 1 (map (fun c => [c]) taken) s1 pre left)
    as (s2 & E2 & Hb2 & Hh2).
  { lia. }
  { apply singletons_sized. }
  { rewrite len_map. lia. }
  { unfold enc_array. rewrite align_one. cbn [Z.to_nat repeat app].
    rewrite concat_singletons, <- Hsplit.
    exact (frame_same_buffer _ _ _ _ Hf eq_refl eq_refl). }
  rewrite len_map, Htaken in E2.
  rewrite (bind_ok _ _ _ _ _ E2). rewrite concat_singletons.
  exists s2. split; [|split; [exact Hb2|exact Hh2]].
  unfold ret. do 2 f_equal.
  replace (Z.to_nat (len cs)) with (length cs) by (unfold len; lia).
  change (Z.to_nat 8) with 8%nat.
  unfold taken. rewrite skipn_firstn_comm, firstn_firstn.
  replace (Z.to_nat (8 + len cs) - 8)%nat with (length cs) by (unfold len; lia).
  rewrite Nat.min_id. unfold bytes. now rewrite <- app_assoc.
Qed.

(** When the cursor is at a multiple of 8 from the start of the storage,
    [peek] of a string returns the string that was packed there and leaves
    the cursor, the bounds and the storage as they were. *)
Theorem peek_string_aligned cs s pre post :
  len cs < 2 ^ 63 ->
  len pre mod 8 = 0 ->
  frame s pre (enc (VString cs) (len pre) ++ post) ->
  exists s1, peek_string s = Ok (VString cs) s1 /\ buf s1 = buf s /\ heap s1 = heap s.
Proof.
  intros Hcs Hal Hf.
  destruct (peek_string_at cs s pre post Hcs Hf) as (s1 & E1 & Hb1 & Hh1).
  exists s1. split; [|auto]. rewrite E1. do 2 f_equal.
  cbn [enc]. unfold enc_value. rewrite (align_zero 8 _ Hal).
  cbn [Z.to_nat repeat app]. rewrite <- app_assoc.
  rewrite skipn_len_app by (symmetry; apply length_le_split).
  now apply firstn_len_app.
Qed.

Lemma peek_string_aligned_witness :
  exists s1,
    peek_string (attached 4096 (enc (VString [Byte.x68; Byte.x69]) 0 ++ [Byte.xff]))
    = Ok (VString [Byte.x68; Byte.x69]) s1 /\
    buf s1 = buf (attached 4096 (enc (VString [Byte.x68; Byte.x69]) 0 ++ [Byte.xff])) /\
    heap s1 = heap (attached 4096 (enc (VString [Byte.x68; Byte.x69]) 0 ++ [Byte.xff])).
Proof.
  apply (peek_string_aligned [Byte.x68; Byte.x69] _ [] [Byte.xff]).
  - vm_compute. reflexivity.
  - reflexivity.
  - apply (frame_attached 4096 (enc (VString [Byte.x68; Byte.x69]) 0 ++ [Byte.xff]));
      [lia|vm_compute; reflexivity].
Defined.

Lemma le_split_small z :
  0 <= z < 256 -> le_split 8 z = byte.of_Z z :: repeat Byte.x00 7.
Proof.
  intros Hz. change (le_split 8 z) with (byte.of_Z z :: le_split 7 (Z.shiftr z 8)).
  rewrite Z.shiftr_div_pow2, Z.div_small by lia. reflexivity.
Qed.

Lemma align_misaligned i :
  i mod 8 <> 0 ->
  exists k, (1 <= k <= 7)%nat /\ Z.to_nat (CommBufferAlign 8 i) = k.
Proof.
  intros H. unfold CommBufferAlign. change (8 =? 1) with false. cbv iota zeta.
  apply Z.eqb_neq in H. rewrite H.
  pose proof (Z.mod_pos_bound i 8 ltac:(lia)). apply Z.eqb_neq in H.
  exists (Z.to_nat (8 - i mod 8)). lia.
Qed.

(** When the cursor is not at a multiple of 8, [peek] of a string does not
    return the string that was packed there: the length is read behind the
    alignment pad, but the characters are taken 8 bytes after the cursor, so
    the result starts inside the stored length.  (Shown for strings shorter
    than 256 characters that do not start with a zero byte.) *)
Theorem peek_string_misaligned c cs s pre post :
  len (c :: cs) < 256 ->
  c <> Byte.x00 ->
  len pre mod 8 <> 0 ->
  frame s pre (enc (VString (c :: cs)) (len pre) ++ post) ->
  exists r s1, peek_string s = Ok (VString r) s1 /\ r <> c :: cs.
Proof.
  intros Hlen Hc Hal Hf. pose proof (len_nonneg (c :: cs)) as Hn.
  destruct (peek_string_at (c :: cs) s pre post ltac:(lia) Hf) as (s1 & E1 & _).
  eexists. exists s1. split; [exact E1|].
  intros Heq. apply (f_equal (hd Byte.x00)) in Heq.
  cbn [enc] in Heq. unfold enc_value in Heq.
  rewrite wrap64_small, le_split_small in Heq by lia.
  destruct (align_misaligned _ Hal) as (k & Hk & Ek). rewrite Ek in Heq. clear Ek.
  do 8 (destruct k as [|k]; [try lia; cbn in Heq; congruence|]). lia.
Qed.

Lemma peek_string_misaligned_witness :
  exists r s1,
    peek_string
      (with_ptr (attached 4096 ([Byte.x2a] ++ enc (VString [Byte.x68; Byte.x69]) 1))
                4097)
    = Ok (VString r) s1 /\ r <> [Byte.x68; Byte.x69].
Proof.
  apply (peek_string_misaligned Byte.x68 [Byte.x69] _ [Byte.x2a] []).
  - vm_compute. reflexivity.
  - discriminate.
  - vm_compute. discriminate.
  - unfold frame. vm_compute. repeat split; discriminate.
Defined.

(** ** Supplements: skip, and the size queries *)

Lemma skip_value_step Size elems :
  1 <= Size -> Forall (fun e => len e = Size) elems -> len elems * Size < 2 ^ 63 ->
  skip_step (skip_value Size (len elems)) (fun o => enc_array Size o elems).
Proof.
  intros HS Hall Hfit s pre post Hf.
  pose proof Hf as (Hb & Hbase & Hbytes & Hptr & Hend & Hlt).
  pose proof (len_nonneg pre) as Hpre. pose proof (len_nonneg post) as Hpost.
  pose proof (len_nonneg elems) as Hn.
  pose proof (align_range Size (len pre) ltac:(lia)) as Ha.
  lens. rewrite len_enc_array in * by (assumption || lia).
  unfold skip_value, bind at 1, get_buf.
  replace (m_ptr (buf s) - m_beg (buf s)) with (len pre) by lia.
  rewrite (wrap64_small (len pre)) by lia.
  rewrite (wrap64_small (Size * len elems)) by nia.
  rewrite wrap64_small by nia.
  unfold bind at 1, set_m_ptr. unfold bind at 1, get_buf.
  cbn [buf heap log m_beg m_ptr m_end].
  apply Z.eqb_neq in Hb. rewrite Hb. cbn [negb andb].
  replace (m_end (buf s) <? _) with false by (symmetry; apply Z.ltb_ge; nia).
  unfold ret, with_ptr. do 3 f_equal. lia.
Qed.

(** In sizing mode [skip] counts the bytes the array [pack] of as many
    values counts. *)
Theorem skip_counts_like_pack Size elems s :
  m_beg (buf s) = 0 -> len elems < 2 ^ 64 ->
  skip_value Size (len elems) s = pack_array Size elems s.
Proof.
  intros Hb Hfit. pose proof (len_nonneg elems).
  unfold skip_value, pack_array, bind, get_buf, set_m_ptr, ret.
  cbn [buf heap log m_beg m_ptr m_end]. rewrite !Hb. cbn [Z.eqb negb andb].
  rewrite (wrap64_small (len elems)) by lia. rewrite (Z.mul_comm Size).
  cbn [buf heap log m_beg m_ptr m_end]. now rewrite ?Hb.
Qed.

Lemma skip_counts_like_pack_witness :
  skip_value 4 (len [le_split 4 1; le_split 4 2]) (with_ptr fresh 1)
  = pack_array 4 [le_split 4 1; le_split 4 2] (with_ptr fresh 1).
Proof.
  apply (skip_counts_like_pack 4 [le_split 4 1; le_split 4 2]).
  - reflexivity.
  - vm_compute. reflexivity.
Defined.

(** On received storage [skip] leaves the buffer exactly where the array
    [unpack] of as many values leaves it, without reading any memory. *)
Theorem skip_lands_where_unpack_lands Size elems s pre post :
  1 <= Size -> Forall (fun e => len e = Size) elems -> len elems * Size < 2 ^ 63 ->
  frame s pre (enc_array Size (len pre) elems ++ post) ->
  exists s1 s2,
    skip_value Size (len elems) s = Ok tt s1 /\
    unpack_array Size (len elems) s = Ok elems s2 /\
    buf s1 = buf s2 /\ heap s1 = heap s /\ log s1 = log s.
Proof.
  intros HS Hall Hfit Hf. pose proof (len_nonneg elems) as Hn.
  destruct (unpack_array_step Size elems HS Hall ltac:(nia) s pre post Hf)
    as (s2 & E2 & Hf2 & Hb2).
  eexists. exists s2. split; [exact (skip_value_step Size elems HS Hall Hfit s pre post Hf)|].
  split; [exact E2|]. split; [|split; reflexivity].
  destruct Hf as (_ & _ & _ & Hptr & Hend & _).
  destruct Hf2 as (_ & _ & _ & Hptr2 & Hend2 & _). lens.
  unfold with_ptr. cbn [buf].
  destruct (buf s2) as [b2 p2 e2]. cbn [m_beg m_ptr m_end] in *. f_equal; lia.
Qed.

Lemma skip_lands_where_unpack_lands_witness :
  exists s1 s2,
    skip_value 2 (len [[Byte.x01; Byte.x02]; [Byte.x03; Byte.x04]])
      (attached 4096 [Byte.x01; Byte.x02; Byte.x03; Byte.x04]) = Ok tt s1 /\
    unpack_array 2 (len [[Byte.x01; Byte.x02]; [Byte.x03; Byte.x04]])
      (attached 4096 [Byte.x01; Byte.x02; Byte.x03; Byte.x04])
    = Ok [[Byte.x01; Byte.x02]; [Byte.x03; Byte.x04]] s2 /\
    buf s1 = buf s2 /\
    heap s1 = heap (attached 4096 [Byte.x01; Byte.x02; Byte.x03; Byte.x04]) /\
    log s1 = log (attached 4096 [Byte.x01; Byte.x02; Byte.x03; Byte.x04]).
Proof.
  apply (skip_lands_where_unpack_lands 2 _ _ [] []).
  - lia.
  - repeat constructor.
  - vm_compute. reflexivity.
  - apply (frame_attached 4096 [Byte.x01; Byte.x02; Byte.x03; Byte.x04]);
      [lia|vm_compute; reflexivity].
Defined.

(** A [skip] past the end of the storage, by a count that does not carry the
    cursor around the end of the address space (the advanced cursor stays
    below [2^64]), signals [unpack_overflow] without reading any memory, and
    only after it has moved the cursor: the buffer is left with its cursor
    beyond its end. *)
Theorem skip_past_end_overflows Size number s pre rest :
  1 <= Size -> 0 <= number ->
  frame s pre rest ->
  0 < m_beg (buf s) ->
  m_ptr (buf s) + CommBufferAlign Size (len pre) + Size * number < 2 ^ 64 ->
  len rest < CommBufferAlign Size (len pre) + Size * number ->
  exists s', skip_value Size number s = Throw unpack_overflow s' /\
             log s' = log s /\ heap s' = heap s /\
             m_end (buf s') < m_ptr (buf s').
Proof.
  intros HS Hnum (Hb & Hbase & Hbytes & Hptr & Hend & Hlt) Hpos Hfit Hshort.
  pose proof (len_nonneg pre) as Hpre. pose proof (len_nonneg rest) as Hrest.
  pose proof (align_range Size (len pre) ltac:(lia)) as Ha.
  assert (Hprod : 0 <= Size * number) by nia.
  unfold skip_value, bind at 1, get_buf.
  replace (m_ptr (buf s) - m_beg (buf s)) with (len pre) by lia.
  rewrite (wrap64_small (len pre)) by lia.
  rewrite (wrap64_small (Size * number)) by lia.
  rewrite wrap64_small by lia.
  unfold bind at 1, set_m_ptr. unfold bind at 1, get_buf.
  cbn [buf heap log m_beg m_ptr m_end].
  apply Z.eqb_neq in Hb. rewrite Hb. cbn [negb andb].
  replace (m_end (buf s) <? _) with true by (symmetry; apply Z.ltb_lt; lia).
  eexists. split; [reflexivity|]. cbn [buf heap log m_ptr m_end].
  repeat split. lia.
Qed.

Lemma skip_past_end_overflows_witness :
  exists s',
    skip_value 4 2 (attached 4096 (calloc 7)) = Throw unpack_overflow s' /\
    log s' = log (attached 4096 (calloc 7)) /\
    heap s' = heap (attached 4096 (calloc 7)) /\
    m_end (buf s') < m_ptr (buf s').
Proof.
  apply (skip_past_end_overflows 4 2 _ [] (calloc 7)).
  - lia.
  - lia.
  - apply frame_attached; [lia|vm_compute; reflexivity].
  - vm_compute. reflexivity.
  - vm_compute. reflexivity.
  - vm_compute. reflexivity.
Defined.

Lemma frame_with_ptr s pre a post :
  frame s pre (a ++ post) ->
  frame (with_ptr s (m_ptr (buf s) + len a)) (pre ++ a) post.
Proof.
  intros (Hb & Hbase & Hbytes & Hptr & Hend & Hlt). unfold frame, with_ptr.
  cbn [buf heap m_beg m_ptr m_end]. lens. rewrite <- app_assoc.
  repeat split; try assumption; lia.
Qed.

Lemma skip_step_seq m1 m2 e1 e2 :
  skip_step m1 e1 -> skip_step m2 e2 -> skip_step (m1 ;;; m2) (seq_enc e1 e2).
Proof.
  intros H1 H2 s pre post Hf. unfold seq_enc in *. rewrite <- app_assoc in Hf.
  rewrite (bind_ok _ _ _ _ _ (H1 s pre _ Hf)).
  pose proof (frame_with_ptr _ _ _ _ Hf) as Hf1.
  rewrite (H2 _ (pre ++ e1 (len pre)) post); [|lens; exact Hf1].
  rewrite with_ptr_twice. cbn [with_ptr buf m_ptr]. lens. do 2 f_equal. lia.
Qed.

Lemma skip_step_ext m e e' :
  (forall o, e o = e' o) -> skip_step m e -> skip_step m e'.
Proof. intros He H s pre post Hf. rewrite <- He in *. exact (H s pre post Hf). Qed.

Lemma skip_one key_lt max_items ft : forall v,
  payload key_lt max_items (ty_of ft) v -> skip_step (skip ft 1) (enc v).
Proof.
  induction ft as [Size|a IHa b IHb]; intros [bs|cs|x y|es|l] Hv;
    cbn [ty_of payload] in Hv; try contradiction.
  - destruct Hv as [HS Hl]. cbn [skip enc]. rewrite Hl.
    apply (skip_step_ext _ (fun o => enc_array Size o [bs])).
    + intros o. unfold enc_array, enc_value. cbn [concat]. now rewrite app_nil_r.
    + apply (skip_value_step Size [bs]); [lia|now constructor|].
      change (len [bs]) with 1. lia.
  - destruct Hv as [Hx Hy]. cbn [skip].
    exact (skip_step_seq _ _ _ _ (IHa x Hx) (IHb y Hy)).
Qed.

(** [skip<T>(1)], for [T] a fixed-size type or a pair nested to any depth,
    moves the cursor exactly over one packed value of that type; the
    storage is not read and nothing else changes. *)
Theorem skip_one_passes_one_value key_lt max_items ft v s pre post :
  payload key_lt max_items (ty_of ft) v ->
  frame s pre (enc v (len pre) ++ post) ->
  exists s',
    skip ft 1 s = Ok tt s' /\ frame s' (pre ++ enc v (len pre)) post /\
    m_beg (buf s') = m_beg (buf s) /\ heap s' = heap s /\ log s' = log s.
Proof.
  intros Hv Hf. eexists. split; [exact (skip_one key_lt max_items ft v Hv s pre post Hf)|].
  split; [exact (frame_with_ptr _ _ _ _ Hf)|]. repeat split.
Qed.

Lemma skip_one_passes_one_value_witness :
  exists s',
    skip char_int 1
      (attached 4096 (enc (VPair (VFixed [Byte.x2a]) (VFixed (le_split 4 7))) 0
                      ++ [Byte.xff])) = Ok tt s' /\
    frame s' (enc (VPair (VFixed [Byte.x2a]) (VFixed (le_split 4 7))) 0) [Byte.xff] /\
    m_beg (buf s')
    = m_beg (buf (attached 4096
                    (enc (VPair (VFixed [Byte.x2a]) (VFixed (le_split 4 7))) 0
                     ++ [Byte.xff]))) /\
    heap s'
    = heap (attached 4096 (enc (VPair (VFixed [Byte.x2a]) (VFixed (le_split 4 7))) 0
                           ++ [Byte.xff])) /\
    log s'
    = log (attached 4096 (enc (VPair (VFixed [Byte.x2a]) (VFixed (le_split 4 7))) 0
                          ++ [Byte.xff])).
Proof.
  apply (skip_one_passes_one_value unsigned_lt (2 ^ 32) char_int
           (VPair (VFixed [Byte.x2a]) (VFixed (le_split 4 7))) _ [] [Byte.xff]).
  - cbn. repeat split; lia.
  - apply (frame_attached 4096
             (enc (VPair (VFixed [Byte.x2a]) (VFixed (le_split 4 7))) 0 ++ [Byte.xff]));
      [lia|vm_compute; reflexivity].
Defined.

Lemma len_pairs c z : forall k o,
  o mod 4 = 0 ->
  len (enc_calls (repeat (PackValue (ty_of char_int)
                            (VPair (VFixed [c]) (VFixed (le_split 4 z)))) k) o)
  = 8 * Z.of_nat k.
Proof.
  induction k as [|k IH]; intros o Ho; [reflexivity|].
  cbn [repeat enc_calls enc_call enc]. cbv zeta.
  change (len [c]) with 1. rewrite (len_le_split 4 z). change (Z.of_nat 4) with 4.
  lens. rewrite !len_enc_value by (try lia; apply (len_le_split 4 z) || reflexivity).
  rewrite align_one.
  assert (Ha : CommBufferAlign 4 (o + (0 + 1)) = 3).
  { unfold CommBufferAlign. change (4 =? 1) with false. cbv iota zeta.
    replace ((o + (0 + 1)) mod 4) with 1
      by (rewrite Z.add_mod, Ho by lia; reflexivity).
    reflexivity. }
  change (len [c]) with 1. rewrite !(len_le_split 4 z). change (Z.of_nat 4) with 4.
  rewrite Ha. rewrite IH.
  - lia.
  - replace (o + (0 + 1 + (3 + 4))) with (o + 2 * 4) by lia.
    now rewrite Z.mod_add by lia.
Qed.

(** [skip<std::pair<char,int>>(n)] skips [n] chars and then [n] ints; for
    every [n] of at least 2 that is fewer bytes than [n] packed pairs
    occupy, so it does not skip ahead by [n] values. *)
Theorem skip_of_pairs_falls_short n c z :
  2 <= n < 2 ^ 32 ->
  final_cursor (skip char_int n fresh)
  < final_cursor (sizing_run (repeat (PackValue (ty_of char_int)
                                        (VPair (VFixed [c]) (VFixed (le_split 4 z))))
                                     (Z.to_nat n))).
Proof.
  intros Hn.
  set (cs := repeat _ _).
  assert (Hok : Forall (call_ok unsigned_lt) cs).
  { apply Forall_forall. intros x Hx. apply repeat_spec in Hx. subst x.
    cbn. repeat split; try lia. }
  destruct (run_calls_both unsigned_lt cs Hok) as [HS _].
  destruct (sizing_fresh _ _ HS) as (p & E1 & Hp & Hx).
  unfold sizing_run. rewrite E1. cbn [final_cursor with_ptr buf m_ptr].
  unfold cs in Hx. rewrite (len_pairs c z _ 0 eq_refl) in Hx.
  rewrite Hx by lia.
  pose proof (align_range 4 (0 + (0 + 1 * n)) ltac:(lia)) as Ha.
  unfold char_int, skip, skip_value, bind, get_buf, set_m_ptr, ret, fresh.
  cbn [buf heap log m_beg m_ptr m_end CommBuffer_new Z.eqb negb andb final_cursor].
  rewrite align_one. rewrite !Z.sub_0_r in *.
  rewrite (wrap64_small (1 * n)) by lia. rewrite (wrap64_small (0 + 1 * n)) by lia.
  rewrite (wrap64_small (0 + (0 + 1 * n))) in * by lia.
  rewrite (wrap64_small (4 * n)) by lia. rewrite wrap64_small by lia. lia.
Qed.

Lemma skip_of_pairs_falls_short_witness :
  final_cursor (skip char_int 2 fresh)
  < final_cursor (sizing_run (repeat (PackValue (ty_of char_int)
                                        (VPair (VFixed [Byte.x2a])
                                               (VFixed (le_split 4 7))))
                                     (Z.to_nat 2))).
Proof. apply (skip_of_pairs_falls_short 2 Byte.x2a 7). lia. Defined.

(** On attached storage [remaining()] is the number of bytes from the
    cursor to the end, and equals [capacity() - size()]. *)
Theorem remaining_on_storage s pre rest :
  frame s pre rest ->
  remaining (buf s) = len rest /\
  remaining (buf s) = capacity (buf s) - size (buf s).
Proof.
  intros Hf. rewrite (size_framed _ _ _ Hf).
  destruct Hf as (_ & _ & _ & Hptr & Hend & Hlt).
  pose proof (len_nonneg pre). pose proof (len_nonneg rest).
  unfold remaining, capacity. rewrite Hend, Hptr.
  replace (m_beg (buf s) + len pre + len rest - m_beg (buf s))
    with (len pre + len rest) by lia.
  rewrite wrap64_small by lia. lia.
Qed.

Lemma remaining_on_storage_witness :
  remaining (buf (with_ptr (attached 4096 (calloc 8)) 4099)) = len (calloc 5) /\
  remaining (buf (with_ptr (attached 4096 (calloc 8)) 4099))
  = capacity (buf (with_ptr (attached 4096 (calloc 8)) 4099))
    - size (buf (with_ptr (attached 4096 (calloc 8)) 4099)).
Proof.
  apply (remaining_on_storage _ (calloc 3) (calloc 5)).
  unfold frame. vm_compute. repeat split; discriminate.
Defined.

(** After a sizing run that counted fewer than [2^63] bytes (the range of
    the [ptrdiff_t] that [remaining()] returns) the buffer reports no
    storage: [buffer()] is null and [capacity()] is 0, and [remaining()] is
    the negated byte count. *)
Theorem remaining_while_sizing key_lt cs :
  Forall (call_ok key_lt) cs ->
  final_cursor (sizing_run cs) < 2 ^ 63 ->
  exists s1,
    sizing_run cs = Ok tt s1 /\
    buffer (buf s1) = 0 /\ capacity (buf s1) = 0 /\
    remaining (buf s1) = - size (buf s1) /\ remaining (buf s1) <= 0.
Proof.
  intros Hok Hfit63.
  assert (Hfit : final_cursor (sizing_run cs) < 2 ^ 64) by lia.
  destruct (sizing_run_cursor key_lt cs Hok Hfit) as [E1 _].
  pose proof (len_nonneg (enc_calls cs 0)) as Hn.
  assert (Hlt : len (enc_calls cs 0) < 2 ^ 64).
  { destruct (sizing_run_cursor key_lt cs Hok Hfit) as [_ Hc]. lia. }
  eexists. split; [exact E1|].
  unfold buffer, capacity, remaining, size, with_ptr, fresh.
  cbn [buf m_beg m_ptr m_end CommBuffer_new]. rewrite !Z.sub_0_r.
  rewrite !wrap64_small by lia. repeat split; try reflexivity; lia.
Qed.

Lemma remaining_while_sizing_witness :
  exists s1,
    sizing_run [PackValue (TFixed 1) (VFixed [Byte.x2a]);
                PackValue (TFixed 4) (VFixed (le_split 4 7))] = Ok tt s1 /\
    buffer (buf s1) = 0 /\ capacity (buf s1) = 0 /\
    remaining (buf s1) = - size (buf s1) /\ remaining (buf s1) <= 0.
Proof.
  apply (remaining_while_sizing unsigned_lt).
  - repeat constructor; cbn; lia.
  - vm_compute. reflexivity.
Defined.

(** ** Supplements: the bounds check of unpack *)

(** On a buffer that spans its storage, [unpack] of a fixed-size value that
    does not fit between the cursor and the end never returns a value, and
    whichever way it ends it has first read [Size] bytes at the aligned
    cursor, which reach beyond the end of the buffer: the overflow is an
    out-of-bounds read before it is a signalled error. *)
Theorem unpack_short_reads_past_end Size s pre rest :
  1 <= Size ->
  frame s pre rest ->
  len rest < CommBufferAlign Size (len pre) + Size ->
  exists s',
    (unpack_value Size s = Undef s' \/
     unpack_value Size s = Throw unpack_overflow s') /\
    heap s' = heap s /\
    log s' = log s ++ [MemLoad (m_ptr (buf s) + CommBufferAlign Size (len pre)) Size] /\
    m_end (buf s) < m_ptr (buf s) + CommBufferAlign Size (len pre) + Size.
Proof.
  intros HS (Hb & Hbase & Hbytes & Hptr & Hend & Hlt) Hshort.
  pose proof (len_nonneg pre) as Hpre. pose proof (len_nonneg rest) as Hrest.
  pose proof (align_range Size (len pre) ltac:(lia)) as Ha.
  unfold unpack_value, bind at 1, get_buf.
  replace (m_ptr (buf s) - m_beg (buf s)) with (len pre) by lia.
  rewrite wrap64_small by lia.
  unfold bind at 1, load.
  replace (in_block _ _ _) with false.
  - eexists. split; [left; reflexivity|]. cbn [heap log].
    split; [reflexivity|]. split; [reflexivity|]. lia.
  - symmetry. unfold in_block. apply andb_false_iff. right.
    apply Z.leb_gt. rewrite Hbytes, Hbase. lens. lia.
Qed.

Lemma unpack_short_reads_past_end_witness :
  exists s',
    (unpack_value 8 (attached 4096 (calloc 4)) = Undef s' \/
     unpack_value 8 (attached 4096 (calloc 4)) = Throw unpack_overflow s') /\
    heap s' = heap (attached 4096 (calloc 4)) /\
    log s'
    = log (attached 4096 (calloc 4))
      ++ [MemLoad (m_ptr (buf (attached 4096 (calloc 4))) + CommBufferAlign 8 (len (@nil byte)))
            8] /\
    m_end (buf (attached 4096 (calloc 4)))
    < m_ptr (buf (attached 4096 (calloc 4))) + CommBufferAlign 8 (len (@nil byte)) + 8.
Proof.
  apply (unpack_short_reads_past_end 8 _ [] (calloc 4)).
  - lia.
  - apply frame_attached; [lia|vm_compute; reflexivity].
  - vm_compute. reflexivity.
Defined.

Lemma copy_in_log Size : forall number tmp s r s',
  copy_in Size tmp number s = Ok r s' ->
  log s' = log s ++ map (fun k => MemLoad (tmp + Z.of_nat k * Size) Size) (seq 0 number) /\
  buf s' = buf s /\ fst r = tmp + Z.of_nat number * Size.
Proof.
  induction number as [|n IH]; intros tmp s r s' E.
  - cbn in E. injection E as <- <-. cbn. rewrite app_nil_r.
    repeat split. lia.
  - cbn [copy_in] in E. unfold bind at 1 in E. unfold load in E.
    destruct (in_block _ _ _); [|discriminate].
    unfold bind at 1 in E.
    destruct (copy_in Size (tmp + Size) n _) as [r1 s1| |] eqn:E1; try discriminate.
    injection E as <- <-.
    destruct (IH _ _ _ _ E1) as (Hlog & Hbuf & Hfst).
    cbn [buf heap log fst] in *. rewrite Hlog, Hfst, Hbuf, <- app_assoc.
    split; [|split; [reflexivity|lia]].
    f_equal. cbn [seq map app]. f_equal.
    + f_equal. lia.
    + rewrite <- seq_shift, map_map. apply map_ext. intros k. f_equal. lia.
Qed.

Lemma copy_in_never_throws Size : forall number tmp s e s',
  copy_in Size tmp number s <> Throw e s'.
Proof.
  induction number as [|n IH]; intros tmp s e s' E; [discriminate|].
  cbn [copy_in] in E. unfold bind at 1, load in E.
  destruct (in_block _ _ _); [|discriminate].
  unfold bind at 1 in E.
  destruct (copy_in Size (tmp + Size) n _) as [r1 s1|e1 s1|s1] eqn:E2; try discriminate.
  exact (IH _ _ _ _ E2).
Qed.

(** When [unpack] of an array signals [unpack_overflow], it has already read
    every one of the [number] elements, in order, and left the cursor beyond
    the end of the buffer. *)
Theorem unpack_array_overflow_after_reads Size number s s' :
  0 <= number ->
  unpack_array Size number s = Throw unpack_overflow s' ->
  log s'
  = log s ++ map (fun k => MemLoad (m_ptr (buf s)
                                    + CommBufferAlign Size (size (buf s))
                                    + Z.of_nat k * Size) Size)
                 (seq 0 (Z.to_nat number)) /\
  m_ptr (buf s')
  = m_ptr (buf s) + CommBufferAlign Size (size (buf s)) + number * Size /\
  m_end (buf s') < m_ptr (buf s').
Proof.
  intros Hn E. unfold unpack_array, bind at 1, get_buf in E.
  fold (size (buf s)) in E. unfold bind at 1 in E.
  destruct (copy_in _ _ _ _) as [r s1| |] eqn:E1; try discriminate.
  - destruct (copy_in_log _ _ _ _ _ _ E1) as (Hlog & Hbuf & Hfst).
    unfold bind, set_m_ptr, get_buf, throw, ret in E.
    cbn [buf heap log m_beg m_ptr m_end] in E.
    destruct (m_end (buf s1) <? fst r) eqn:Elt; [|discriminate].
    injection E as <-. cbn [buf heap log m_ptr m_end].
    apply Z.ltb_lt in Elt. rewrite Hlog, Hfst in *.
    rewrite Z2Nat.id in * by lia. repeat split. exact Elt.
  - exfalso. exact (copy_in_never_throws _ _ _ _ _ _ E1).
Qed.

Lemma unpack_array_overflow_after_reads_witness :
  log (mkState (mkCommBuffer 4096 4104 4100) (mkHeap 4096 (calloc 16))
               [MemLoad 4096 4; MemLoad 4100 4])
  = log short_buffer
    ++ map (fun k => MemLoad (m_ptr (buf short_buffer)
                              + CommBufferAlign 4 (size (buf short_buffer))
                              + Z.of_nat k * 4) 4)
           (seq 0 (Z.to_nat 2)) /\
  m_ptr (buf (mkState (mkCommBuffer 4096 4104 4100) (mkHeap 4096 (calloc 16))
                      [MemLoad 4096 4; MemLoad 4100 4]))
  = m_ptr (buf short_buffer) + CommBufferAlign 4 (size (buf short_buffer)) + 2 * 4 /\
  m_end (buf (mkState (mkCommBuffer 4096 4104 4100) (mkHeap 4096 (calloc 16))
                      [MemLoad 4096 4; MemLoad 4100 4]))
  < m_ptr (buf (mkState (mkCommBuffer 4096 4104 4100) (mkHeap 4096 (calloc 16))
                        [MemLoad 4096 4; MemLoad 4100 4])).
Proof.
  apply (unpack_array_overflow_after_reads 4 2 short_buffer).
  - lia.
  - vm_compute. reflexivity.
Defined.

End BufferFacts.

(** * Properties of the exchange protocols *)

Module ExchangeFacts.
Import Exchange.

Section Facts.

Variable T : Type.
Variable T_zero : T.
Variable sizeof_T : Z.
Variable num_procs : Z.
Variable net_data : nat -> list T.
Variable net_sizes : nat -> Z.
Variable pack_msg : Z -> list T -> list T.
Variable arrival : nat -> Z.

Notation "x <-- m ;; k" := (xbind m (fun x => k))
  (at level 61, m at next level, right associativity).
Notation "m ;;;; k" := (xbind m (fun _ => k))
  (at level 61, right associativity).

Abbreviation run := (run T_zero sizeof_T num_procs net_data net_sizes pack_msg arrival).
Abbreviation valid := (valid num_procs net_sizes arrival).
Abbreviation expected_trace := (expected_trace sizeof_T num_procs net_sizes).
Abbreviation recv_count := (recv_count net_sizes).
Abbreviation ranks := (ranks num_procs).
Abbreviation n_procs := (Z.to_nat num_procs).

(** ** Containers *)

Lemma at_ok {D A} (v : list A) i dflt tr (d : D) :
  (i < length v)%nat ->
  @at_ T D A v i tr d = Returned (nth i v dflt) tr d.
Proof.
  intros Hi. unfold at_.
  destruct (nth_error v i) as [a|] eqn:E.
  - now rewrite (nth_error_nth _ _ dflt E).
  - apply nth_error_None in E. lia.
Qed.

Lemma length_set_nth {A} (v : list A) : forall i a, length (set_nth v i a) = length v.
Proof.
  induction v as [|x v IH]; intros [|i] a; cbn; auto.
Qed.

Lemma nth_set_nth {A} (v : list A) : forall i j a dflt,
  (i < length v)%nat ->
  nth j (set_nth v i a) dflt = if Nat.eqb j i then a else nth j v dflt.
Proof.
  induction v as [|x v IH]; intros [|i] [|j] a dflt Hi; cbn in *; try lia; auto.
  apply IH. lia.
Qed.

Lemma len_vresize (v : list T) k : len (vresize T_zero v k) = Z.of_nat k.
Proof.
  unfold vresize, len. rewrite length_app, length_firstn, repeat_length. lia.
Qed.

Lemma len_deliver (msg v : list T) : len (deliver msg v) = len v.
Proof.
  unfold deliver, len. rewrite length_app, length_firstn, length_skipn. lia.
Qed.

Lemma count_of_set_nth (d : list (list T)) i j r :
  (i < length d)%nat ->
  count_of (set_nth d i r) j = if Nat.eqb j i then len r else count_of d j.
Proof.
  intros Hi. unfold count_of. rewrite nth_set_nth by assumption.
  now destruct (Nat.eqb j i).
Qed.

Lemma length_procs {A} (v : list A) : 0 <= num_procs -> len v = num_procs -> length v = n_procs.
Proof. unfold len. lia. Qed.

(** ** Loops *)

Lemma for_from_spec {D} (I : nat -> D -> Prop) (g : nat -> list (event T))
    (body : nat -> X T D unit) : forall count lo,
  (forall i tr d, (lo <= i < lo + count)%nat -> I i d ->
     exists d', body i tr d = Returned tt (tr ++ g i) d' /\ I (S i) d') ->
  forall tr d, I lo d ->
    exists d', for_from lo count body tr d
               = Returned tt (tr ++ flat_map g (seq lo count)) d' /\
               I (lo + count)%nat d'.
Proof.
  induction count as [|count IH]; intros lo Hbody tr d HI.
  - exists d. cbn. now rewrite app_nil_r, Nat.add_0_r.
  - cbn [for_from seq flat_map]. unfold xbind.
    destruct (Hbody lo tr d ltac:(lia) HI) as (d1 & E1 & I1). rewrite E1.
    destruct (IH (S lo) (fun i tr d Hi => Hbody i tr d ltac:(lia)) (tr ++ g lo) d1 I1)
      as (d2 & E2 & I2).
    exists d2. rewrite E2, app_assoc. split; [reflexivity|].
    now replace (lo + S count)%nat with (S lo + count)%nat by lia.
Qed.

Lemma for_range_spec {D} (I : nat -> D -> Prop) (g : nat -> list (event T))
    (body : nat -> X T D unit) :
  (forall i tr d, (i < n_procs)%nat -> I i d ->
     exists d', body i tr d = Returned tt (tr ++ g i) d' /\ I (S i) d') ->
  forall tr d, I O d ->
    exists d', for_range num_procs body tr d = Returned tt (tr ++ flat_map g ranks) d' /\
               I n_procs d'.
Proof.
  intros Hbody tr d HI. unfold for_range, Exchange.ranks.
  apply (for_from_spec I g body n_procs 0); [|exact HI].
  intros i tr' d' Hi. apply Hbody. lia.
Qed.

Lemma flat_map_ranks_ext (g h : nat -> list (event T)) :
  (forall i, (i < n_procs)%nat -> g i = h i) -> flat_map g ranks = flat_map h ranks.
Proof.
  intros H. rewrite !flat_map_concat_map. f_equal.
  apply map_ext_in. intros i Hi. apply in_seq in Hi. apply H. lia.
Qed.

(** ** The loops the vector-based variants share *)

Lemma post_recv_ok msg_tag i tr (d : list (list T)) :
  (i < length d)%nat ->
  post_recv T sizeof_T msg_tag i tr d
  = Returned tt (tr ++ irecv_if T sizeof_T msg_tag (count_of d i) i) d.
Proof.
  intros Hi. unfold post_recv, xbind, get. rewrite (at_ok d i []) by assumption.
  unfold irecv_if, count_of. destruct (0 <? len (nth i d [])).
  - reflexivity.
  - unfold xret. now rewrite app_nil_r.
Qed.

Lemma send_data_loop_ok {D} send_lists msg_tag tr (d : D) :
  length send_lists = n_procs ->
  send_data_loop sizeof_T num_procs send_lists msg_tag tr d
  = Returned tt
      (tr ++ flat_map (fun i => send_if T sizeof_T msg_tag (count_of send_lists i) i) ranks) d.
Proof.
  intros Hlen. unfold send_data_loop.
  destruct (for_range_spec (fun _ d' => d' = d)
              (fun i => send_if T sizeof_T msg_tag (count_of send_lists i) i)
              (fun iproc =>
                 s <-- at_ send_lists iproc ;;
                 if 0 <? len s
                 then emit (MPI_Send (wrap_int (len s * class_size sizeof_T)) MPI_CHAR
                              (Z.of_nat iproc) msg_tag)
                 else xret tt)) with (tr := tr) (d := d) as (d' & E & ->);
    [|reflexivity|exact E].
  intros i tr' d' Hi ->. exists d. split; [|reflexivity].
  unfold xbind. rewrite (at_ok send_lists i []) by lia.
  unfold send_if, count_of. destruct (0 <? len (nth i send_lists [])).
  - reflexivity.
  - unfold xret. now rewrite app_nil_r.
Qed.

Lemma wait_data_loop_ok tr (d : list (list T)) :
  length d = n_procs ->
  exists d', wait_data_loop num_procs net_data tr d
             = Returned tt (tr ++ flat_map (fun i => wait_if T (count_of d i) i) ranks) d'.
Proof.
  intros Hlen. unfold wait_data_loop.
  destruct (for_range_spec
              (fun _ d' => length d' = n_procs /\ forall j, count_of d' j = count_of d j)
              (fun i => wait_if T (count_of d i) i)
              (fun iproc =>
                 recv_lists <-- get ;;
                 r <-- at_ recv_lists iproc ;;
                 if 0 <? len r
                 then emit (MPI_Wait iproc) ;;;;
                      put (set_nth recv_lists iproc (deliver (net_data iproc) r))
                 else xret tt)) with (tr := tr) (d := d) as (d' & E & _);
    [|now split|now exists d'].
  intros i tr' d' Hi [Hl Hc]. unfold xbind, get.
  rewrite (at_ok d' i []) by lia.
  unfold wait_if. rewrite <- (Hc i).
  change (count_of d' i) with (len (nth i d' [])).
  destruct (0 <? len (nth i d' [])).
  - eexists. split; [reflexivity|]. split; [now rewrite length_set_nth|].
    intros j. rewrite count_of_set_nth by lia.
    destruct (Nat.eqb_spec j i) as [->|]; [|apply Hc].
    rewrite len_deliver. apply Hc.
  - exists d'. unfold xret. rewrite app_nil_r. auto.
Qed.

Lemma xbind_returned {D A B} (m : X T D A) (k : A -> X T D B) tr d a tr' d' :
  m tr d = Returned a tr' d' -> xbind m k tr d = k a tr' d'.
Proof. intros H. unfold xbind. now rewrite H. Qed.

(** Barrier, sends and waits, as every vector-based variant ends. *)
Lemma data_round_tail msg_tag send_lists rcount tr (d : list (list T)) :
  length send_lists = n_procs -> length d = n_procs ->
  (forall i, (i < n_procs)%nat -> count_of d i = rcount i) ->
  exists d',
    (emit MPI_Barrier ;;;;
     send_data_loop sizeof_T num_procs send_lists msg_tag ;;;;
     wait_data_loop num_procs net_data) tr d
    = Returned tt
        (tr ++ [MPI_Barrier]
            ++ flat_map (fun i => send_if T sizeof_T msg_tag (count_of send_lists i) i) ranks
            ++ flat_map (fun i => wait_if T (rcount i) i) ranks) d'.
Proof.
  intros Hs Hd Hc. unfold xbind at 1, emit.
  rewrite (xbind_returned _ _ _ _ _ _ _ (send_data_loop_ok send_lists msg_tag _ d Hs)).
  destruct (wait_data_loop_ok
              ((tr ++ [MPI_Barrier]) ++
               flat_map (fun i => send_if T sizeof_T msg_tag (count_of send_lists i) i) ranks)
              d Hd) as (d' & E).
  exists d'. rewrite E. f_equal. rewrite <- !app_assoc. do 3 f_equal.
  apply flat_map_ranks_ext. intros i Hi. now rewrite Hc.
Qed.

(** ** The trace of each barrier-based variant *)

Lemma sym_known_trace send_lists recv_lists :
  valid (SymKnown send_lists recv_lists) ->
  run (SymKnown send_lists recv_lists) = (Returns, expected_trace (SymKnown send_lists recv_lists)).
Proof.
  intros (Hn & Hs & Hr).
  apply length_procs in Hs, Hr; try assumption.
  cbn [Exchange.run]. unfold parallel_data_exchange_sym_t.
  destruct (for_range_spec
              (fun i d => length d = n_procs /\
                          forall j, (j < i)%nat -> count_of d j = count_of send_lists j)
              (fun i => irecv_if T sizeof_T 10242 (count_of send_lists i) i)
              (fun iproc =>
                 recv_lists <-- get ;;
                 r <-- at_ recv_lists iproc ;;
                 s <-- at_ send_lists iproc ;;
                 put (set_nth recv_lists iproc (vresize T_zero r (length s))) ;;;;
                 post_recv T sizeof_T 10242 iproc)) with (tr := @nil (event T))
                                                         (d := recv_lists)
    as (d1 & E1 & Hl1 & Hc1).
  - intros i tr d Hi [Hl Hc]. unfold xbind, get.
    rewrite (at_ok d i []), (at_ok send_lists i []) by lia. unfold put.
    rewrite post_recv_ok by (rewrite length_set_nth; lia).
    rewrite count_of_set_nth, Nat.eqb_refl, len_vresize by lia.
    eexists. split; [reflexivity|]. split; [now rewrite length_set_nth|].
    intros j Hj. rewrite count_of_set_nth by lia.
    destruct (Nat.eqb_spec j i) as [->|Hne]; [now rewrite len_vresize|].
    apply Hc. lia.
  - split; [assumption|]. intros j Hj. lia.
  - rewrite (xbind_returned _ _ _ _ _ _ _ E1).
    match type of E1 with _ = Returned _ ?tr1 _ =>
      destruct (data_round_tail 10242 send_lists (count_of send_lists) tr1 d1 Hs Hl1 Hc1)
        as (d2 & E2) end.
    rewrite E2. reflexivity.
Qed.

Lemma resize_ok {D} (v : list T) k tr (d : D) :
  0 <= k -> resize T_zero v k tr d = Returned (vresize T_zero v (Z.to_nat k)) tr d.
Proof.
  intros Hk. unfold resize. now replace (k <? 0) with false by (symmetry; apply Z.ltb_ge; lia).
Qed.

Lemma size_unknown_trace send_lists recv_lists numToRecvFrom :
  valid (SizeUnknown send_lists recv_lists numToRecvFrom) ->
  run (SizeUnknown send_lists recv_lists numToRecvFrom)
  = (Returns, expected_trace (SizeUnknown send_lists recv_lists numToRecvFrom)).
Proof.
  intros (Hn & Hs & Hr & Hc & Hpos).
  cbn [Exchange.run]. unfold parallel_data_exchange_t.
  unfold xbind at 1, emit at 1. unfold xbind at 1, emit at 1. unfold xbind at 1, get at 1.
  unfold wrap32. rewrite Z.mod_small by lia. rewrite Hs, Hr, Z.eqb_refl. cbn [andb].
  unfold xbind at 1, xret at 1. unfold xbind at 1, emit at 1.
  assert (Hs' : length send_lists = n_procs) by (unfold len in *; lia).
  assert (Hr' : length recv_lists = n_procs) by (unfold len in *; lia).
  assert (Hc' : length numToRecvFrom = n_procs) by (unfold len in *; lia).
  match goal with |- context [xbind (for_range _ ?body) _ ?tr0 _] =>
    destruct (for_range_spec
                (fun i d => length d = n_procs /\
                            forall j, (j < i)%nat -> count_of d j = nth j numToRecvFrom 0)
                (fun i => irecv_if T sizeof_T 10242 (nth i numToRecvFrom 0) i)
                body) with (tr := tr0) (d := recv_lists)
      as (d1 & E1 & Hl1 & Hc1) end.
  - intros i tr d Hi [Hl Hcd]. unfold xbind, get.
    rewrite (at_ok d i []), (at_ok numToRecvFrom i 0) by lia.
    assert (0 <= nth i numToRecvFrom 0) as Hk.
    { rewrite Forall_forall in Hpos. apply Hpos, nth_In. lia. }
    rewrite resize_ok by assumption. unfold put.
    rewrite post_recv_ok by (rewrite length_set_nth; lia).
    rewrite count_of_set_nth, Nat.eqb_refl, len_vresize, Z2Nat.id by lia.
    eexists. split; [reflexivity|]. split; [now rewrite length_set_nth|].
    intros j Hj. rewrite count_of_set_nth by lia.
    destruct (Nat.eqb_spec j i) as [->|Hne]; [rewrite len_vresize; lia|].
    apply Hcd. lia.
  - split; [assumption|]. intros j Hj. lia.
  - rewrite (xbind_returned _ _ _ _ _ _ _ E1).
    match type of E1 with _ = Returned _ ?tr1 _ =>
      destruct (data_round_tail 10242 send_lists (fun i => nth i numToRecvFrom 0)
                  tr1 d1 Hs' Hl1 Hc1) as (d2 & E2) end.
    rewrite E2. reflexivity.
Qed.

Lemma slice_size_ok {D} offsets i tr (d : D) :
  (S i < length offsets)%nat ->
  slice_size T offsets i tr d = Returned (slice_of offsets i) tr d.
Proof.
  intros Hi. unfold slice_size, xbind.
  now rewrite (at_ok offsets (S i) 0), (at_ok offsets i 0) by lia.
Qed.

Lemma offset_known_trace sendOffsets sendData recvOffsets recvData :
  valid (OffsetKnown sendOffsets sendData recvOffsets recvData) ->
  run (OffsetKnown sendOffsets sendData recvOffsets recvData)
  = (Returns, expected_trace (OffsetKnown sendOffsets sendData recvOffsets recvData)).
Proof.
  intros (Hn & (Hsl & Hsok) & (Hrl & Hrok)).
  assert (Hsl' : length sendOffsets = S n_procs) by (unfold len in *; lia).
  assert (Hrl' : length recvOffsets = S n_procs) by (unfold len in *; lia).
  cbn [Exchange.run]. unfold parallel_data_exchange_nonsym_known_sizes_t.
  match goal with |- context [xbind (for_range _ ?body) _ ?tr0 _] =>
    destruct (for_range_spec (fun _ d => d = recvData)
                (fun i => irecv_if T sizeof_T 10243 (slice_of recvOffsets i) i)
                body) with (tr := tr0) (d := recvData)
      as (d1 & E1 & ->) end.
  - intros i tr d Hi ->. exists recvData. split; [|reflexivity].
    unfold xbind. rewrite slice_size_ok by lia. unfold irecv_if.
    destruct (0 <? slice_of recvOffsets i) eqn:Epos.
    + rewrite (at_ok recvOffsets i 0) by lia. unfold get.
      apply Z.ltb_lt in Epos. specialize (Hrok i Hi Epos).
      replace (_ && _) with true by (symmetry; apply andb_true_iff; lia).
      reflexivity.
    + unfold xret. now rewrite app_nil_r.
  - reflexivity.
  - rewrite (xbind_returned _ _ _ _ _ _ _ E1). clear E1.
    unfold xbind at 1, emit at 1.
    match goal with |- context [xbind (for_range _ ?body) _ ?tr0 _] =>
      destruct (for_range_spec (fun _ d => d = recvData)
                  (fun i => send_if T sizeof_T 10243 (slice_of sendOffsets i) i)
                  body) with (tr := tr0) (d := recvData)
        as (d2 & E2 & ->) end.
    + intros i tr d Hi ->. exists recvData. split; [|reflexivity].
      unfold xbind. rewrite slice_size_ok by lia. unfold send_if.
      destruct (0 <? slice_of sendOffsets i) eqn:Epos.
      * rewrite (at_ok sendOffsets i 0) by lia.
        apply Z.ltb_lt in Epos. specialize (Hsok i Hi Epos).
        replace (_ && _) with true by (symmetry; apply andb_true_iff; lia).
        reflexivity.
      * unfold xret. now rewrite app_nil_r.
    + reflexivity.
    + rewrite (xbind_returned _ _ _ _ _ _ _ E2). clear E2.
      match goal with |- context [for_range _ ?body ?tr0 _] =>
        destruct (for_range_spec (fun _ (_ : list T) => True)
                    (fun i => wait_if T (slice_of recvOffsets i) i)
                    body) with (tr := tr0) (d := recvData)
          as (d3 & E3 & _) end.
      * intros i tr d Hi _. unfold xbind. rewrite slice_size_ok by lia. unfold wait_if.
        destruct (0 <? slice_of recvOffsets i) eqn:Epos.
        -- unfold emit. cbv beta iota. rewrite (at_ok recvOffsets i 0) by lia.
           eexists. split; [reflexivity|exact I].
        -- exists d. unfold xret. now rewrite app_nil_r.
      * exact I.
      * rewrite E3. cbn [finish Exchange.expected_trace]. f_equal.
        unfold data_round. cbn [Exchange.recv_count Exchange.send_count app].
        now rewrite <- !app_assoc.
Qed.

Lemma flat_map_nothing {A B} (l : list A) : flat_map (fun _ => @nil B) l = [].
Proof. induction l; auto. Qed.

Lemma count_of_nonneg (d : list (list T)) i : 0 <= count_of d i.
Proof. unfold count_of, len. lia. Qed.

Lemma sym_unknown_trace send_lists recv_lists :
  valid (SymUnknown send_lists recv_lists) ->
  run (SymUnknown send_lists recv_lists)
  = (Returns, expected_trace (SymUnknown send_lists recv_lists)).
Proof.
  intros (Hn & Hs & Hr & Hsizes).
  apply length_procs in Hs, Hr; try assumption.
  cbn [Exchange.run]. unfold parallel_data_exchange_sym_unknown_size_t.
  (* the sizes to send are read *)
  match goal with |- context [xbind (for_range _ ?body) _ ?tr0 _] =>
    destruct (for_range_spec (fun _ d => d = recv_lists) (fun _ => []) body)
      with (tr := tr0) (d := recv_lists) as (d0 & E0 & ->) end.
  { intros i tr d Hi ->. exists recv_lists. unfold xbind.
    rewrite (at_ok send_lists i []) by lia. unfold xret. now rewrite app_nil_r. }
  { reflexivity. }
  rewrite (xbind_returned _ _ _ _ _ _ _ E0). clear E0.
  rewrite flat_map_nothing. cbn [app].
  (* receives for the size messages *)
  match goal with |- context [xbind (for_range _ ?body) _ ?tr0 _] =>
    destruct (for_range_spec (fun _ d => d = recv_lists)
                (fun i => if 0 <? count_of recv_lists i
                          then [MPI_Irecv 1 MPI_INT (Z.of_nat i) 10242 i] else [])
                body)
      with (tr := tr0) (d := recv_lists) as (d1 & E1 & ->) end.
  { intros i tr d Hi ->. exists recv_lists. split; [|reflexivity].
    unfold xbind, get. rewrite (at_ok recv_lists i []) by lia.
    change (len (nth i recv_lists [])) with (count_of recv_lists i).
    destruct (0 <? count_of recv_lists i); [reflexivity|].
    unfold xret. now rewrite app_nil_r. }
  { reflexivity. }
  rewrite (xbind_returned _ _ _ _ _ _ _ E1). clear E1.
  unfold xbind at 1, emit at 1.
  (* the size messages are sent *)
  match goal with |- context [xbind (for_range _ ?body) _ ?tr0 _] =>
    destruct (for_range_spec (fun _ d => d = recv_lists)
                (fun i => if 0 <? count_of send_lists i
                          then [MPI_Send 1 MPI_INT (Z.of_nat i) 10242] else [])
                body)
      with (tr := tr0) (d := recv_lists) as (d2 & E2 & ->) end.
  { intros i tr d Hi ->. exists recv_lists. split; [|reflexivity].
    unfold xbind. rewrite (at_ok send_lists i []) by lia.
    change (len (nth i send_lists [])) with (count_of send_lists i).
    destruct (0 <? count_of send_lists i); [reflexivity|].
    unfold xret. now rewrite app_nil_r. }
  { reflexivity. }
  rewrite (xbind_returned _ _ _ _ _ _ _ E2). clear E2.
  (* the size messages are waited for, and the receive lists resized *)
  match goal with |- context [xbind (for_range _ ?body) _ ?tr0 _] =>
    destruct (for_range_spec
                (fun i d => length d = n_procs /\
                   (forall j, (j < i)%nat ->
                      count_of d j = recv_count (SymUnknown send_lists recv_lists) j) /\
                   (forall j, (i <= j)%nat -> count_of d j = count_of recv_lists j))
                (fun i => wait_if T (count_of recv_lists i) i)
                body)
      with (tr := tr0) (d := recv_lists) as (d3 & E3 & Hl3 & Hc3 & _) end.
  { intros i tr d Hi (Hl & Hdone & Htodo). unfold xbind, get.
    rewrite (at_ok d i []) by lia.
    change (len (nth i d [])) with (count_of d i).
    rewrite (Htodo i) by lia. unfold wait_if.
    cbn [Exchange.recv_count] in *.
    destruct (0 <? count_of recv_lists i) eqn:Epos.
    - unfold emit. cbv beta iota.
      rewrite resize_ok by (apply Hsizes; apply Z.ltb_lt; exact Epos).
      unfold put. eexists. split; [reflexivity|].
      split; [now rewrite length_set_nth|]. split.
      + intros j Hj. rewrite count_of_set_nth by lia.
        destruct (Nat.eqb_spec j i) as [->|Hne]; [|apply Hdone; lia].
        rewrite Epos, len_vresize, Z2Nat.id; [reflexivity|].
        apply Hsizes. apply Z.ltb_lt. exact Epos.
      + intros j Hj. rewrite count_of_set_nth by lia.
        destruct (Nat.eqb_spec j i) as [->|Hne]; [lia|]. apply Htodo. lia.
    - exists d. unfold xret. rewrite app_nil_r. split; [reflexivity|].
      split; [assumption|]. split.
      + intros j Hj. destruct (Nat.eq_dec j i) as [->|Hne]; [|apply Hdone; lia].
        rewrite Epos, (Htodo i) by lia.
        apply Z.ltb_ge in Epos. pose proof (count_of_nonneg recv_lists i). lia.
      + intros j Hj. apply Htodo. lia. }
  { split; [assumption|]. split; [intros j Hj; lia|reflexivity]. }
  rewrite (xbind_returned _ _ _ _ _ _ _ E3). clear E3.
  (* receives for the data *)
  match goal with |- context [xbind (for_range _ ?body) _ ?tr0 _] =>
    destruct (for_range_spec (fun _ d => d = d3)
                (fun i => irecv_if T sizeof_T 10242 (count_of d3 i) i) body)
      with (tr := tr0) (d := d3) as (d4 & E4 & ->) end.
  { intros i tr d Hi ->. exists d3. split; [|reflexivity].
    apply post_recv_ok. lia. }
  { reflexivity. }
  rewrite (xbind_returned _ _ _ _ _ _ _ E4). clear E4.
  match goal with |- context [xbind _ _ ?tr0 d3] =>
    destruct (data_round_tail 10242 send_lists
                (recv_count (SymUnknown send_lists recv_lists)) tr0 d3 Hs Hl3 Hc3)
      as (d5 & E5) end.
  rewrite E5. cbn [finish Exchange.expected_trace]. f_equal.
  unfold size_round, data_round. cbn [Exchange.send_count app].
  rewrite (flat_map_ranks_ext _ _
             (fun i Hi => f_equal (fun c => irecv_if T sizeof_T 10242 c i) (Hc3 i Hi))).
  repeat (rewrite <- app_assoc || rewrite <- app_comm_cons). reflexivity.
Qed.

(** Every barrier-based variant, called within its preconditions, returns
    with the trace written out in [expected_trace]. *)
Lemma barrier_based_trace (v : variant T) :
  barrier_based v = true -> valid v -> run v = (Returns, expected_trace v).
Proof.
  destruct v; intros Hb Hv; try discriminate Hb.
  - now apply size_unknown_trace.
  - now apply sym_known_trace.
  - now apply offset_known_trace.
  - now apply sym_unknown_trace.
Qed.

(** ** Shapes of the written-out traces *)

Lemma Forall_flat_ranks (P : event T -> Prop) (g : nat -> list (event T)) :
  (forall i, Forall P (g i)) -> Forall P (flat_map g ranks).
Proof. intros H. apply Forall_flat_map, Forall_forall. intros i _. apply H. Qed.

Lemma requests_flat_map (g h : nat -> list (event T)) l :
  (forall i, map request (g i) = map request (h i)) ->
  map request (flat_map g l) = map request (flat_map h l).
Proof.
  intros H. induction l as [|i l IH]; [reflexivity|].
  cbn [flat_map]. now rewrite !map_app, H, IH.
Qed.

Lemma trio_data_round msg_tag rcount scount :
  trio (data_round T sizeof_T num_procs msg_tag rcount scount).
Proof.
  unfold trio, data_round. do 3 eexists. split; [reflexivity|].
  split; [|split; [|split]]; try (apply Forall_flat_ranks; intros i).
  - unfold irecv_if. destruct (0 <? rcount i); repeat constructor.
  - unfold send_if. destruct (0 <? scount i); repeat constructor.
  - unfold wait_if. destruct (0 <? rcount i); repeat constructor.
  - apply requests_flat_map. intros i. unfold irecv_if, wait_if.
    now destruct (0 <? rcount i).
Qed.

Lemma trio_size_round rcount scount :
  trio (size_round T num_procs rcount scount).
Proof.
  unfold trio, size_round. do 3 eexists. split; [reflexivity|].
  split; [|split; [|split]]; try (apply Forall_flat_ranks; intros i).
  - destruct (0 <? rcount i); repeat constructor.
  - destruct (0 <? scount i); repeat constructor.
  - unfold wait_if. destruct (0 <? rcount i); repeat constructor.
  - apply requests_flat_map. intros i. unfold wait_if.
    now destruct (0 <? rcount i).
Qed.

Lemma expected_trace_separated (v : variant T) :
  barrier_based v = true -> barrier_separated (expected_trace v).
Proof.
  destruct v; intros Hb; try discriminate Hb; unfold Exchange.barrier_separated;
    cbn [Exchange.expected_trace].
  - eexists; exists [data_round T sizeof_T num_procs 10242
                       (recv_count (SizeUnknown send_lists recv_lists numToRecvFrom))
                       (send_count (SizeUnknown send_lists recv_lists numToRecvFrom))].
    cbn [concat]. rewrite app_nil_r. split; [reflexivity|].
    repeat split; try discriminate; repeat constructor. apply trio_data_round.
  - exists [], [data_round T sizeof_T num_procs 10242
                  (recv_count (SymKnown send_lists recv_lists))
                  (send_count (SymKnown send_lists recv_lists))].
    cbn [concat app]. rewrite app_nil_r. split; [reflexivity|].
    repeat split; try discriminate; repeat constructor. apply trio_data_round.
  - exists [], [data_round T sizeof_T num_procs 10243
                  (recv_count (OffsetKnown sendOffsets sendData recvOffsets recvData))
                  (send_count (OffsetKnown sendOffsets sendData recvOffsets recvData))].
    cbn [concat app]. rewrite app_nil_r. split; [reflexivity|].
    repeat split; try discriminate; repeat constructor. apply trio_data_round.
  - exists [], [size_round T num_procs (count_of recv_lists) (count_of send_lists);
                data_round T sizeof_T num_procs 10242
                  (recv_count (SymUnknown send_lists recv_lists))
                  (send_count (SymUnknown send_lists recv_lists))].
    cbn [concat app]. rewrite app_nil_r. split; [reflexivity|].
    repeat split; try discriminate; repeat constructor;
      [apply trio_size_round | apply trio_data_round].
Qed.

(** Which receives a round posts. *)
Lemma irecv_in_flat_ranks (g : nat -> list (event T)) c dt src tag i :
  (forall j, In (MPI_Irecv c dt src tag i) (g j) -> j = i) ->
  In (MPI_Irecv c dt src tag i) (flat_map g ranks) <->
  (i < n_procs)%nat /\ In (MPI_Irecv c dt src tag i) (g i).
Proof.
  intros Hown. rewrite in_flat_map. split.
  - intros (j & Hj & Hin). pose proof (Hown j Hin). subst j.
    apply in_seq in Hj. split; [lia|assumption].
  - intros [Hi Hin]. exists i. split; [apply in_seq; lia|assumption].
Qed.

Lemma no_irecv_in_sends_and_waits (gs gw : nat -> list (event T)) c dt src tag i :
  (forall j, Forall is_send (gs j)) -> (forall j, Forall is_wait (gw j)) ->
  ~ In (MPI_Irecv c dt src tag i) ([MPI_Barrier] ++ flat_map gs ranks ++ flat_map gw ranks).
Proof.
  intros Hs Hw Hin. rewrite !in_app_iff in Hin.
  destruct Hin as [[Hb|[]]|[Hin|Hin]]; [discriminate Hb| |].
  - pose proof (Forall_flat_ranks is_send gs Hs) as HF.
    rewrite Forall_forall in HF. exact (HF _ Hin).
  - pose proof (Forall_flat_ranks is_wait gw Hw) as HF.
    rewrite Forall_forall in HF. exact (HF _ Hin).
Qed.

Lemma posted_data_round msg_tag rcount scount dt i :
  posted dt i (data_round T sizeof_T num_procs msg_tag rcount scount) <->
  (i < n_procs)%nat /\ 0 < rcount i /\ dt = MPI_CHAR.
Proof.
  unfold posted, data_round. split.
  - intros (c & src & tag & Hin). apply in_app_iff in Hin. destruct Hin as [Hin|Hin].
    + apply irecv_in_flat_ranks in Hin.
      * destruct Hin as [Hi Hin]. unfold irecv_if in Hin.
        destruct (0 <? rcount i) eqn:E; [|contradiction].
        destruct Hin as [Heq|[]]. injection Heq as _ <- _ _.
        apply Z.ltb_lt in E. auto.
      * intros j Hj. unfold irecv_if in Hj. destruct (0 <? rcount j); [|contradiction].
        destruct Hj as [Heq|[]]. now injection Heq.
    + exfalso. revert Hin. apply no_irecv_in_sends_and_waits; intros j.
      * unfold send_if. destruct (0 <? scount j); repeat constructor.
      * unfold wait_if. destruct (0 <? rcount j); repeat constructor.
  - intros (Hi & Hpos & ->).
    exists (wrap_int (rcount i * class_size sizeof_T)), (Z.of_nat i), msg_tag.
    apply in_app_iff. left. apply in_flat_map. exists i. split; [apply in_seq; lia|].
    unfold irecv_if. apply Z.ltb_lt in Hpos. rewrite Hpos. now left.
Qed.

Lemma posted_size_round rcount scount dt i :
  posted dt i (size_round T num_procs rcount scount) <->
  (i < n_procs)%nat /\ 0 < rcount i /\ dt = MPI_INT.
Proof.
  unfold posted, size_round. split.
  - intros (c & src & tag & Hin). apply in_app_iff in Hin. destruct Hin as [Hin|Hin].
    + apply irecv_in_flat_ranks in Hin.
      * destruct Hin as [Hi Hin].
        destruct (0 <? rcount i) eqn:E; [|contradiction].
        destruct Hin as [Heq|[]]. injection Heq as _ <- _ _.
        apply Z.ltb_lt in E. auto.
      * intros j Hj. destruct (0 <? rcount j); [|contradiction].
        destruct Hj as [Heq|[]]. now injection Heq.
    + exfalso. revert Hin. apply no_irecv_in_sends_and_waits; intros j.
      * destruct (0 <? scount j); repeat constructor.
      * unfold wait_if. destruct (0 <? rcount j); repeat constructor.
  - intros (Hi & Hpos & ->). exists 1, (Z.of_nat i), 10242.
    apply in_app_iff. left. apply in_flat_map. exists i. split; [apply in_seq; lia|].
    apply Z.ltb_lt in Hpos. rewrite Hpos. now left.
Qed.

Lemma posted_app dt i (tr1 tr2 : list (event T)) :
  posted dt i (tr1 ++ tr2) <-> posted dt i tr1 \/ posted dt i tr2.
Proof.
  unfold posted. split.
  - intros (c & src & tag & Hin). apply in_app_iff in Hin.
    destruct Hin; [left|right]; eauto.
  - intros [(c & src & tag & Hin)|(c & src & tag & Hin)];
      exists c, src, tag; apply in_app_iff; auto.
Qed.

(** ** The claims about the barrier-based variants *)


Lemma not_posted_queries dt i (q : list (event T)) :
  Forall is_query q -> ~ posted dt i q.
Proof.
  intros Hq (c & src & tag & Hin). rewrite Forall_forall in Hq. exact (Hq _ Hin).
Qed.

(** C6, as amended: in each of the four variants that are not the functor
    variant, called within its preconditions, a non-blocking data receive is
    posted on the request of rank [i] iff the number of elements to receive
    from [i], as known when the receives are posted, is greater than 0. *)
Theorem receive_posted_iff_size_positive (v : variant T) (i : nat) :
  barrier_based v = true -> valid v -> (i < n_procs)%nat ->
  exists tr, run v = (Returns, tr) /\
    (posted MPI_CHAR i tr <-> 0 < recv_count v i).
Proof.
  intros Hb Hv Hi. exists (expected_trace v).
  split; [now apply barrier_based_trace|].
  destruct v; try discriminate Hb; cbn [Exchange.expected_trace].
  - rewrite posted_app, posted_data_round. split.
    + intros [Hq|(_ & Hpos & _)]; [|exact Hpos].
      exfalso. revert Hq. apply not_posted_queries. repeat constructor.
    + intros Hpos. right. auto.
  - rewrite posted_data_round. split; [intros (_ & Hpos & _); exact Hpos|auto].
  - rewrite posted_data_round. split; [intros (_ & Hpos & _); exact Hpos|auto].
  - rewrite posted_app, posted_size_round, posted_data_round. split.
    + intros [(_ & _ & Hdt)|(_ & Hpos & _)]; [discriminate Hdt|exact Hpos].
    + intros Hpos. right. auto.
Qed.

(** The receives of the symmetric unknown-size variant for any sizes the
    size messages may carry: the receive for the size message of partner [i]
    is posted iff [recv_lists[i]] is non-empty on entry, and the data receive
    iff moreover the size received from [i] is greater than 0. *)
Lemma sym_unknown_receives send_lists recv_lists (i : nat) :
  valid (SymUnknown send_lists recv_lists) -> (i < n_procs)%nat ->
  exists tr, run (SymUnknown send_lists recv_lists) = (Returns, tr) /\
    (posted MPI_INT i tr <-> 0 < count_of recv_lists i) /\
    (posted MPI_CHAR i tr <-> 0 < count_of recv_lists i /\ 0 < net_sizes i) /\
    (count_of recv_lists i = 0 -> forall dt, ~ posted dt i tr).
Proof.
  intros Hv Hi. exists (expected_trace (SymUnknown send_lists recv_lists)).
  split; [now apply sym_unknown_trace|].
  cbn [Exchange.expected_trace].
  assert (Hdata : 0 < recv_count (SymUnknown send_lists recv_lists) i <->
                  0 < count_of recv_lists i /\ 0 < net_sizes i).
  { cbn [Exchange.recv_count]. destruct (0 <? count_of recv_lists i) eqn:E.
    - apply Z.ltb_lt in E. tauto.
    - apply Z.ltb_ge in E. lia. }
  split; [|split].
  - rewrite posted_app, posted_size_round, posted_data_round. split.
    + intros [(_ & Hpos & _)|(_ & _ & Hdt)]; [exact Hpos|discriminate Hdt].
    + intros Hpos. left. auto.
  - rewrite posted_app, posted_size_round, posted_data_round, <- Hdata. split.
    + intros [(_ & _ & Hdt)|(_ & Hpos & _)]; [discriminate Hdt|exact Hpos].
    + intros Hpos. right. auto.
  - intros Hz dt. rewrite posted_app, posted_size_round, posted_data_round, Hdata.
    intros [(_ & Hpos & _)|(_ & (Hpos & _) & _)]; lia.
Qed.


(** [parallel_data_exchange_t] checks its vectors against the group size:
    on a mismatch it fails its [ThrowRequire] after the two group queries,
    before anything is posted or sent. *)
Theorem require_reports_mismatch send_lists recv_lists numToRecvFrom :
  len send_lists <> wrap32 num_procs \/ len recv_lists <> wrap32 num_procs ->
  run (SizeUnknown send_lists recv_lists numToRecvFrom)
  = (Aborts RequireFailed, [MPI_Comm_size; MPI_Comm_rank]).
Proof.
  intros H. cbn [Exchange.run]. unfold parallel_data_exchange_t.
  unfold xbind at 1, emit at 1. unfold xbind at 1, emit at 1. unfold xbind at 1, get at 1.
  replace (_ && _) with false; [reflexivity|].
  symmetry. apply andb_false_iff.
  destruct H as [H|H]; [left|right]; apply Z.eqb_neq; congruence.
Qed.

(** ** The functor variant *)

Lemma for_from_rel {D} (I : nat -> D -> Prop) (R : nat -> list (event T) -> Prop)
    (body : nat -> X T D unit) : forall count lo,
  (forall i tr d, (lo <= i < lo + count)%nat -> I i d ->
     exists evs d', body i tr d = Returned tt (tr ++ evs) d' /\ R i evs /\ I (S i) d') ->
  forall tr d, I lo d ->
    exists evss d', for_from lo count body tr d = Returned tt (tr ++ concat evss) d' /\
                    Forall2 R (seq lo count) evss /\ I (lo + count)%nat d'.
Proof.
  induction count as [|count IH]; intros lo Hbody tr d HI.
  - exists [], d. cbn. rewrite app_nil_r, Nat.add_0_r. auto.
  - cbn [for_from seq]. unfold xbind.
    destruct (Hbody lo tr d ltac:(lia) HI) as (evs & d1 & E1 & R1 & I1). rewrite E1.
    destruct (IH (S lo) (fun i tr d Hi => Hbody i tr d ltac:(lia)) (tr ++ evs) d1 I1)
      as (evss & d2 & E2 & R2 & I2).
    exists (evs :: evss), d2. rewrite E2. cbn [concat]. rewrite app_assoc.
    split; [reflexivity|]. split; [now constructor|].
    now replace (lo + S count)%nat with (S lo + count)%nat by lia.
Qed.

Lemma unpacked_app (tr1 tr2 : list (event T)) :
  unpacked (tr1 ++ tr2) = unpacked tr1 ++ unpacked tr2.
Proof.
  induction tr1 as [|e tr1 IH]; [reflexivity|].
  destruct e; cbn [app unpacked]; rewrite IH; reflexivity.
Qed.

Lemma unpacked_concat (f : nat -> list Z) l (evss : list (list (event T))) :
  Forall2 (fun i evs => unpacked evs = f i) l evss ->
  unpacked (concat evss) = flat_map f l.
Proof.
  induction 1 as [|i evs l evss Hi _ IH]; [reflexivity|].
  cbn [concat flat_map]. now rewrite unpacked_app, Hi, IH.
Qed.

Lemma nth_of_each (l : list Z) : forall pre,
  flat_map (fun i => [nth i (pre ++ l) 0]) (seq (length pre) (length l)) = l.
Proof.
  induction l as [|a l IH]; intros pre; [reflexivity|].
  cbn [length seq flat_map app]. rewrite nth_middle. f_equal.
  specialize (IH (pre ++ [a])). rewrite <- app_assoc, length_app in IH. cbn in IH.
  now rewrite Nat.add_1_r in IH.
Qed.

Lemma wrap_int_small z : - 2 ^ 31 <= z < 2 ^ 31 -> wrap_int z = z.
Proof. intros H. unfold wrap_int. rewrite Z.mod_small; lia. Qed.

(** C8: with [deterministic = true] and a partner list whose length fits
    the [int] it is stored in, the functor variant returns; the unpack
    callback has been invoked once for each entry of [comm_procs], in list
    order; and the last transport call is the collective wait on all the
    sends. *)
Theorem deterministic_completion_order (comm_procs : list Z) :
  len comm_procs < 2 ^ 31 ->
  exists tr,
    run (Functor comm_procs true) = (Returns, tr ++ [MPI_Waitall (len comm_procs)]) /\
    unpacked tr = comm_procs.
Proof.
  intros Hlen. pose proof (len_nonneg_procs := Zle_0_nat (length comm_procs)).
  cbn [Exchange.run]. unfold parallel_data_exchange_sym_pack_unpack.
  rewrite wrap_int_small by (unfold len in *; lia).
  unfold xbind at 1. replace (len comm_procs <? 0) with false
    by (symmetry; apply Z.ltb_ge; unfold len; lia).
  unfold xret at 1. unfold xbind at 1, put at 1.
  unfold for_range. replace (Z.to_nat (len comm_procs)) with (length comm_procs)
    by (unfold len; lia).
  set (n := length comm_procs).
  match goal with |- context [xbind (for_from 0 n ?body) _ ?tr0 ?d0] =>
    destruct (for_from_rel
                (fun _ d => length (fst d) = n /\ length (snd d) = n)
                (fun _ evs => unpacked evs = []) body n 0)
      with (tr := tr0) (d := d0) as (evss1 & d1 & E1 & R1 & Hl1) end.
  { intros i tr d Hi [Hf Hs]. unfold xbind.
    rewrite (at_ok comm_procs i 0) by (fold n; lia). unfold get.
    rewrite (at_ok (fst d) i []) by lia. unfold emit.
    rewrite (at_ok (snd d) i []) by lia. unfold put.
    eexists; eexists. split; [rewrite <- !app_assoc; reflexivity|].
    split; [reflexivity|]. cbn [fst snd]. now rewrite !length_set_nth. }
  { cbn [fst snd]. now rewrite !repeat_length. }
  rewrite (xbind_returned _ _ _ _ _ _ _ E1). clear E1.
  match goal with |- context [xbind (for_from 0 n ?body) _ ?tr0 d1] =>
    destruct (for_from_rel
                (fun _ d => length (fst d) = n /\ length (snd d) = n)
                (fun i evs => unpacked evs = [nth i comm_procs 0]) body n 0)
      with (tr := tr0) (d := d1) as (evss2 & d2 & E2 & R2 & Hl2) end.
  { intros i tr d Hi [Hf Hs]. unfold xbind, emit, xret, at_Z.
    replace (Z.of_nat i <? 0) with false by (symmetry; apply Z.ltb_ge; lia).
    rewrite Nat2Z.id.
    rewrite (at_ok comm_procs i 0) by (fold n; lia). unfold get.
    rewrite (at_ok (snd d) i []) by lia. unfold put.
    eexists; eexists. split; [rewrite <- !app_assoc; reflexivity|].
    split; [reflexivity|]. cbn [fst snd]. now rewrite !length_set_nth. }
  { exact Hl1. }
  rewrite (xbind_returned _ _ _ _ _ _ _ E2). clear E2.
  unfold emit. cbn [finish app]. eexists. split; [reflexivity|].
  rewrite unpacked_app, (unpacked_concat (fun _ => []) _ _ R1),
    (unpacked_concat (fun i => [nth i comm_procs 0]) _ _ R2).
  rewrite flat_map_nothing. cbn [app].
  apply (nth_of_each comm_procs []).
Qed.

(** ** Supplements: the callback-based variant *)

Abbreviation functor_posts := (functor_posts T sizeof_T pack_msg).
Abbreviation functor_completions := (functor_completions T T_zero net_data pack_msg arrival).
Abbreviation handed := (handed T T_zero net_data pack_msg).
Abbreviation completion := (completion arrival).
Abbreviation packed_size := (packed_size T pack_msg).

Lemma deliver_idem (msg v : list T) : deliver msg (deliver msg v) = deliver msg v.
Proof.
  unfold deliver.
  assert (Hl : length (firstn (length v) msg ++ skipn (length msg) v) = length v).
  { rewrite length_app, length_firstn, length_skipn. lia. }
  rewrite Hl. f_equal.
  destruct (Nat.le_gt_cases (length v) (length msg)) as [Hle|Hgt].
  - rewrite (skipn_all2 v) by lia. rewrite app_nil_r.
    apply skipn_all2. rewrite length_firstn. lia.
  - rewrite firstn_all2 by lia. rewrite skipn_app, skipn_all, Nat.sub_diag. reflexivity.
Qed.

Lemma deliver_same_length (msg v : list T) : length msg = length v -> deliver msg v = msg.
Proof.
  intros H. unfold deliver. rewrite <- H, firstn_all, skipn_all2 by lia. apply app_nil_r.
Qed.

Lemma vresize_nil k : vresize T_zero [] k = repeat T_zero k.
Proof. unfold vresize. rewrite firstn_nil. cbn [app length]. now rewrite Nat.sub_0_r. Qed.

Lemma at_Z_ok {D A} (v : list A) idx dflt tr (d : D) :
  0 <= idx -> (Z.to_nat idx < length v)%nat ->
  @at_Z T D A v idx tr d = Returned (nth (Z.to_nat idx) v dflt) tr d.
Proof.
  intros H0 Hlt. unfold at_Z.
  replace (idx <? 0) with false by (symmetry; apply Z.ltb_ge; lia).
  now apply at_ok.
Qed.

(** The callback-based variant at work: every call that meets the
    preconditions returns, with exactly this trace. *)
Lemma functor_run (comm_procs : list Z) (deterministic : bool) :
  valid (@Functor T comm_procs deterministic) ->
  run (Functor comm_procs deterministic)
  = (Returns,
     functor_posts comm_procs ++ functor_completions comm_procs deterministic
     ++ [MPI_Waitall (len comm_procs)]).
Proof.
  intros [Hlen Harr]. pose proof (Zle_0_nat (length comm_procs)) as Hnn.
  cbn [Exchange.run]. unfold parallel_data_exchange_sym_pack_unpack.
  rewrite wrap_int_small by (unfold len in *; lia).
  unfold xbind at 1. replace (len comm_procs <? 0) with false
    by (symmetry; apply Z.ltb_ge; unfold len; lia).
  unfold xret at 1. unfold xbind at 1, put at 1.
  unfold for_range. replace (Z.to_nat (len comm_procs)) with (length comm_procs)
    by (unfold len; lia).
  set (n := length comm_procs) in *.
  match goal with |- context [xbind (for_from 0 n ?body) _ ?tr0 ?d0] =>
    destruct (for_from_spec
                (fun i d =>
                   length (fst d) = n /\ length (snd d) = n /\
                   (forall j, (j < i)%nat ->
                      nth j (snd d) [] = repeat T_zero (packed_size (nth j comm_procs 0))) /\
                   (forall j, (i <= j)%nat ->
                      nth j (fst d) [] = [] /\ nth j (snd d) [] = []))
                (fun i =>
                   let iproc := nth i comm_procs 0 in
                   let buf_size :=
                     wrap_int (Z.of_nat (packed_size iproc) * class_size sizeof_T) in
                   [pack_msg_call iproc;
                    MPI_Irecv buf_size MPI_CHAR iproc 10242 i;
                    MPI_Isend buf_size MPI_CHAR iproc 10242 i])
                body n 0)
      with (tr := tr0) (d := d0) as (d1 & E1 & Hf1 & Hs1 & Hdone1 & _) end.
  { intros i tr d Hi (Hf & Hs & Hdone & Htodo). unfold xbind.
    rewrite (at_ok comm_procs i 0) by (fold n; lia). unfold get.
    rewrite (at_ok (fst d) i []) by lia. unfold emit.
    rewrite (at_ok (snd d) i []) by lia. unfold put.
    destruct (Htodo i ltac:(lia)) as [-> ->].
    rewrite len_vresize, vresize_nil.
    eexists. split; [rewrite <- !app_assoc; reflexivity|].
    cbn [fst snd]. rewrite !length_set_nth. split; [assumption|]. split; [assumption|].
    split.
    - intros j Hj. rewrite nth_set_nth by lia.
      destruct (Nat.eqb_spec j i) as [->|Hne]; [reflexivity|]. apply Hdone. lia.
    - intros j Hj. rewrite !nth_set_nth by lia.
      destruct (Nat.eqb_spec j i) as [->|Hne]; [lia|]. apply Htodo. lia. }
  { cbn [fst snd]. rewrite !repeat_length. split; [reflexivity|]. split; [reflexivity|].
    split; [intros j Hj; lia|]. intros j _.
    assert (Hnil : forall k, nth j (repeat (@nil T) k) [] = []).
    { intros k. destruct (Nat.lt_ge_cases j k);
        [now apply nth_repeat_lt|apply nth_overflow; now rewrite repeat_length]. }
    now rewrite Hnil. }
  rewrite (xbind_returned _ _ _ _ _ _ _ E1). clear E1.
  match goal with |- context [xbind (for_from 0 n ?body) _ ?tr0 d1] =>
    destruct (for_from_spec
                (fun _ d =>
                   length (snd d) = n /\
                   forall j, (j < n)%nat ->
                     deliver (net_data j) (nth j (snd d) []) = handed comm_procs j)
                (fun k =>
                   let idx := completion deterministic k in
                   [if deterministic then MPI_Wait k
                    else MPI_Waitany (len comm_procs) (arrival k);
                    unpack_msg_call (nth idx comm_procs 0) (handed comm_procs idx)])
                body n 0)
      with (tr := tr0) (d := d1) as (d2 & E2 & _) end.
  { intros k tr d Hk (Hs & Hinv). unfold xbind.
    assert (Hidx : (completion deterministic k < n)%nat /\
                   (if deterministic
                    then emit (MPI_Wait k) ;;;; xret (Z.of_nat k)
                    else emit (MPI_Waitany (len comm_procs) (arrival k)) ;;;;
                         xret (arrival k)) tr d
                   = Returned (Z.of_nat (completion deterministic k))
                       (tr ++ [if deterministic then MPI_Wait k
                               else MPI_Waitany (len comm_procs) (arrival k)]) d).
    { unfold Exchange.completion. destruct deterministic.
      - split; [lia|reflexivity].
      - specialize (Harr eq_refl k ltac:(fold n; lia)). unfold len in Harr. fold n in Harr.
        split; [lia|]. unfold xbind, emit, xret. now rewrite Z2Nat.id by lia. }
    destruct Hidx as [Hidx Ewait]. unfold xbind in Ewait. rewrite Ewait.
    rewrite (at_Z_ok comm_procs _ 0) by (rewrite ?Nat2Z.id; fold n; lia). unfold get.
    rewrite (at_Z_ok (snd d) _ []) by (rewrite ?Nat2Z.id; lia). unfold put, emit.
    rewrite !Nat2Z.id. rewrite (Hinv _ Hidx).
    eexists. split; [rewrite <- !app_assoc; reflexivity|].
    cbn [fst snd]. rewrite length_set_nth. split; [assumption|].
    intros j Hj. rewrite nth_set_nth by lia.
    destruct (Nat.eqb_spec j (completion deterministic k)) as [->|Hne]; [|now apply Hinv].
    rewrite <- (Hinv _ Hidx). apply deliver_idem. }
  { split; [assumption|]. intros j Hj. now rewrite Hdone1 by lia. }
  rewrite (xbind_returned _ _ _ _ _ _ _ E2). clear E2.
  unfold emit. cbn [finish app]. rewrite <- !app_assoc. reflexivity.
Qed.

Lemma unpacked_flat_map {A} (g : A -> list (event T)) l :
  unpacked (flat_map g l) = flat_map (fun i => unpacked (g i)) l.
Proof.
  induction l as [|a l IH]; [reflexivity|]. cbn [flat_map]. now rewrite unpacked_app, IH.
Qed.

Lemma flat_map_singletons {A B} (f : A -> B) l : flat_map (fun i => [f i]) l = map f l.
Proof. induction l as [|a l IH]; [reflexivity|]. cbn. now rewrite IH. Qed.

Lemma unpacked_posts comm_procs : unpacked (functor_posts comm_procs) = [].
Proof. unfold Exchange.functor_posts. rewrite unpacked_flat_map. apply flat_map_nothing. Qed.

Lemma unpacked_completions comm_procs deterministic :
  unpacked (functor_completions comm_procs deterministic)
  = map (fun k => nth (completion deterministic k) comm_procs 0)
        (seq 0 (length comm_procs)).
Proof.
  unfold Exchange.functor_completions. rewrite unpacked_flat_map.
  rewrite <- flat_map_singletons. apply flat_map_ext. intros k.
  destruct deterministic; reflexivity.
Qed.

(** In the non-deterministic mode the unpack callback is invoked in the
    order in which [MPI_Waitany] reports the receives as complete. *)
Theorem waitany_completion_order (comm_procs : list Z) :
  valid (@Functor T comm_procs false) ->
  exists tr,
    run (Functor comm_procs false) = (Returns, tr ++ [MPI_Waitall (len comm_procs)]) /\
    unpacked tr
    = map (fun k => nth (Z.to_nat (arrival k)) comm_procs 0) (seq 0 (length comm_procs)).
Proof.
  intros Hv. rewrite (functor_run comm_procs false Hv).
  exists (functor_posts comm_procs ++ functor_completions comm_procs false).
  split; [now rewrite <- app_assoc|].
  rewrite unpacked_app, unpacked_posts, unpacked_completions. reflexivity.
Qed.

(** When [MPI_Waitany] reports every request once, the unpack callback is
    invoked exactly once for every partner: no message is dropped and none
    is unpacked twice, whatever the order of arrival. *)
Theorem every_partner_unpacked_once (comm_procs : list Z) :
  valid (@Functor T comm_procs false) ->
  Permutation (map (fun k => Z.to_nat (arrival k)) (seq 0 (length comm_procs)))
              (seq 0 (length comm_procs)) ->
  exists tr,
    run (Functor comm_procs false) = (Returns, tr ++ [MPI_Waitall (len comm_procs)]) /\
    Permutation (unpacked tr) comm_procs.
Proof.
  intros Hv Hperm. rewrite (functor_run comm_procs false Hv).
  exists (functor_posts comm_procs ++ functor_completions comm_procs false).
  split; [now rewrite <- app_assoc|].
  rewrite unpacked_app, unpacked_posts, unpacked_completions. cbn [app].
  unfold Exchange.completion.
  rewrite <- (map_map (fun k => Z.to_nat (arrival k)) (fun i => nth i comm_procs 0)).
  rewrite (Permutation_map (fun i => nth i comm_procs 0) Hperm).
  rewrite <- flat_map_singletons.
  pose proof (nth_of_each comm_procs []) as Hall. cbn [app length] in Hall.
  now rewrite Hall.
Qed.

Lemma not_post_completions comm_procs deterministic :
  Forall (fun e => ~ is_post e /\ e <> MPI_Barrier)
         (functor_completions comm_procs deterministic ++ [MPI_Waitall (len comm_procs)]).
Proof.
  apply Forall_app. split.
  - unfold Exchange.functor_completions. apply Forall_flat_map, Forall_forall. intros k _.
    destruct deterministic; repeat constructor; cbn; auto; discriminate.
  - repeat constructor; cbn; auto; discriminate.
Qed.

(** The callback-based variant posts, for each partner in list order, the
    pack callback, a receive and a send of the same byte count (the packed
    elements times [sizeof(T)]), to the same partner, with tag 10242 and on
    request [i]; nothing is posted after the first wait, and no barrier is
    passed. *)
Theorem functor_posts_then_completes (comm_procs : list Z) (deterministic : bool) :
  valid (@Functor T comm_procs deterministic) ->
  exists rest,
    run (Functor comm_procs deterministic) = (Returns, functor_posts comm_procs ++ rest) /\
    Forall (fun e => ~ is_post e) rest /\
    ~ In MPI_Barrier (functor_posts comm_procs ++ rest).
Proof.
  intros Hv. rewrite (functor_run comm_procs deterministic Hv).
  eexists. split; [reflexivity|].
  pose proof (not_post_completions comm_procs deterministic) as H.
  split.
  - eapply Forall_impl; [|exact H]. cbn. tauto.
  - rewrite in_app_iff. intros [Hin|Hin].
    + unfold Exchange.functor_posts in Hin. apply in_flat_map in Hin.
      destruct Hin as (i & _ & Hin). cbn in Hin.
      destruct Hin as [Hin|[Hin|[Hin|[]]]]; discriminate.
    + rewrite Forall_forall in H. now apply (H _ Hin).
Qed.

(** Every invocation of the unpack callback is for a partner of the list and
    hands over as many elements as this participant packed for that partner;
    when the partner sent just as many, they are the partner's message. *)
Theorem unpack_receives_partner_message (comm_procs : list Z) (deterministic : bool) :
  valid (@Functor T comm_procs deterministic) ->
  exists tr,
    run (Functor comm_procs deterministic) = (Returns, tr) /\
    forall iproc data, In (unpack_msg_call iproc data) tr ->
      exists idx, (idx < length comm_procs)%nat /\ iproc = nth idx comm_procs 0 /\
        length data = packed_size iproc /\
        (length (net_data idx) = packed_size iproc -> data = net_data idx).
Proof.
  intros Hv. rewrite (functor_run comm_procs deterministic Hv).
  eexists. split; [reflexivity|]. intros iproc data Hin.
  destruct Hv as [Hlen Harr].
  rewrite !in_app_iff in Hin. destruct Hin as [Hin|[Hin|Hin]].
  - unfold Exchange.functor_posts in Hin. apply in_flat_map in Hin.
    destruct Hin as (i & _ & Hin). cbn in Hin.
    destruct Hin as [Hin|[Hin|[Hin|[]]]]; discriminate.
  - unfold Exchange.functor_completions in Hin. apply in_flat_map in Hin.
    destruct Hin as (k & Hk & Hin). apply in_seq in Hk.
    assert (Hidx : (completion deterministic k < length comm_procs)%nat).
    { unfold Exchange.completion. destruct deterministic; [lia|].
      specialize (Harr eq_refl k ltac:(lia)). unfold len in Harr. lia. }
    cbn [In] in Hin. destruct Hin as [Hin|[Hin|[]]];
      [destruct deterministic; discriminate|].
    injection Hin as <- <-.
    exists (completion deterministic k). split; [exact Hidx|]. split; [reflexivity|].
    unfold Exchange.handed. split.
    + apply Nat2Z.inj. fold (len (deliver (net_data (completion deterministic k))
                                   (repeat T_zero
                                      (packed_size (nth (completion deterministic k)
                                                        comm_procs 0))))).
      rewrite len_deliver. unfold len. now rewrite repeat_length.
    + intros Hsame. apply deliver_same_length. now rewrite repeat_length.
  - destruct Hin as [Hin|[]]. discriminate.
Qed.

(** ** Supplements: the envelope of the data messages *)

Abbreviation class_size := (class_size sizeof_T).

Lemma in_ranks i : In i ranks <-> (i < n_procs)%nat.
Proof. unfold Exchange.ranks. rewrite in_seq. lia. Qed.

Lemma send_in_data_round msg_tag rcount scount c tag i :
  (i < n_procs)%nat ->
  In (MPI_Send c MPI_CHAR (Z.of_nat i) tag)
     (data_round T sizeof_T num_procs msg_tag rcount scount) <->
  0 < scount i /\ c = wrap_int (scount i * class_size) /\ tag = msg_tag.
Proof.
  intros Hi. unfold data_round. rewrite !in_app_iff, !in_flat_map. split.
  - intros [(j & _ & Hin)|[Hin|[(j & _ & Hin)|(j & _ & Hin)]]].
    + unfold irecv_if in Hin. destruct (0 <? rcount j); [destruct Hin as [H|[]]; discriminate|destruct Hin].
    + destruct Hin as [H|[]]; discriminate.
    + unfold send_if in Hin. destruct (0 <? scount j) eqn:E; [|destruct Hin].
      destruct Hin as [H|[]]. injection H as Hc Hj Ht. apply Nat2Z.inj in Hj. subst j.
      apply Z.ltb_lt in E. auto.
    + unfold wait_if in Hin. destruct (0 <? rcount j); [destruct Hin as [H|[]]; discriminate|destruct Hin].
  - intros (Hpos & -> & ->). right. right. left. exists i. split; [now apply in_ranks|].
    unfold send_if. apply Z.ltb_lt in Hpos. rewrite Hpos. now left.
Qed.

Lemma irecv_in_data_round msg_tag rcount scount c src tag i :
  (i < n_procs)%nat ->
  In (MPI_Irecv c MPI_CHAR src tag i)
     (data_round T sizeof_T num_procs msg_tag rcount scount) <->
  0 < rcount i /\ c = wrap_int (rcount i * class_size) /\ src = Z.of_nat i /\ tag = msg_tag.
Proof.
  intros Hi. unfold data_round. rewrite !in_app_iff, !in_flat_map. split.
  - intros [(j & _ & Hin)|[Hin|[(j & _ & Hin)|(j & _ & Hin)]]].
    + unfold irecv_if in Hin. destruct (0 <? rcount j) eqn:E; [|destruct Hin].
      destruct Hin as [H|[]]. injection H as Hc Hs Ht Hj. subst j.
      apply Z.ltb_lt in E. auto.
    + destruct Hin as [H|[]]; discriminate.
    + unfold send_if in Hin. destruct (0 <? scount j); [destruct Hin as [H|[]]; discriminate|destruct Hin].
    + unfold wait_if in Hin. destruct (0 <? rcount j); [destruct Hin as [H|[]]; discriminate|destruct Hin].
  - intros (Hpos & -> & -> & ->). left. exists i. split; [now apply in_ranks|].
    unfold irecv_if. apply Z.ltb_lt in Hpos. rewrite Hpos. now left.
Qed.

Lemma no_char_message_in_size_round rcount scount (e : event T) :
  In e (size_round T num_procs rcount scount) ->
  match e with
  | MPI_Send _ dt _ _ | MPI_Irecv _ dt _ _ _ => dt = MPI_INT
  | _ => True
  end.
Proof.
  unfold size_round. rewrite !in_app_iff, !in_flat_map.
  intros [(j & _ & Hin)|[Hin|[(j & _ & Hin)|(j & _ & Hin)]]].
  - destruct (0 <? rcount j); [destruct Hin as [<-|[]]; reflexivity|destruct Hin].
  - destruct Hin as [<-|[]]; exact I.
  - destruct (0 <? scount j); [destruct Hin as [<-|[]]; reflexivity|destruct Hin].
  - unfold wait_if in Hin. destruct (0 <? rcount j); [destruct Hin as [<-|[]]; exact I|destruct Hin].
Qed.

Lemma send_in_expected (v : variant T) c tag i :
  barrier_based v = true -> (i < n_procs)%nat ->
  In (MPI_Send c MPI_CHAR (Z.of_nat i) tag) (expected_trace v) <->
  0 < send_count v i /\ c = wrap_int (send_count v i * class_size) /\ tag = msg_tag_of v.
Proof.
  intros Hb Hi. destruct v; try discriminate Hb; cbn [Exchange.expected_trace msg_tag_of].
  - rewrite in_app_iff, send_in_data_round by assumption.
    split; [intros [Hq|H]; [|exact H]|auto].
    destruct Hq as [H|[H|[H|[]]]]; discriminate.
  - now apply send_in_data_round.
  - now apply send_in_data_round.
  - rewrite in_app_iff, send_in_data_round by assumption.
    split; [intros [Hq|H]; [|exact H]|auto].
    apply no_char_message_in_size_round in Hq. discriminate.
Qed.

Lemma irecv_in_expected (v : variant T) c src tag i :
  barrier_based v = true -> (i < n_procs)%nat ->
  In (MPI_Irecv c MPI_CHAR src tag i) (expected_trace v) <->
  0 < recv_count v i /\ c = wrap_int (recv_count v i * class_size) /\
  src = Z.of_nat i /\ tag = msg_tag_of v.
Proof.
  intros Hb Hi. destruct v; try discriminate Hb; cbn [Exchange.expected_trace msg_tag_of].
  - rewrite in_app_iff, irecv_in_data_round by assumption.
    split; [intros [Hq|H]; [|exact H]|auto].
    destruct Hq as [H|[H|[H|[]]]]; discriminate.
  - now apply irecv_in_data_round.
  - now apply irecv_in_data_round.
  - rewrite in_app_iff, irecv_in_data_round by assumption.
    split; [intros [Hq|H]; [|exact H]|auto].
    apply no_char_message_in_size_round in Hq. discriminate.
Qed.

(** A barrier-based variant sends data to rank [i] exactly when the send
    size for [i] is positive, and then in one blocking send of
    [size * sizeof(T)] bytes (as an [int]) with the tag of the variant:
    10243 for the offset-based variant, 10242 for the others. *)
Theorem data_send_envelope (v : variant T) (i : nat) :
  barrier_based v = true -> valid v -> (i < n_procs)%nat ->
  exists tr, run v = (Returns, tr) /\
    forall count tag,
      In (MPI_Send count MPI_CHAR (Z.of_nat i) tag) tr <->
      0 < send_count v i /\ count = wrap_int (send_count v i * class_size) /\
      tag = msg_tag_of v.
Proof.
  intros Hb Hv Hi. rewrite (barrier_based_trace v Hb Hv).
  eexists. split; [reflexivity|]. intros count tag. now apply send_in_expected.
Qed.

(** The data receive a barrier-based variant posts on request [i] is from
    rank [i], of [size * sizeof(T)] bytes (as an [int]), with the tag of the
    variant, so that it matches the data send of a partner running the same
    variant with the same size. *)
Theorem data_receive_envelope (v : variant T) (i : nat) :
  barrier_based v = true -> valid v -> (i < n_procs)%nat ->
  exists tr, run v = (Returns, tr) /\
    forall count source tag,
      In (MPI_Irecv count MPI_CHAR source tag i) tr <->
      0 < recv_count v i /\ count = wrap_int (recv_count v i * class_size) /\
      source = Z.of_nat i /\ tag = msg_tag_of v.
Proof.
  intros Hb Hv Hi. rewrite (barrier_based_trace v Hb Hv).
  eexists. split; [reflexivity|]. intros count source tag. now apply irecv_in_expected.
Qed.

(** The byte count of a data send is computed in [int]: when the send size
    times [sizeof(T)] is [2^31] or more (and below [2^32]), the send is made
    with a negative byte count. *)
Theorem byte_count_overflows_int (v : variant T) (i : nat) :
  barrier_based v = true -> valid v -> (i < n_procs)%nat ->
  0 < send_count v i ->
  2 ^ 31 <= send_count v i * class_size < 2 ^ 32 ->
  exists tr count,
    run v = (Returns, tr) /\
    In (MPI_Send count MPI_CHAR (Z.of_nat i) (msg_tag_of v)) tr /\ count < 0.
Proof.
  intros Hb Hv Hi Hpos Hbig. rewrite (barrier_based_trace v Hb Hv).
  exists (expected_trace v), (wrap_int (send_count v i * class_size)).
  split; [reflexivity|]. split.
  - apply send_in_expected; auto.
  - unfold wrap_int.
    replace ((send_count v i * class_size + 2 ^ 31) mod 2 ^ 32)
      with (send_count v i * class_size - 2 ^ 31); [lia|].
    apply Z.mod_unique with (q := 1); lia.
Qed.

(** ** Supplements: what the receive lists hold on return *)

Abbreviation received := (received T T_zero sizeof_T num_procs net_data net_sizes).

Lemma wait_data_loop_delivers tr (d : list (list T)) :
  length d = n_procs ->
  exists tr' d',
    wait_data_loop num_procs net_data tr d = Returned tt tr' d' /\
    length d' = n_procs /\
    forall j, (j < n_procs)%nat ->
      nth j d' [] = if 0 <? count_of d j then deliver (net_data j) (nth j d [])
                    else nth j d [].
Proof.
  intros Hlen. unfold wait_data_loop.
  destruct (for_range_spec
              (fun i d' => length d' = n_procs /\
                 (forall j, (j < i)%nat ->
                    nth j d' [] = if 0 <? count_of d j
                                  then deliver (net_data j) (nth j d []) else nth j d []) /\
                 (forall j, (i <= j)%nat -> nth j d' [] = nth j d []))
              (fun i => wait_if T (count_of d i) i)
              (fun iproc =>
                 recv_lists <-- get ;;
                 r <-- at_ recv_lists iproc ;;
                 if 0 <? len r
                 then emit (MPI_Wait iproc) ;;;;
                      put (set_nth recv_lists iproc (deliver (net_data iproc) r))
                 else xret tt)) with (tr := tr) (d := d) as (d' & E & Hl & Hdone & _).
  - intros i tr' d' Hi (Hl & Hdone & Htodo). unfold xbind, get.
    rewrite (at_ok d' i []) by lia. unfold wait_if, count_of in *.
    rewrite (Htodo i) by lia.
    destruct (0 <? len (nth i d [])) eqn:Epos.
    + eexists. split; [reflexivity|]. split; [now rewrite length_set_nth|]. split.
      * intros j Hj. rewrite nth_set_nth by lia.
        destruct (Nat.eqb_spec j i) as [->|Hne]; [now rewrite Epos|]. apply Hdone. lia.
      * intros j Hj. rewrite nth_set_nth by lia.
        destruct (Nat.eqb_spec j i) as [->|Hne]; [lia|]. apply Htodo. lia.
    + exists d'. unfold xret. rewrite app_nil_r. split; [reflexivity|].
      split; [assumption|]. split.
      * intros j Hj. destruct (Nat.eq_dec j i) as [->|Hne]; [|apply Hdone; lia].
        rewrite Epos. apply Htodo. lia.
      * intros j Hj. apply Htodo. lia.
  - split; [assumption|]. split; [intros j Hj; lia|reflexivity].
  - eexists. exists d'. split; [exact E|]. split; [assumption|].
    intros j Hj. now apply Hdone.
Qed.

Lemma len_zero_empty {A} (l : list A) : len l = 0 -> l = [].
Proof. destruct l; [reflexivity|]. unfold len. cbn [length]. lia. Qed.

Lemma delivered_entry (msg r : list T) :
  len (if 0 <? len r then deliver msg r else r) = len r /\
  (len msg = len r -> (if 0 <? len r then deliver msg r else r) = msg).
Proof.
  destruct (0 <? len r) eqn:Epos.
  - split; [apply len_deliver|]. intros H. apply deliver_same_length.
    unfold len in H. lia.
  - apply Z.ltb_ge in Epos. pose proof (Zle_0_nat (length r)) as Hnn.
    assert (Hr : len r = 0) by (unfold len in *; lia).
    split; [reflexivity|]. intros Hm. rewrite Hr in Hm.
    apply len_zero_empty in Hr, Hm. congruence.
Qed.

(** The barrier, the sends and the waits that end every vector-based
    variant, with the receive lists they leave. *)
Lemma tail_delivers msg_tag send_lists rcount tr (d : list (list T)) :
  length send_lists = n_procs -> length d = n_procs ->
  (forall i, (i < n_procs)%nat -> count_of d i = rcount i) ->
  exists tr' d',
    (emit MPI_Barrier ;;;;
     send_data_loop sizeof_T num_procs send_lists msg_tag ;;;;
     wait_data_loop num_procs net_data) tr d
    = Returned tt tr' d' /\
    length d' = n_procs /\
    forall i, (i < n_procs)%nat ->
      len (nth i d' []) = rcount i /\
      (len (net_data i) = rcount i -> nth i d' [] = net_data i).
Proof.
  intros Hs Hd Hc. unfold xbind at 1, emit.
  rewrite (xbind_returned _ _ _ _ _ _ _ (send_data_loop_ok send_lists msg_tag _ d Hs)).
  match goal with |- context [wait_data_loop _ _ ?tr0 d] =>
    destruct (wait_data_loop_delivers tr0 d Hd) as (tr' & d' & E & Hl & Hentries) end.
  exists tr', d'. split; [exact E|]. split; [exact Hl|].
  intros i Hi. rewrite (Hentries i Hi), <- (Hc i Hi). unfold count_of.
  apply delivered_entry.
Qed.

Lemma sym_known_delivers send_lists recv_lists :
  valid (SymKnown send_lists recv_lists) ->
  exists tr d',
    parallel_data_exchange_sym_t T_zero sizeof_T num_procs net_data send_lists [] recv_lists
    = Returned tt tr d' /\
    length d' = n_procs /\
    forall i, (i < n_procs)%nat ->
      len (nth i d' []) = count_of send_lists i /\
      (len (net_data i) = count_of send_lists i -> nth i d' [] = net_data i).
Proof.
  intros (Hn & Hs & Hr).
  apply length_procs in Hs, Hr; try assumption.
  unfold parallel_data_exchange_sym_t.
  destruct (for_range_spec
              (fun i d => length d = n_procs /\
                          forall j, (j < i)%nat -> count_of d j = count_of send_lists j)
              (fun i => irecv_if T sizeof_T 10242 (count_of send_lists i) i)
              (fun iproc =>
                 recv_lists <-- get ;;
                 r <-- at_ recv_lists iproc ;;
                 s <-- at_ send_lists iproc ;;
                 put (set_nth recv_lists iproc (vresize T_zero r (length s))) ;;;;
                 post_recv T sizeof_T 10242 iproc)) with (tr := @nil (event T))
                                                         (d := recv_lists)
    as (d1 & E1 & Hl1 & Hc1).
  - intros i tr d Hi [Hl Hc]. unfold xbind, get.
    rewrite (at_ok d i []), (at_ok send_lists i []) by lia. unfold put.
    rewrite post_recv_ok by (rewrite length_set_nth; lia).
    rewrite count_of_set_nth, Nat.eqb_refl, len_vresize by lia.
    eexists. split; [reflexivity|]. split; [now rewrite length_set_nth|].
    intros j Hj. rewrite count_of_set_nth by lia.
    destruct (Nat.eqb_spec j i) as [->|Hne]; [now rewrite len_vresize|].
    apply Hc. lia.
  - split; [assumption|]. intros j Hj. lia.
  - rewrite (xbind_returned _ _ _ _ _ _ _ E1).
    match type of E1 with _ = Returned _ ?tr1 _ =>
      exact (tail_delivers 10242 send_lists (count_of send_lists) tr1 d1 Hs Hl1 Hc1) end.
Qed.

Lemma size_unknown_delivers send_lists recv_lists numToRecvFrom :
  valid (SizeUnknown send_lists recv_lists numToRecvFrom) ->
  exists tr d',
    parallel_data_exchange_t T_zero sizeof_T num_procs net_data send_lists numToRecvFrom
      [] recv_lists
    = Returned tt tr d' /\
    length d' = n_procs /\
    forall i, (i < n_procs)%nat ->
      len (nth i d' []) = nth i numToRecvFrom 0 /\
      (len (net_data i) = nth i numToRecvFrom 0 -> nth i d' [] = net_data i).
Proof.
  intros (Hn & Hs & Hr & Hc & Hpos).
  unfold parallel_data_exchange_t.
  unfold xbind at 1, emit at 1. unfold xbind at 1, emit at 1. unfold xbind at 1, get at 1.
  unfold wrap32. rewrite Z.mod_small by lia. rewrite Hs, Hr, Z.eqb_refl. cbn [andb].
  unfold xbind at 1, xret at 1. unfold xbind at 1, emit at 1.
  assert (Hs' : length send_lists = n_procs) by (unfold len in *; lia).
  assert (Hr' : length recv_lists = n_procs) by (unfold len in *; lia).
  assert (Hc' : length numToRecvFrom = n_procs) by (unfold len in *; lia).
  match goal with |- context [xbind (for_range _ ?body) _ ?tr0 _] =>
    destruct (for_range_spec
                (fun i d => length d = n_procs /\
                            forall j, (j < i)%nat -> count_of d j = nth j numToRecvFrom 0)
                (fun i => irecv_if T sizeof_T 10242 (nth i numToRecvFrom 0) i)
                body) with (tr := tr0) (d := recv_lists)
      as (d1 & E1 & Hl1 & Hc1) end.
  - intros i tr d Hi [Hl Hcd]. unfold xbind, get.
    rewrite (at_ok d i []), (at_ok numToRecvFrom i 0) by lia.
    assert (0 <= nth i numToRecvFrom 0) as Hk.
    { rewrite Forall_forall in Hpos. apply Hpos, nth_In. lia. }
    rewrite resize_ok by assumption. unfold put.
    rewrite post_recv_ok by (rewrite length_set_nth; lia).
    rewrite count_of_set_nth, Nat.eqb_refl, len_vresize, Z2Nat.id by lia.
    eexists. split; [reflexivity|]. split; [now rewrite length_set_nth|].
    intros j Hj. rewrite count_of_set_nth by lia.
    destruct (Nat.eqb_spec j i) as [->|Hne]; [rewrite len_vresize; lia|].
    apply Hcd. lia.
  - split; [assumption|]. intros j Hj. lia.
  - rewrite (xbind_returned _ _ _ _ _ _ _ E1).
    match type of E1 with _ = Returned _ ?tr1 _ =>
      exact (tail_delivers 10242 send_lists (fun i => nth i numToRecvFrom 0)
               tr1 d1 Hs' Hl1 Hc1) end.
Qed.

Lemma sym_unknown_delivers send_lists recv_lists :
  valid (SymUnknown send_lists recv_lists) ->
  exists tr d',
    parallel_data_exchange_sym_unknown_size_t T_zero sizeof_T num_procs net_data net_sizes
      send_lists [] recv_lists
    = Returned tt tr d' /\
    length d' = n_procs /\
    forall i, (i < n_procs)%nat ->
      len (nth i d' []) = recv_count (SymUnknown send_lists recv_lists) i /\
      (len (net_data i) = recv_count (SymUnknown send_lists recv_lists) i ->
       nth i d' [] = net_data i).
Proof.
  intros (Hn & Hs & Hr & Hsizes).
  apply length_procs in Hs, Hr; try assumption.
  unfold parallel_data_exchange_sym_unknown_size_t.
  match goal with |- context [xbind (for_range _ ?body) _ ?tr0 _] =>
    destruct (for_range_spec (fun _ d => d = recv_lists) (fun _ => []) body)
      with (tr := tr0) (d := recv_lists) as (d0 & E0 & ->) end.
  { intros i tr d Hi ->. exists recv_lists. unfold xbind.
    rewrite (at_ok send_lists i []) by lia. unfold xret. now rewrite app_nil_r. }
  { reflexivity. }
  rewrite (xbind_returned _ _ _ _ _ _ _ E0). clear E0.
  match goal with |- context [xbind (for_range _ ?body) _ ?tr0 _] =>
    destruct (for_range_spec (fun _ d => d = recv_lists)
                (fun i => if 0 <? count_of recv_lists i
                          then [MPI_Irecv 1 MPI_INT (Z.of_nat i) 10242 i] else [])
                body)
      with (tr := tr0) (d := recv_lists) as (d1 & E1 & ->) end.
  { intros i tr d Hi ->. exists recv_lists. split; [|reflexivity].
    unfold xbind, get. rewrite (at_ok recv_lists i []) by lia.
    change (len (nth i recv_lists [])) with (count_of recv_lists i).
    destruct (0 <? count_of recv_lists i); [reflexivity|].
    unfold xret. now rewrite app_nil_r. }
  { reflexivity. }
  rewrite (xbind_returned _ _ _ _ _ _ _ E1). clear E1.
  unfold xbind at 1, emit at 1.
  match goal with |- context [xbind (for_range _ ?body) _ ?tr0 _] =>
    destruct (for_range_spec (fun _ d => d = recv_lists)
                (fun i => if 0 <? count_of send_lists i
                          then [MPI_Send 1 MPI_INT (Z.of_nat i) 10242] else [])
                body)
      with (tr := tr0) (d := recv_lists) as (d2 & E2 & ->) end.
  { intros i tr d Hi ->. exists recv_lists. split; [|reflexivity].
    unfold xbind. rewrite (at_ok send_lists i []) by lia.
    change (len (nth i send_lists [])) with (count_of send_lists i).
    destruct (0 <? count_of send_lists i); [reflexivity|].
    unfold xret. now rewrite app_nil_r. }
  { reflexivity. }
  rewrite (xbind_returned _ _ _ _ _ _ _ E2). clear E2.
  match goal with |- context [xbind (for_range _ ?body) _ ?tr0 _] =>
    destruct (for_range_spec
                (fun i d => length d = n_procs /\
                   (forall j, (j < i)%nat ->
                      count_of d j = recv_count (SymUnknown send_lists recv_lists) j) /\
                   (forall j, (i <= j)%nat -> count_of d j = count_of recv_lists j))
                (fun i => wait_if T (count_of recv_lists i) i)
                body)
      with (tr := tr0) (d := recv_lists) as (d3 & E3 & Hl3 & Hc3 & _) end.
  { intros i tr d Hi (Hl & Hdone & Htodo). unfold xbind, get.
    rewrite (at_ok d i []) by lia.
    change (len (nth i d [])) with (count_of d i).
    rewrite (Htodo i) by lia. unfold wait_if.
    cbn [Exchange.recv_count] in *.
    destruct (0 <? count_of recv_lists i) eqn:Epos.
    - unfold emit. cbv beta iota.
      rewrite resize_ok by (apply Hsizes; apply Z.ltb_lt; exact Epos).
      unfold put. eexists. split; [reflexivity|].
      split; [now rewrite length_set_nth|]. split.
      + intros j Hj. rewrite count_of_set_nth by lia.
        destruct (Nat.eqb_spec j i) as [->|Hne]; [|apply Hdone; lia].
        rewrite Epos, len_vresize, Z2Nat.id; [reflexivity|].
        apply Hsizes. apply Z.ltb_lt. exact Epos.
      + intros j Hj. rewrite count_of_set_nth by lia.
        destruct (Nat.eqb_spec j i) as [->|Hne]; [lia|]. apply Htodo. lia.
    - exists d. unfold xret. rewrite app_nil_r. split; [reflexivity|].
      split; [assumption|]. split.
      + intros j Hj. destruct (Nat.eq_dec j i) as [->|Hne]; [|apply Hdone; lia].
        rewrite Epos, (Htodo i) by lia.
        apply Z.ltb_ge in Epos. pose proof (count_of_nonneg recv_lists i). lia.
      + intros j Hj. apply Htodo. lia. }
  { split; [assumption|]. split; [intros j Hj; lia|reflexivity]. }
  rewrite (xbind_returned _ _ _ _ _ _ _ E3). clear E3.
  match goal with |- context [xbind (for_range _ ?body) _ ?tr0 _] =>
    destruct (for_range_spec (fun _ d => d = d3)
                (fun i => irecv_if T sizeof_T 10242 (count_of d3 i) i) body)
      with (tr := tr0) (d := d3) as (d4 & E4 & ->) end.
  { intros i tr d Hi ->. exists d3. split; [|reflexivity].
    apply post_recv_ok. lia. }
  { reflexivity. }
  rewrite (xbind_returned _ _ _ _ _ _ _ E4). clear E4.
  match goal with |- context [xbind _ _ ?tr0 d3] =>
    exact (tail_delivers 10242 send_lists
             (recv_count (SymUnknown send_lists recv_lists)) tr0 d3 Hs Hl3 Hc3) end.
Qed.

(** On return from a vector-based variant every receive list has the size
    the receive was posted for, whatever it held on entry; and when the
    partner's message has that size, the list holds exactly the message. *)
Theorem exchange_delivers (v : variant T) (i : nat) :
  vector_based v = true -> valid v -> (i < n_procs)%nat ->
  exists lists,
    received v = Some lists /\ length lists = n_procs /\
    len (nth i lists []) = recv_count v i /\
    (len (net_data i) = recv_count v i -> nth i lists [] = net_data i).
Proof.
  intros Hvec Hv Hi.
  destruct v as [s r n|s r| | s r|]; try discriminate Hvec; cbn [Exchange.received].
  - destruct (size_unknown_delivers s r n Hv) as (tr & d' & E & Hl & Hall).
    rewrite E. exists d'. cbn [stored Exchange.recv_count].
    destruct (Hall i Hi). auto.
  - destruct (sym_known_delivers s r Hv) as (tr & d' & E & Hl & Hall).
    rewrite E. exists d'. cbn [stored Exchange.recv_count].
    destruct (Hall i Hi). auto.
  - destruct (sym_unknown_delivers s r Hv) as (tr & d' & E & Hl & Hall).
    rewrite E. exists d'. cbn [stored].
    destruct (Hall i Hi). auto.
Qed.

(** ** Supplements: what the receive array holds on return *)

Lemma splice_own (d m rest : list T) a sz :
  (a <= length d)%nat -> length m = sz ->
  firstn sz (skipn a (firstn a d ++ m ++ rest)) = m.
Proof.
  intros Ha Hm. rewrite BufferFacts.skipn_len_app by (rewrite length_firstn; lia).
  now apply BufferFacts.firstn_len_app.
Qed.

Lemma splice_before (d rest : list T) x y a :
  (x <= y <= a)%nat -> (a <= length d)%nat ->
  firstn (y - x) (skipn x (firstn a d ++ rest)) = firstn (y - x) (skipn x d).
Proof.
  intros Hxy Ha. rewrite skipn_app, length_firstn.
  replace (x - Nat.min a (length d))%nat with 0%nat by lia. cbn [skipn].
  rewrite firstn_app, length_skipn, length_firstn.
  replace (y - x - (Nat.min a (length d) - x))%nat with 0%nat by lia.
  cbn [firstn]. rewrite app_nil_r, skipn_firstn_comm, firstn_firstn.
  f_equal. lia.
Qed.

Lemma splice_after (d m : list T) x a b :
  (a <= b <= x)%nat -> (b <= length d)%nat -> length m = (b - a)%nat ->
  skipn x (firstn a d ++ m ++ skipn b d) = skipn x d.
Proof.
  intros Hab Hb Hm. rewrite app_assoc, skipn_app.
  rewrite (skipn_all2 (firstn a d ++ m)) by (rewrite length_app, length_firstn; lia).
  cbn [app]. rewrite length_app, length_firstn, skipn_skipn. f_equal. lia.
Qed.

Lemma offsets_chain (offsets : list Z) :
  (forall j, (j < n_procs)%nat -> 0 <= nth j offsets 0 <= nth (S j) offsets 0) ->
  forall k j, (k <= n_procs)%nat -> (j <= k)%nat ->
    (Z.to_nat (nth j offsets 0%Z) <= Z.to_nat (nth k offsets 0%Z))%nat.
Proof.
  intros Hmono. induction k as [|k IH]; intros j Hk Hj.
  - replace j with 0%nat by lia. lia.
  - destruct (Nat.eq_dec j (S k)) as [->|Hne]; [lia|].
    specialize (IH j ltac:(lia) ltac:(lia)). specialize (Hmono k ltac:(lia)). lia.
Qed.

Lemma slice_nat (offsets : list Z) (d : list T) j :
  0 <= nth j offsets 0 <= nth (S j) offsets 0 ->
  slice offsets d j
  = firstn (Z.to_nat (nth (S j) offsets 0%Z) - Z.to_nat (nth j offsets 0%Z))%nat
           (skipn (Z.to_nat (nth j offsets 0)) d).
Proof. intros H. unfold slice. f_equal. lia. Qed.

Abbreviation received_data := (received_data T sizeof_T num_procs net_data).

Lemma length_slice (offsets : list Z) (d : list T) j :
  0 <= nth j offsets 0 <= nth (S j) offsets 0 ->
  (Z.to_nat (nth (S j) offsets 0%Z) <= length d)%nat ->
  len (slice offsets d j) = nth (S j) offsets 0 - nth j offsets 0.
Proof.
  intros H Hle. unfold slice, len. rewrite length_firstn, length_skipn. lia.
Qed.

(** On return from the offset-based variant the receive array has kept its
    length, the elements outside the slices are untouched, and the slice of
    every rank whose message has the size of the slice holds that message. *)
Theorem offset_exchange_delivers sendOffsets sendData recvOffsets recvData (i : nat) :
  valid (OffsetKnown sendOffsets sendData recvOffsets recvData) ->
  contiguous num_procs recvOffsets recvData ->
  (i < n_procs)%nat ->
  exists data,
    received_data sendOffsets sendData recvOffsets recvData = Some data /\
    length data = length recvData /\
    firstn (Z.to_nat (nth 0 recvOffsets 0)) data
    = firstn (Z.to_nat (nth 0 recvOffsets 0)) recvData /\
    skipn (Z.to_nat (nth n_procs recvOffsets 0)) data
    = skipn (Z.to_nat (nth n_procs recvOffsets 0)) recvData /\
    len (slice recvOffsets data i) = nth (S i) recvOffsets 0 - nth i recvOffsets 0 /\
    (len (net_data i) = nth (S i) recvOffsets 0 - nth i recvOffsets 0 ->
     slice recvOffsets data i = net_data i).
Proof.
  intros (Hn & (Hsl & Hsok) & (Hrl & Hrok)) (Hmono & Hend & Hsmall) Hi.
  assert (Hsl' : length sendOffsets = S n_procs) by (unfold len in *; lia).
  assert (Hrl' : length recvOffsets = S n_procs) by (unfold len in *; lia).
  pose proof (offsets_chain recvOffsets Hmono) as Hchain.
  assert (HposL : (Z.to_nat (nth n_procs recvOffsets 0%Z) <= length recvData)%nat)
    by (unfold len in Hend; lia).
  set (F := fun j => if 0 <? nth (S j) recvOffsets 0 - nth j recvOffsets 0
                     then deliver (net_data j) (slice recvOffsets recvData j)
                     else slice recvOffsets recvData j).
  unfold Exchange.received_data, parallel_data_exchange_nonsym_known_sizes_t.
  match goal with |- context [xbind (for_range _ ?body) _ ?tr0 _] =>
    destruct (for_range_spec (fun _ d => d = recvData)
                (fun i => irecv_if T sizeof_T 10243 (slice_of recvOffsets i) i)
                body) with (tr := tr0) (d := recvData)
      as (d1 & E1 & ->) end.
  { intros k tr d Hk ->. exists recvData. split; [|reflexivity].
    unfold xbind. rewrite slice_size_ok by lia. unfold irecv_if.
    destruct (0 <? slice_of recvOffsets k) eqn:Epos.
    + rewrite (at_ok recvOffsets k 0) by lia. unfold get.
      apply Z.ltb_lt in Epos. specialize (Hrok k Hk Epos).
      replace (_ && _) with true by (symmetry; apply andb_true_iff; lia).
      reflexivity.
    + unfold xret. now rewrite app_nil_r. }
  { reflexivity. }
  rewrite (xbind_returned _ _ _ _ _ _ _ E1). clear E1.
  unfold xbind at 1, emit at 1.
  match goal with |- context [xbind (for_range _ ?body) _ ?tr0 _] =>
    destruct (for_range_spec (fun _ d => d = recvData)
                (fun i => send_if T sizeof_T 10243 (slice_of sendOffsets i) i)
                body) with (tr := tr0) (d := recvData)
      as (d2 & E2 & ->) end.
  { intros k tr d Hk ->. exists recvData. split; [|reflexivity].
    unfold xbind. rewrite slice_size_ok by lia. unfold send_if.
    destruct (0 <? slice_of sendOffsets k) eqn:Epos.
    * rewrite (at_ok sendOffsets k 0) by lia.
      apply Z.ltb_lt in Epos. specialize (Hsok k Hk Epos).
      replace (_ && _) with true by (symmetry; apply andb_true_iff; lia).
      reflexivity.
    * unfold xret. now rewrite app_nil_r. }
  { reflexivity. }
  rewrite (xbind_returned _ _ _ _ _ _ _ E2). clear E2.
  match goal with |- context [for_range _ ?body ?tr0 _] =>
    destruct (for_range_spec
                (fun k d =>
                   length d = length recvData /\
                   (forall j, (j < k)%nat -> slice recvOffsets d j = F j) /\
                   (forall j, (k <= j < n_procs)%nat ->
                      slice recvOffsets d j = slice recvOffsets recvData j) /\
                   firstn (Z.to_nat (nth 0 recvOffsets 0)) d
                   = firstn (Z.to_nat (nth 0 recvOffsets 0)) recvData /\
                   skipn (Z.to_nat (nth n_procs recvOffsets 0)) d
                   = skipn (Z.to_nat (nth n_procs recvOffsets 0)) recvData)
                (fun i => wait_if T (slice_of recvOffsets i) i)
                body) with (tr := tr0) (d := recvData)
      as (d3 & E3 & Hl3 & Hdone3 & _ & Hhead3 & Htail3) end.
  { intros k tr d Hk (Hl & Hdone & Htodo & Hhead & Htail).
    unfold xbind. rewrite slice_size_ok by lia. unfold wait_if.
    pose proof (Hmono k Hk) as Hmk.
    pose proof (Hchain n_procs (S k) ltac:(lia) ltac:(lia)) as HB.
    pose proof (Hchain k 0%nat ltac:(lia) ltac:(lia)) as H0.
    assert (Hsz : slice_of recvOffsets k = nth (S k) recvOffsets 0 - nth k recvOffsets 0).
    { unfold slice_of. apply wrap_int_small. lia. }
    rewrite Hsz.
    destruct (0 <? nth (S k) recvOffsets 0 - nth k recvOffsets 0) eqn:Epos.
    - unfold emit. cbv beta iota. rewrite (at_ok recvOffsets k 0) by lia.
      unfold get, put. eexists. split; [reflexivity|].
      change (firstn (Z.to_nat (nth (S k) recvOffsets 0 - nth k recvOffsets 0))
                (skipn (Z.to_nat (nth k recvOffsets 0)) d))
        with (slice recvOffsets d k).
      rewrite (Htodo k) by lia.
      set (m := deliver (net_data k) (slice recvOffsets recvData k)).
      set (A := Z.to_nat (nth k recvOffsets 0)) in *.
      set (B := Z.to_nat (nth (S k) recvOffsets 0)) in *.
      replace (A + Z.to_nat (nth (S k) recvOffsets 0%Z - nth k recvOffsets 0%Z)%Z)%nat
        with B by lia.
      assert (Hm : length m = (B - A)%nat).
      { apply Nat2Z.inj. fold (len m). unfold m. rewrite len_deliver.
        rewrite length_slice by (fold B; lia). lia. }
      assert (Hd' : length (firstn A d ++ m ++ skipn B d) = length recvData).
      { rewrite !length_app, length_firstn, length_skipn. lia. }
      split; [exact Hd'|]. split; [|split; [|split]].
      + intros j Hj. destruct (Nat.eq_dec j k) as [->|Hne].
        * rewrite slice_nat by assumption. fold A B.
          rewrite splice_own by (assumption || lia).
          unfold F. now rewrite Epos.
        * pose proof (Hmono j ltac:(lia)) as Hmj.
          pose proof (Hchain k (S j) ltac:(lia) ltac:(lia)) as Hjk.
          rewrite slice_nat by assumption.
          rewrite splice_before by (fold A; lia).
          rewrite <- slice_nat by assumption. apply Hdone. lia.
      + intros j Hj. pose proof (Hmono j ltac:(lia)) as Hmj.
        pose proof (Hchain j (S k) ltac:(lia) ltac:(lia)) as Hkj.
        rewrite slice_nat by assumption.
        rewrite splice_after by (fold B; lia).
        rewrite <- slice_nat by assumption. apply Htodo. lia.
      + pose proof (splice_before d (m ++ skipn B d) 0
                      (Z.to_nat (nth 0 recvOffsets 0)) A ltac:(lia) ltac:(lia)) as H1.
        rewrite Nat.sub_0_r in H1. cbn [skipn] in H1. now rewrite H1.
      + rewrite splice_after by lia. exact Htail.
    - exists d. unfold xret. rewrite app_nil_r. split; [reflexivity|].
      split; [assumption|]. split; [|split; [|split]]; try assumption.
      + intros j Hj. destruct (Nat.eq_dec j k) as [->|Hne]; [|apply Hdone; lia].
        unfold F. rewrite Epos. apply Htodo. lia.
      + intros j Hj. apply Htodo. lia. }
  { split; [reflexivity|]. split; [intros j Hj; lia|]. auto. }
  rewrite E3. cbn [stored]. exists d3.
  split; [reflexivity|]. split; [assumption|]. split; [assumption|].
  split; [assumption|].
  pose proof (Hmono i Hi) as Hmi.
  pose proof (Hchain n_procs (S i) ltac:(lia) ltac:(lia)) as HBi.
  rewrite (Hdone3 i Hi). unfold F.
  pose proof (length_slice recvOffsets recvData i Hmi ltac:(lia)) as Hls.
  destruct (0 <? nth (S i) recvOffsets 0 - nth i recvOffsets 0) eqn:Epos.
  - split; [now rewrite len_deliver|]. intros Hmsg.
    apply deliver_same_length. unfold len in *. lia.
  - split; [exact Hls|]. intros Hmsg. apply Z.ltb_ge in Epos.
    assert (Hz : nth (S i) recvOffsets 0 - nth i recvOffsets 0 = 0) by lia.
    rewrite Hz in *. apply len_zero_empty in Hls, Hmsg. congruence.
Qed.

(** ** Supplements: lists shorter than the group *)

Lemma for_from_abort {D} (I : nat -> D -> Prop) (g : nat -> list (event T))
    (body : nat -> X T D unit) (f : failure) : forall k count lo,
  (k < count)%nat ->
  (forall i tr d, (lo <= i < lo + k)%nat -> I i d ->
     exists d', body i tr d = Returned tt (tr ++ g i) d' /\ I (S i) d') ->
  (forall tr d, I (lo + k)%nat d -> body (lo + k)%nat tr d = Aborted f tr d) ->
  forall tr d, I lo d ->
    exists d', for_from lo count body tr d
               = Aborted f (tr ++ flat_map g (seq lo k)) d'.
Proof.
  induction k as [|k IH]; intros count lo Hk Hbody Hfail tr d HI;
    (destruct count as [|count]; [lia|]); cbn [for_from seq flat_map]; unfold xbind.
  - rewrite Nat.add_0_r in Hfail. rewrite (Hfail tr d HI), app_nil_r. now exists d.
  - destruct (Hbody lo tr d ltac:(lia) HI) as (d1 & E1 & I1). rewrite E1.
    destruct (IH count (S lo) ltac:(lia)
                (fun i tr d Hi => Hbody i tr d ltac:(lia))) with (tr := tr ++ g lo) (d := d1)
      as (d2 & E2).
    + intros tr' d' HI'. replace (lo + S k)%nat with (S lo + k)%nat in Hfail by lia.
      now apply Hfail.
    + exact I1.
    + exists d2. now rewrite E2, app_assoc.
Qed.

Lemma at_missing {D A} (v : list A) i tr (d : D) :
  (length v <= i)%nat -> @at_ T D A v i tr d = Aborted OutOfRange tr d.
Proof.
  intros Hi. unfold at_. apply nth_error_None in Hi. now rewrite Hi.
Qed.

(** [parallel_data_exchange_sym_t] does not check its vectors against the
    group size: called with fewer send or receive lists than there are
    ranks, it posts the receives for the ranks it has lists for and then
    indexes a vector out of range; it does not fail a [ThrowRequire], and it
    reaches neither the barrier nor a send. *)
Theorem sym_known_short_lists send_lists recv_lists :
  (Nat.min (length send_lists) (length recv_lists) < n_procs)%nat ->
  run (SymKnown send_lists recv_lists)
  = (Aborts OutOfRange,
     flat_map (fun i => irecv_if T sizeof_T 10242 (count_of send_lists i) i)
              (seq 0 (Nat.min (length send_lists) (length recv_lists)))).
Proof.
  intros Hshort. cbn [Exchange.run]. unfold parallel_data_exchange_sym_t.
  set (k := Nat.min (length send_lists) (length recv_lists)) in *.
  unfold for_range.
  match goal with |- context [xbind (for_from 0 _ ?body) _ ?tr0 _] =>
    destruct (for_from_abort
                (fun _ d => length d = length recv_lists)
                (fun i => irecv_if T sizeof_T 10242 (count_of send_lists i) i)
                body OutOfRange k n_procs 0 Hshort) with (tr := tr0) (d := recv_lists)
      as (d1 & E1) end.
  - intros i tr d Hi Hl. unfold xbind, get.
    rewrite (at_ok d i []), (at_ok send_lists i []) by lia. unfold put.
    rewrite post_recv_ok by (rewrite length_set_nth; lia).
    rewrite count_of_set_nth, Nat.eqb_refl, len_vresize by lia.
    eexists. split; [reflexivity|]. now rewrite length_set_nth.
  - intros tr d Hl. cbn [Nat.add]. unfold xbind, get.
    destruct (Nat.le_gt_cases (length d) k) as [Hd|Hd].
    + now rewrite at_missing.
    + rewrite (at_ok d k []) by lia. rewrite at_missing by lia. reflexivity.
  - reflexivity.
  - unfold xbind at 1. rewrite E1. reflexivity.
Qed.

End Facts.

(** ** The theorems at concrete calls *)



Lemma receive_posted_iff_size_positive_witness :
  exists tr,
    run 0 8 2 demo_data demo_sizes demo_pack demo_arrival
      (SizeUnknown [[1]; [2; 3]] [[]; []] [0; 3]) = (Returns, tr) /\
    (posted MPI_CHAR 1 tr <->
     0 < recv_count demo_sizes (SizeUnknown [[1]; [2; 3]] [[]; []] [0; 3]) 1).
Proof.
  apply receive_posted_iff_size_positive.
  - reflexivity.
  - cbn. repeat split; try lia. repeat constructor; lia.
  - cbn. lia.
Defined.

(** C6, refuted as stated: when the packer leaves the payload empty, the
    functor variant still posts a non-blocking receive, of zero bytes. *)
Lemma functor_variant_posts_empty_receive :
  run 0 8 2 demo_data demo_sizes empty_pack demo_arrival (Functor [1] true)
  = (Returns,
     [pack_msg_call 1;
      MPI_Irecv 0 MPI_CHAR 1 10242 0; MPI_Isend 0 MPI_CHAR 1 10242 0;
      MPI_Wait 0; unpack_msg_call 1 [];
      MPI_Waitall 1]) /\
  posted MPI_CHAR 0
    (snd (run 0 8 2 demo_data demo_sizes empty_pack demo_arrival (Functor [1] true))).
Proof.
  split; [vm_compute; reflexivity|].
  exists 0, 1, 10242. vm_compute. auto.
Qed.


Lemma require_reports_mismatch_witness :
  run 0 8 2 demo_data demo_sizes demo_pack demo_arrival
    (SizeUnknown [[1]; [2; 3]; [4]] [[]; []] [0; 3])
  = (Aborts RequireFailed, [MPI_Comm_size; MPI_Comm_rank]).
Proof. apply require_reports_mismatch. left. vm_compute. discriminate. Defined.

Lemma deterministic_completion_order_witness :
  exists tr,
    run 0 8 2 demo_data demo_sizes demo_pack demo_arrival (Functor [1; 0] true)
    = (Returns, tr ++ [MPI_Waitall (len [1; 0])]) /\
    unpacked tr = [1; 0].
Proof.
  apply deterministic_completion_order. vm_compute. reflexivity.
Defined.

(** C5: with a group of two, [parallel_data_exchange_sym_t] given three
    send lists and three receive lists reports nothing and exchanges with
    ranks 0 and 1; given one send list it indexes past the end after posting a
    receive; [parallel_data_exchange_t] on the same mismatch fails its
    [ThrowRequire] before any message is posted. *)
Lemma sym_known_mismatch_is_not_reported :
  demo_run (SymKnown [[1]; [2; 3]; [4]] [[]; []; []])
  = (Returns,
     [MPI_Irecv 8 MPI_CHAR 0 10242 0; MPI_Irecv 16 MPI_CHAR 1 10242 1;
      MPI_Barrier;
      MPI_Send 8 MPI_CHAR 0 10242; MPI_Send 16 MPI_CHAR 1 10242;
      MPI_Wait 0; MPI_Wait 1]) /\
  demo_run (SymKnown [[1]] [[]; []])
  = (Aborts OutOfRange, [MPI_Irecv 8 MPI_CHAR 0 10242 0]) /\
  demo_run (SizeUnknown [[1]; [2; 3]; [4]] [[]; []; []] [0; 3])
  = (Aborts RequireFailed, [MPI_Comm_size; MPI_Comm_rank]).
Proof. repeat split; vm_compute; reflexivity. Qed.

(** ** The supplements at concrete calls *)

Lemma waitany_completion_order_witness :
  exists tr,
    run 0 8 2 demo_data demo_sizes demo_pack demo_arrival (Functor [1; 0] false)
    = (Returns, tr ++ [MPI_Waitall (len [1; 0])]) /\
    unpacked tr
    = map (fun k => nth (Z.to_nat (demo_arrival k)) [1; 0] 0) (seq 0 (length [1; 0])).
Proof.
  apply waitany_completion_order. split; [vm_compute; reflexivity|].
  intros _ [|[|i]] Hi; cbn in *; lia.
Defined.

Lemma every_partner_unpacked_once_witness :
  exists tr,
    run 0 8 2 demo_data demo_sizes demo_pack demo_arrival (Functor [1; 0] false)
    = (Returns, tr ++ [MPI_Waitall (len [1; 0])]) /\
    Permutation (unpacked tr) [1; 0].
Proof.
  apply every_partner_unpacked_once.
  - split; [vm_compute; reflexivity|]. intros _ [|[|i]] Hi; cbn in *; lia.
  - vm_compute. apply perm_swap.
Defined.

Lemma functor_posts_then_completes_witness :
  exists rest,
    run 0 8 2 demo_data demo_sizes demo_pack demo_arrival (Functor [1; 0] false)
    = (Returns, functor_posts Z 8 demo_pack [1; 0] ++ rest) /\
    Forall (fun e => ~ is_post e) rest /\
    ~ In MPI_Barrier (functor_posts Z 8 demo_pack [1; 0] ++ rest).
Proof.
  apply functor_posts_then_completes. split; [vm_compute; reflexivity|].
  intros _ [|[|i]] Hi; cbn in *; lia.
Defined.

Lemma unpack_receives_partner_message_witness :
  exists tr,
    run 0 8 2 demo_data demo_sizes demo_pack demo_arrival (Functor [1; 0] true)
    = (Returns, tr) /\
    forall iproc data, In (unpack_msg_call iproc data) tr ->
      exists idx, (idx < length [1; 0])%nat /\ iproc = nth idx [1; 0] 0 /\
        length data = packed_size Z demo_pack iproc /\
        (length (demo_data idx) = packed_size Z demo_pack iproc -> data = demo_data idx).
Proof.
  apply unpack_receives_partner_message. split; [vm_compute; reflexivity|].
  discriminate.
Defined.

Lemma data_send_envelope_witness :
  exists tr,
    run 0 8 2 demo_data demo_sizes demo_pack demo_arrival
      (SymUnknown [[1]; [2; 3]] [[]; [9]]) = (Returns, tr) /\
    forall count tag,
      In (MPI_Send count MPI_CHAR (Z.of_nat 1) tag) tr <->
      0 < send_count (SymUnknown [[1]; [2; 3]] [[]; [9]]) 1 /\
      count = wrap_int (send_count (SymUnknown [[1]; [2; 3]] [[]; [9]]) 1
                        * class_size 8) /\
      tag = msg_tag_of (SymUnknown [[1]; [2; 3]] [[]; [9]]).
Proof.
  apply data_send_envelope.
  - reflexivity.
  - cbn. repeat split; try lia. intros i _. unfold demo_sizes. lia.
  - cbn. lia.
Defined.

Lemma data_receive_envelope_witness :
  exists tr,
    run 0 8 2 demo_data demo_sizes demo_pack demo_arrival
      (OffsetKnown [0; 1; 2] [7; 8] [0; 3; 6] [0; 0; 0; 0; 0; 0]) = (Returns, tr) /\
    forall count source tag,
      In (MPI_Irecv count MPI_CHAR source tag 1) tr <->
      0 < recv_count demo_sizes
            (OffsetKnown [0; 1; 2] [7; 8] [0; 3; 6] [0; 0; 0; 0; 0; 0]) 1 /\
      count = wrap_int (recv_count demo_sizes
                          (OffsetKnown [0; 1; 2] [7; 8] [0; 3; 6] [0; 0; 0; 0; 0; 0]) 1
                        * class_size 8) /\
      source = Z.of_nat 1 /\
      tag = msg_tag_of (OffsetKnown [0; 1; 2] [7; 8] [0; 3; 6] [0; 0; 0; 0; 0; 0]).
Proof.
  apply data_receive_envelope.
  - reflexivity.
  - split; [lia|]. split; (split; [reflexivity|]); intros [|[|i]] Hi Hpos; cbn in *; lia.
  - cbn. lia.
Defined.

Lemma byte_count_overflows_int_witness :
  exists tr count,
    run 0 (2 ^ 30) 1 demo_data demo_sizes demo_pack demo_arrival
      (SymKnown [[1; 2]] [[]]) = (Returns, tr) /\
    In (MPI_Send count MPI_CHAR (Z.of_nat 0) (msg_tag_of (SymKnown [[1; 2]] [[]]))) tr /\
    count < 0.
Proof.
  apply byte_count_overflows_int.
  - reflexivity.
  - cbn. repeat split; lia.
  - cbn. lia.
  - vm_compute. reflexivity.
  - vm_compute. split; [discriminate|reflexivity].
Defined.

Lemma exchange_delivers_witness :
  exists lists,
    received Z 0 8 2 demo_data demo_sizes (SymKnown [[1; 2; 3]; [4; 5; 6]] [[]; [9]])
    = Some lists /\
    length lists = Z.to_nat 2 /\
    len (nth 1%nat lists [])
    = recv_count demo_sizes (SymKnown [[1; 2; 3]; [4; 5; 6]] [[]; [9]]) 1 /\
    (len (demo_data 1)
     = recv_count demo_sizes (SymKnown [[1; 2; 3]; [4; 5; 6]] [[]; [9]]) 1 ->
     nth 1%nat lists [] = demo_data 1).
Proof.
  apply (exchange_delivers Z 0 8 2 demo_data demo_sizes demo_arrival).
  - reflexivity.
  - cbn. repeat split; lia.
  - cbn. lia.
Defined.

Lemma offset_exchange_delivers_witness :
  exists data,
    received_data Z 8 2 demo_data [0; 1; 2] [7; 8] [0; 3; 6] [0; 0; 0; 0; 0; 0]
    = Some data /\
    length data = length [0; 0; 0; 0; 0; 0] /\
    firstn (Z.to_nat (nth 0%nat [0; 3; 6] 0)) data
    = firstn (Z.to_nat (nth 0%nat [0; 3; 6] 0)) [0; 0; 0; 0; 0; 0] /\
    skipn (Z.to_nat (nth (Z.to_nat 2) [0; 3; 6] 0)) data
    = skipn (Z.to_nat (nth (Z.to_nat 2) [0; 3; 6] 0)) [0; 0; 0; 0; 0; 0] /\
    len (slice [0; 3; 6] data 1) = nth 2%nat [0; 3; 6] 0 - nth 1%nat [0; 3; 6] 0 /\
    (len (demo_data 1) = nth 2%nat [0; 3; 6] 0 - nth 1%nat [0; 3; 6] 0 ->
     slice [0; 3; 6] data 1 = demo_data 1).
Proof.
  apply (offset_exchange_delivers Z 8 2 demo_data demo_sizes demo_arrival).
  - split; [lia|]. split; (split; [reflexivity|]); intros [|[|i]] Hi Hpos; cbn in *; lia.
  - split; [|split; vm_compute; (reflexivity || discriminate)].
    intros [|[|j]] Hj; cbn in *; lia.
  - cbn. lia.
Defined.

Lemma sym_known_short_lists_witness :
  run 0 8 2 demo_data demo_sizes demo_pack demo_arrival (SymKnown [[1]] [[]; []])
  = (Aborts OutOfRange,
     flat_map (fun i => irecv_if Z 8 10242 (count_of [[1]] i) i)
              (seq 0 (Nat.min (length [[1]]) (length [[]; [] : list Z])))).
Proof. apply sym_known_short_lists. cbn. lia. Defined.

End ExchangeFacts.
